(** * server-starter: a shallow embedding of [starter.go]

    The supervisor binds its listeners once, spawns a worker command that
    inherits them, and replaces the worker on HUP.  This development
    embeds the Go source function by function and states the properties
    of the specification over that embedding.

    Conventions of the embedding:
    - Go [int], [int64] and [time.Duration] are [Z]; the one place where
      the source multiplies 64-bit numbers ([getKillOldDelay]) has its
      wrap-around written out, and the counters, which advance by one per
      spawned process, are left unbounded;
    - an interface value that may be [nil] ([os.Signal], [net.Listener],
      [Config], [*os.Process]) is an [option];
    - Go maps are [gmap]s; a [nil] map behaves as the empty map for reads;
    - calls into the operating system ([cmd.Start], [os.FindProcess],
      [net.Listen], ...) take their outcome from an explicit oracle and
      leave an [action] in a trace;
    - the supervisor's [select] reads its events from a list, in the order
      in which the channels delivered them;
    - writes to the error stream ([fmt.Fprintf(os.Stderr, ...)]) are left
      out: no control flow depends on them. *)

From Stdlib Require Import Ascii String ZArith Lia.
From stdpp Require Import gmap strings list fin_maps pretty.

Open Scope string_scope.
Open Scope Z_scope.
Open Scope list_scope.

(** ** Signals *)

(** [os.Signal] is an interface.  Its values are [syscall.Signal] numbers
    or, in principle, any other implementation; [nil] is [None] at the
    use sites. *)
Inductive os_Signal : Type :=
| SyscallSignal (n : Z)
| ForeignSignal (name : string).

#[global] Instance os_Signal_eq_dec : EqDecision os_Signal.
Proof. solve_decision. Defined.

(** The [syscall] constants, with the numbering of the BSD family, the
    platforms that define [SIGEMT] and [SIGINFO]. *)
Module syscall.
Definition SIGHUP : Z := 1.
Definition SIGINT : Z := 2.
Definition SIGQUIT : Z := 3.
Definition SIGILL : Z := 4.
Definition SIGTRAP : Z := 5.
Definition SIGABRT : Z := 6.
Definition SIGEMT : Z := 7.
Definition SIGFPE : Z := 8.
Definition SIGKILL : Z := 9.
Definition SIGBUS : Z := 10.
Definition SIGSEGV : Z := 11.
Definition SIGSYS : Z := 12.
Definition SIGPIPE : Z := 13.
Definition SIGALRM : Z := 14.
Definition SIGTERM : Z := 15.
Definition SIGURG : Z := 16.
Definition SIGSTOP : Z := 17.
Definition SIGTSTP : Z := 18.
Definition SIGCONT : Z := 19.
Definition SIGCHLD : Z := 20.
Definition SIGTTIN : Z := 21.
Definition SIGTTOU : Z := 22.
Definition SIGIO : Z := 23.
Definition SIGXCPU : Z := 24.
Definition SIGXFSZ : Z := 25.
Definition SIGVTALRM : Z := 26.
Definition SIGPROF : Z := 27.
Definition SIGWINCH : Z := 28.
Definition SIGINFO : Z := 29.
Definition SIGUSR1 : Z := 30.
Definition SIGUSR2 : Z := 31.
End syscall.

(** The map literal of [init], entry by entry (the source spells the name
    of [SIGXFSZ] as GXFSZ). *)
Definition sig_name_entries : list (Z * string) :=
  [ (syscall.SIGABRT, "ABRT"); (syscall.SIGALRM, "ALRM");
    (syscall.SIGBUS, "BUS"); (syscall.SIGCHLD, "CHLD");
    (syscall.SIGCONT, "CONT"); (syscall.SIGEMT, "EMT");
    (syscall.SIGFPE, "FPE"); (syscall.SIGHUP, "HUP");
    (syscall.SIGILL, "ILL"); (syscall.SIGINFO, "INFO");
    (syscall.SIGINT, "INT"); (syscall.SIGIO, "IO");
    (syscall.SIGKILL, "KILL"); (syscall.SIGPIPE, "PIPE");
    (syscall.SIGPROF, "PROF"); (syscall.SIGQUIT, "QUIT");
    (syscall.SIGSEGV, "SEGV"); (syscall.SIGSTOP, "STOP");
    (syscall.SIGSYS, "SYS"); (syscall.SIGTERM, "TERM");
    (syscall.SIGTRAP, "TRAP"); (syscall.SIGTSTP, "TSTP");
    (syscall.SIGTTIN, "TTIN"); (syscall.SIGTTOU, "TTOU");
    (syscall.SIGURG, "URG"); (syscall.SIGUSR1, "USR1");
    (syscall.SIGUSR2, "USR2"); (syscall.SIGVTALRM, "VTALRM");
    (syscall.SIGWINCH, "WINCH"); (syscall.SIGXCPU, "XCPU");
    (syscall.SIGXFSZ, "GXFSZ") ].

(** The two package-level variables. *)
Record globals : Type := Globals {
  niceSigNames : gmap Z string;
  niceNameToSigs : gmap string Z
}.

(** Before [init] both variables are [nil]. *)
Definition globals_zero : globals :=
  {| niceSigNames := ∅; niceNameToSigs := ∅ |}.

(** The loop of [init]: [for sig, name := range names { m[name] = sig }]
    on an empty map [m]. *)
Definition invert_names (names : gmap Z string) : gmap string Z :=
  map_fold (fun sig name m => <[name := sig]> m) ∅ names.

(** [init].  The first statement assigns the package-level
    [niceSigNames].  The second one is a short variable declaration
    ([niceNameToSigs := make(...)]): it declares a variable local to
    [init], the loop fills that local map, and the package-level
    [niceNameToSigs] keeps the value it had. *)
Definition init (g : globals) : globals :=
  let names : gmap Z string := list_to_map sig_name_entries in
  let local_niceNameToSigs : gmap string Z := invert_names names in
  {| niceSigNames := names; niceNameToSigs := niceNameToSigs g |}.

(** The state of the package once the program runs. *)
Definition pkg : globals := init globals_zero.

(** [signame]: a missing key reads as the empty string. *)
Definition signame (g : globals) (s : option os_Signal) : string :=
  match s with
  | Some (SyscallSignal ss) => default "" (niceSigNames g !! ss)
  | _ => "UNKNOWN"
  end.

(** [SigFromName] *)
Definition SigFromName (g : globals) (n : string) : option os_Signal :=
  match niceNameToSigs g !! n with
  | Some sig => Some (SyscallSignal sig)
  | None => None
  end.

(** ** Configuration and the [Starter] object *)

(** [Config] is an interface of accessors; a configuration is the record
    of what they return.  [Interval] is a [time.Duration]. *)
Record Config : Type := MkConfig {
  Args : list string;
  Command : string;
  Dir : string;
  Interval : Z;
  PidFile : string;
  Ports : list string;
  Paths : list string;
  SignalOnHUP : option os_Signal;
  SignalOnTERM : option os_Signal;
  StatusFile : string
}.

(** A [net.Listener]: the network and the address handed to
    [net.Listen]. *)
Record Listener : Type := MkListener {
  l_network : string;
  l_address : string
}.

#[global] Instance Listener_eq_dec : EqDecision Listener.
Proof. solve_decision. Defined.

Record Starter : Type := MkStarter {
  interval : Z;
  signalOnHUP : option os_Signal;
  signalOnTERM : option os_Signal;
  statusFile : string;
  pidFile : string;
  dir : string;
  ports : list string;
  paths : list string;
  listeners : list (option Listener);
  generation : Z;
  command : string;
  args : list string
}.

(** A Go result pair [(value, error)]. *)
Inductive result (A : Type) : Type :=
| Ok (a : A)
| Err (msg : string).
Arguments Ok {A} a.
Arguments Err {A} msg.

(** [NewStarter].  [make([]net.Listener, n)] is a slice of [n] nil
    listeners. *)
Definition NewStarter (c : option Config) : result Starter :=
  match c with
  | None => Err "config argument must be non-nil"
  | Some c =>
      let signalOnHUP0 := Some (SyscallSignal syscall.SIGTERM) in
      let signalOnTERM0 := Some (SyscallSignal syscall.SIGTERM) in
      let signalOnHUP1 :=
        match SignalOnHUP c with Some s => Some s | None => signalOnHUP0 end in
      let signalOnTERM1 :=
        match SignalOnTERM c with Some s => Some s | None => signalOnTERM0 end in
      if decide (Command c = "") then
        Err "argument Command must be specified"
      else
        Ok {| args := Args c;
              command := Command c;
              dir := Dir c;
              interval := Interval c;
              listeners := replicate (length (Ports c) + length (Paths c)) None;
              pidFile := PidFile c;
              ports := Ports c;
              paths := Paths c;
              signalOnHUP := signalOnHUP1;
              signalOnTERM := signalOnTERM1;
              statusFile := StatusFile c;
              generation := 0 |}
  end.

(** ** Actions

    What the program does to the system, in the order in which it does
    it:
    - [AOpenPidFile path ok]: [os.OpenFile] on the pid file;
    - [AWritePid path]: the pid written and the file closed;
    - [AListen network address ok]: [net.Listen];
    - [ANotify sigs]: [signal.Notify];
    - [AStart cmd args dir n environ pid]: [cmd.Start()] with [n] extra
      files, under the process environment [environ], which the child
      inherits; [pid] is [None] when the start fails;
    - [AResend sig]: the goroutine that sends [sig] back into [sigCh];
    - [AReap pid]: the goroutine that waits for the process and reports
      its state on the worker channel;
    - [AWait]: [cmd.Wait()] after an attempt that is given up;
    - [ACloseFiles n]: the [n] extra files of the attempt closed;
    - [ASignal pid sig]: [worker.Signal(sig)] on the process found for
      [pid];
    - [ASleep d]: [time.Sleep(d)];
    - [ARemove path]: [os.Remove];
    - [AClose l]: [l.Close()] on a listener. *)
Inductive action : Type :=
| AOpenPidFile (path : string) (ok : bool)
| AWritePid (path : string)
| AListen (network address : string) (ok : bool)
| ANotify (sigs : list Z)
| AStart (cmd : string) (cmd_args : list string) (cmd_dir : string)
    (extra_files : nat) (environ : gmap string string) (pid : option Z)
| AResend (sig : os_Signal)
| AReap (pid : Z)
| AWait
| ACloseFiles (n : nat)
| ASignal (pid : Z) (sig : option os_Signal)
| ASleep (d : Z)
| ARemove (path : string)
| AClose (l : Listener).

#[global] Instance action_eq_dec : EqDecision action.
Proof. solve_decision. Defined.

(** [Close] *)
Definition Close (s : Starter) : list action :=
  (if decide (statusFile s = "") then [] else [ARemove (statusFile s)]) ++
  (if decide (pidFile s = "") then [] else [ARemove (pidFile s)]).

(** The body of the loop of [Teardown]: a nil listener is skipped. *)
Definition close_listener (l : option Listener) : list action :=
  match l with
  | None => []
  | Some l => [AClose l]
  end.

(** [Teardown]; the error it returns is always nil. *)
Definition Teardown (s : Starter) : list action :=
  (if decide (pidFile s = "") then [] else [ARemove (pidFile s)]) ++
  flat_map close_listener (listeners s).

(** A [processState]: its [Pid()] and its [Sys()], which holds a
    [syscall.WaitStatus] or something else. *)
Record processState : Type := MkProcessState {
  ps_Pid : Z;
  ps_Sys : option Z
}.

(** [grabExitStatus] *)
Definition grabExitStatus (st : processState) : Z :=
  match ps_Sys st with
  | Some exitSt => exitSt
  | None => 255
  end.

(** ** [strconv] as the source uses it *)

Inductive num_error : Type := ErrSyntax | ErrRange.

Definition maxUint64 : Z := 2 ^ 64 - 1.

(** [strconv.ParseUint(s, 10, 64)], the loop over the bytes of [s]. *)
Fixpoint ParseUint_loop (cs : list ascii) (n : Z) : Z * option num_error :=
  match cs with
  | [] => (n, None)
  | c :: cs' =>
      let b := Z.of_N (N_of_ascii c) in
      if (48 <=? b) && (b <=? 57) then
        if maxUint64 / 10 + 1 <=? n then (maxUint64, Some ErrRange)
        else
          let n1 := n * 10 + (b - 48) in
          if maxUint64 <? n1 then (maxUint64, Some ErrRange)
          else ParseUint_loop cs' n1
      else (0, Some ErrSyntax)
  end.

Definition ParseUint (cs : list ascii) : Z * option num_error :=
  match cs with
  | [] => (0, Some ErrSyntax)
  | _ => ParseUint_loop cs 0
  end.

(** [strconv.ParseInt(s, 10, 64)]; with bit size 0 the size is that of
    [int], 64 bits. *)
Definition ParseInt (s : string) : Z * option num_error :=
  match list_ascii_of_string s with
  | [] => (0, Some ErrSyntax)
  | c :: cs' =>
      let neg := bool_decide (c = "-"%char) in
      let digits :=
        if bool_decide (c = "+"%char) || neg then cs' else c :: cs' in
      match ParseUint digits with
      | (_, Some ErrSyntax) => (0, Some ErrSyntax)
      | (un, _) =>
          let cutoff := 2 ^ 63 in
          if negb neg && (cutoff <=? un) then (cutoff - 1, Some ErrRange)
          else if neg && (cutoff <? un) then (- cutoff, Some ErrRange)
          else (if neg then - un else un, None)
      end
  end.

(** [strconv.ParseBool] *)
Definition ParseBool (str : string) : bool * option num_error :=
  if bool_decide (str ∈ ["1"; "t"; "T"; "TRUE"; "true"; "True"]) then
    (true, None)
  else if bool_decide (str ∈ ["0"; "f"; "F"; "FALSE"; "false"; "False"]) then
    (false, None)
  else (false, Some ErrSyntax).

(** ** The process environment *)

Definition Getenv (e : gmap string string) (k : string) : string :=
  default "" (e !! k).

(** [os.Setenv] is taken to succeed: the source ignores its error, and
    it fails only on a key or value that the system refuses (a NUL
    byte). *)
Definition Setenv (k v : string) (e : gmap string string) : gmap string string :=
  <[k := v]> e.

(** Signed 64-bit wrap-around. *)
Definition wrap64 (z : Z) : Z := (z + 2 ^ 63) mod 2 ^ 64 - 2 ^ 63.

Definition time_Second : Z := 1000000000.

(** [getKillOldDelay]: both parse errors are ignored. *)
Definition getKillOldDelay (e : gmap string string) : Z :=
  let delay := fst (ParseInt (Getenv e "KILL_OLD_DELAY")) in
  let autoRestart := fst (ParseBool (Getenv e "ENABLE_AUTO_RESTART")) in
  let delay := if autoRestart && (delay =? 0) then 5 else delay in
  wrap64 (delay * time_Second).

(** ** The worker launcher *)

(** What the operating system answers during one pass of the retry loop
    of [StartWorker]. *)
Record attempt : Type := MkAttempt {
  (** whether [File()] fails on the listener at this index *)
  file_err : nat -> bool;
  (** [cmd.Start()]: the pid of the new process, or [None] on error *)
  start : option Z;
  (** the signals read from [sigCh] before the interval timer fires *)
  sigs : list os_Signal;
  (** whether [os.FindProcess(pid)] returns an error after the interval
      (on a Unix system it never does) *)
  find_err : bool;
  (** whether the process has exited by then: a fact of the system that no
      call of [StartWorker] asks for *)
  exited : bool
}.

Definition set_generation (s : Starter) (g : Z) : Starter :=
  {| interval := interval s; signalOnHUP := signalOnHUP s;
     signalOnTERM := signalOnTERM s; statusFile := statusFile s;
     pidFile := pidFile s; dir := dir s; ports := ports s;
     paths := paths s; listeners := listeners s; generation := g;
     command := command s; args := args s |}.

Definition set_listeners (s : Starter) (ls : list (option Listener)) : Starter :=
  {| interval := interval s; signalOnHUP := signalOnHUP s;
     signalOnTERM := signalOnTERM s; statusFile := statusFile s;
     pidFile := pidFile s; dir := dir s; ports := ports s;
     paths := paths s; listeners := ls; generation := generation s;
     command := command s; args := args s |}.

(** [fmt.Sprintf("%s=%d", s.ports[i], i+3)] *)
Definition port_pair (i : nat) (spec : string) : string :=
  spec +:+ "=" +:+ pretty (Z.of_nat i + 3).

(** The loop [for i, l := range s.listeners] of [StartWorker], from index
    [i] on.  [acc] is the slice [ports], created with one empty string per
    entry of [s.ports].  The loop panics ([None]) when the listener is nil
    (the type assertion to a TCP listener, on a nil interface), when
    [File()] fails, and when [i] is not an index of [s.ports]; every
    listener that [Run] stores comes from [net.Listen] on the tcp4 network
    and is a TCP listener. *)
Fixpoint inherit_from (a : attempt) (s_ports : list string)
    (ls : list (option Listener)) (i : nat) (acc : list string)
    : option (list string) :=
  match ls with
  | [] => Some acc
  | None :: _ => None
  | Some _ :: ls' =>
      if file_err a i then None
      else
        match s_ports !! i with
        | None => None
        | Some spec =>
            inherit_from a s_ports ls' (S i) (<[i := port_pair i spec]> acc)
        end
  end.

Definition inherit_files (a : attempt) (s : Starter) : option (list string) :=
  inherit_from a (ports s) (listeners s) 0%nat
    (replicate (length (ports s)) "").

(** A signal that makes [StartWorker] accept the attempt: a
    [syscall.Signal] other than [SIGHUP]. *)
Definition interrupts (sig : os_Signal) : bool :=
  match sig with
  | SyscallSignal sysSig => negb (sysSig =? syscall.SIGHUP)
  | ForeignSignal _ => false
  end.

Inductive sw_outcome : Type :=
| SwReturn (p : option Z)  (** the [*os.Process] returned; [nil] is [None] *)
| SwPanic
| SwRetrying.              (** no answer left: the loop has not returned *)

Record sw_result : Type := MkSw {
  sw_out : sw_outcome;
  sw_starter : Starter;
  sw_env : gmap string string;
  sw_rest : list attempt;
  sw_trace : list action
}.

Definition sw_after (pre : list action) (r : sw_result) : sw_result :=
  {| sw_out := sw_out r; sw_starter := sw_starter r; sw_env := sw_env r;
     sw_rest := sw_rest r; sw_trace := pre ++ sw_trace r |}.

(** [StartWorker].  One element of [ats] is consumed per pass of the
    outer [for].  The [defer f.Close()] of each descriptor, which runs when
    the function is left, is not part of the trace. *)
Fixpoint StartWorker (s : Starter) (e : gmap string string)
    (ats : list attempt) : sw_result :=
  match ats with
  | [] => MkSw SwRetrying s e [] []
  | a :: rest =>
      match inherit_files a s with
      | None => MkSw SwPanic s e rest []
      | Some ports_ =>
          let nfiles := length (ports s) in
          let s1 := set_generation s (generation s + 1) in
          let e1 := Setenv "SERVER_STARTER_PORT" (String.concat ";" ports_) e in
          let e2 := Setenv "SERVER_STARTER_GENERATION" (pretty (generation s1)) e1 in
          let started :=
            AStart (command s) (args s) (dir s) nfiles e2 (start a) in
          match start a with
          | None =>
              sw_after [started; AWait; ACloseFiles nfiles]
                (StartWorker s1 e2 rest)
          | Some pid =>
              let gotSig := existsb interrupts (sigs a) in
              let resent := AResend <$> sigs a in
              if gotSig || negb (find_err a) then
                MkSw (SwReturn (if find_err a then None else Some pid))
                  s1 e2 rest (started :: resent ++ [AReap pid])
              else
                sw_after (started :: resent ++ [AWait; ACloseFiles nfiles])
                  (StartWorker s1 e2 rest)
          end
      end
  end.

(** ** The supervisor loop *)

(** What the operating system and the collaborators of [Run] answer.
    [reloadEnv] is defined outside this file of the repository; only the
    map it returns matters to [setEnv], and it is indexed by the number of
    the call. *)
Record world : Type := MkWorld {
  (** the error of [os.OpenFile] on the pid file, if any *)
  openfile_err : option string;
  (** the error of [net.Listen network address], if any *)
  listen_err : string -> string -> option string;
  (** the map that the n-th call of [reloadEnv] returns *)
  reloadEnv : nat -> gmap string string;
  (** whether [os.FindProcess(pid)] returns an error where the loop and
      the deferred function signal the workers *)
  findprocess_err : Z -> bool
}.

(** [setEnv]: the pairs of the reloaded map are written over the
    environment. *)
Definition setEnv (w : world) (call : nat) (e : gmap string string)
    : gmap string string :=
  if decide (Getenv e "ENVDIR" = "") then e
  else reloadEnv w call ∪ e.

(** An event delivered to the supervisor: a process state on [workerCh]
    or a signal on [sigCh]. *)
Inductive event : Type :=
| WorkerExit (st : processState)
| SignalEvent (sig : os_Signal).

(** The variables of [Run] that its loop and its deferred function
    share. *)
Record loop_state : Type := MkLoop {
  ls_starter : Starter;
  ls_env : gmap string string;
  ls_p : option Z;
  ls_oldWorkers : gmap Z Z;
  ls_sigReceived : option os_Signal;
  ls_sigToSend : option os_Signal
}.

(** [for pid := range m { FindProcess; Signal }]: the iteration order of
    a Go map is unspecified; the trace lists the pids in the order of
    [map_to_list]. *)
Definition signal_workers (w : world) (m : gmap Z Z) (sig : option os_Signal)
    : list action :=
  flat_map
    (fun kv : Z * Z =>
       if findprocess_err w kv.1 then [] else [ASignal kv.1 sig])
    (map_to_list m).

(** The first block of [Run]: the pid file, when one is configured. *)
Definition open_pid_file (w : world) (s : Starter) : option string * list action :=
  if decide (pidFile s = "") then (None, [])
  else
    match openfile_err w with
    | Some err => (Some err, [AOpenPidFile (pidFile s) false])
    | None => (None, [AOpenPidFile (pidFile s) true; AWritePid (pidFile s)])
    end.

Inductive open_outcome : Type :=
| Opened                  (** the loop ran to its end *)
| OpenFailed (err : string)  (** [return err] *)
| OpenPanic.              (** store at an index the slice does not have *)

(** The address that [Run] listens on for a port specifier: a specifier
    that [strconv.ParseInt] accepts is printed back after a colon, any
    other is passed as it is. *)
Definition listen_address (addr : string) : string :=
  match ParseInt addr with
  | (port, None) => ":" +:+ pretty port
  | (_, Some _) => addr
  end.

(** The loop of [Run] over [s.ports], from index [i] on, with the
    listeners stored when it ends. *)
Fixpoint open_ports (w : world) (addrs : list string) (i : nat)
    (ls : list (option Listener))
    : open_outcome * list (option Listener) * list action :=
  match addrs with
  | [] => (Opened, ls, [])
  | addr :: addrs' =>
      let address := listen_address addr in
      match listen_err w "tcp4" address with
      | Some err => (OpenFailed err, ls, [AListen "tcp4" address false])
      | None =>
          if decide (i < length ls)%nat then
            let '(o, ls', tr) :=
              open_ports w addrs' (S i)
                (<[i := Some (MkListener "tcp4" address)]> ls) in
            (o, ls', AListen "tcp4" address true :: tr)
          else (OpenPanic, ls, [AListen "tcp4" address true])
      end
  end.

Inductive step_outcome : Type :=
| Continue      (** next pass of the inner loop *)
| ReturnNil     (** [return nil] *)
| Panicked
| Stuck.        (** [StartWorker] has not returned *)

Definition with_worker (l : loop_state) (r : sw_result) (p : option Z)
    (old : gmap Z Z) : loop_state :=
  {| ls_starter := sw_starter r; ls_env := sw_env r; ls_p := p;
     ls_oldWorkers := old; ls_sigReceived := ls_sigReceived l;
     ls_sigToSend := ls_sigToSend l |}.

Definition with_signals (l : loop_state) (received tosend : option os_Signal)
    : loop_state :=
  {| ls_starter := ls_starter l; ls_env := ls_env l; ls_p := ls_p l;
     ls_oldWorkers := ls_oldWorkers l; ls_sigReceived := received;
     ls_sigToSend := tosend |}.

Definition with_oldWorkers (l : loop_state) (old : gmap Z Z) : loop_state :=
  {| ls_starter := ls_starter l; ls_env := ls_env l; ls_p := ls_p l;
     ls_oldWorkers := old; ls_sigReceived := ls_sigReceived l;
     ls_sigToSend := ls_sigToSend l |}.

(** [p = s.StartWorker(sigCh, workerCh)] inside the loop: when the call
    panics or does not return, [p] keeps its value. *)
Definition assign_worker (l : loop_state) (old : gmap Z Z) (r : sw_result)
    : step_outcome * loop_state :=
  match sw_out r with
  | SwReturn p' => (Continue, with_worker l r p' old)
  | SwPanic => (Panicked, with_worker l r (ls_p l) old)
  | SwRetrying => (Stuck, with_worker l r (ls_p l) old)
  end.

(** The block guarded by
    [restart > 1 || restart > 0 && len(oldWorkers) == 0]. *)
Definition spawn_and_kill (w : world) (l : loop_state) (ats : list attempt)
    : step_outcome * loop_state * list attempt * list action :=
  match ls_p l with
  | None => (Panicked, l, ats, [])
  | Some pid =>
      let old := <[pid := generation (ls_starter l)]> (ls_oldWorkers l) in
      let r := StartWorker (ls_starter l) (ls_env l) ats in
      let '(o, l') := assign_worker l old r in
      match o with
      | Continue =>
          if decide (size old = 0%nat) then (Continue, l', sw_rest r, sw_trace r)
          else
            let killOldDelay := getKillOldDelay (ls_env l') in
            (Continue, l', sw_rest r,
             sw_trace r ++
             (if 0 <? killOldDelay then [ASleep killOldDelay] else []) ++
             signal_workers w old (signalOnHUP (ls_starter l')))
      | _ => (o, l', sw_rest r, sw_trace r)
      end
  end.

(** One pass of the inner loop of [Run], on the event that [select]
    picked. *)
Definition loop_step (w : world) (l : loop_state) (ev : event)
    (ats : list attempt)
    : step_outcome * loop_state * list attempt * list action :=
  match ev with
  | WorkerExit st =>
      match ls_p l with
      | None => (Panicked, l, ats, [])
      | Some pid =>
          if decide (pid = ps_Pid st) then
            let r := StartWorker (ls_starter l) (ls_env l) ats in
            let '(o, l') := assign_worker l (ls_oldWorkers l) r in
            (o, l', sw_rest r, sw_trace r)
          else
            (Continue, with_oldWorkers l (delete (ps_Pid st) (ls_oldWorkers l)),
             ats, [])
      end
  | SignalEvent sig =>
      if decide (sig = SyscallSignal syscall.SIGHUP) then
        let l1 := with_signals l (Some sig) (signalOnHUP (ls_starter l)) in
        let restart := 1 in
        if (1 <? restart) || ((0 <? restart) && bool_decide (size (ls_oldWorkers l1) = 0%nat))
        then spawn_and_kill w l1 ats
        else (Continue, l1, ats, [])
      else if decide (sig = SyscallSignal syscall.SIGTERM) then
        (ReturnNil, with_signals l (Some sig) (signalOnTERM (ls_starter l)), ats, [])
      else
        (ReturnNil,
         with_signals l (Some sig) (Some (SyscallSignal syscall.SIGTERM)), ats, [])
  end.

(** The loop [for len(oldWorkers) > 0 { st := <-workerCh; delete }] of the
    deferred function.  It reads [workerCh] only: a signal in the list of
    events stays unread.  The result is the map and the events that are
    left when the loop ends or, with workers still tracked and no event
    left, when it blocks on the channel. *)
Fixpoint drain (old : gmap Z Z) (evs : list event) : gmap Z Z * list event :=
  if decide (size old = 0%nat) then (old, evs)
  else
    match evs with
    | [] => (old, [])
    | WorkerExit st :: evs' => drain (delete (ps_Pid st) old) evs'
    | SignalEvent _ :: evs' => drain old evs'
    end.

(** The function deferred by [Run] once the first worker is up.  It has
    run to its end when the map it leaves is empty. *)
Definition shutdown_workers (w : world) (l : loop_state) (evs : list event)
    : loop_state * list action :=
  let old :=
    match ls_p l with
    | Some pid => <[pid := generation (ls_starter l)]> (ls_oldWorkers l)
    | None => ls_oldWorkers l
    end in
  (with_oldWorkers l (drain old evs).1, signal_workers w old (ls_sigToSend l)).

(** The inner loop of [Run] over the events, followed by the deferred
    function.  Events that the loop has not read when it ends are left to
    the deferred function. *)
Fixpoint supervise (w : world) (l : loop_state) (evs : list event)
    (ats : list attempt)
    : step_outcome * loop_state * list event * list action :=
  match evs with
  | [] => (Continue, l, [], [])
  | ev :: evs' =>
      let '(o, l', ats', tr) := loop_step w l ev ats in
      match o with
      | Continue =>
          let '(o', l'', rest, tr') := supervise w l' evs' ats' in
          (o', l'', rest, tr ++ tr')
      | _ => (o, l', evs', tr)
      end
  end.

(** How a call of [Run] ends. *)
Inductive run_outcome : Type :=
| RunReturn (err : option string)
| RunPanic
| RunBlocked.  (** waiting on a channel, or retrying a spawn, for ever *)

Record run_result : Type := MkRun {
  run_out : run_outcome;
  run_starter : Starter;
  run_env : gmap string string;
  run_oldWorkers : gmap Z Z;
  run_trace : list action
}.

Definition run_after (pre : list action) (r : run_result) : run_result :=
  {| run_out := run_out r; run_starter := run_starter r; run_env := run_env r;
     run_oldWorkers := run_oldWorkers r; run_trace := pre ++ run_trace r |}.

(** [Run] from the moment the first worker is up: the loop, then the two
    deferred functions.  The loop leaves by [return nil] or by a panic;
    the function deferred last runs first and, when its own loop ends,
    [Teardown] follows. *)
Definition run_loop (w : world) (l : loop_state) (evs : list event)
    (ats : list attempt) : run_result :=
  let '(o, l1, rest, tr) := supervise w l evs ats in
  match o with
  | Continue | Stuck =>
      MkRun RunBlocked (ls_starter l1) (ls_env l1) (ls_oldWorkers l1) tr
  | ReturnNil | Panicked =>
      let '(l2, tr') := shutdown_workers w l1 rest in
      if decide (size (ls_oldWorkers l2) = 0%nat) then
        MkRun (if o is ReturnNil then RunReturn None else RunPanic)
          (ls_starter l2) (ls_env l2) (ls_oldWorkers l2)
          (tr ++ tr' ++ Teardown (ls_starter l2))
      else
        MkRun RunBlocked (ls_starter l2) (ls_env l2) (ls_oldWorkers l2)
          (tr ++ tr')
  end.

(** [Run].  [defer s.Teardown()] comes first, so [Teardown] ends every
    path that returns or panics. *)
Definition Run (s : Starter) (e : gmap string string) (w : world)
    (ats : list attempt) (evs : list event) : run_result :=
  match open_pid_file w s with
  | (Some err, tr0) => MkRun (RunReturn (Some err)) s e ∅ (tr0 ++ Teardown s)
  | (None, tr0) =>
      let '(opened, ls, tr1) := open_ports w (ports s) 0%nat (listeners s) in
      let s1 := set_listeners s ls in
      match opened with
      | OpenPanic => MkRun RunPanic s1 e ∅ (tr0 ++ tr1 ++ Teardown s1)
      | OpenFailed err =>
          MkRun (RunReturn (Some err)) s1 e ∅ (tr0 ++ tr1 ++ Teardown s1)
      | Opened =>
          let s2 := set_generation s1 0 in
          let e1 := Setenv "SERVER_STARTER_GENERATION" (pretty (generation s2)) e in
          let notify :=
            ANotify [syscall.SIGHUP; syscall.SIGINT; syscall.SIGTERM;
                     syscall.SIGQUIT] in
          let e2 := setEnv w 0 e1 in
          let r := StartWorker s2 e2 ats in
          let pre := tr0 ++ tr1 ++ notify :: sw_trace r in
          match sw_out r with
          | SwPanic =>
              MkRun RunPanic (sw_starter r) (sw_env r) ∅
                (pre ++ Teardown (sw_starter r))
          | SwRetrying => MkRun RunBlocked (sw_starter r) (sw_env r) ∅ pre
          | SwReturn p =>
              let l0 :=
                MkLoop (sw_starter r) (setEnv w 1 (sw_env r)) p ∅ None None in
              run_after pre (run_loop w l0 evs (sw_rest r))
          end
      end
  end.

(** ** Sample data

    Concrete configurations, oracles and loop states on which the
    theorems below are evaluated. *)

(** Every system call succeeds, nothing is reloaded, every process is
    found. *)
Definition quiet_world : world :=
  MkWorld None (fun _ _ => None) (fun _ => ∅) (fun _ => false).

(** The process was started and runs on, no signal arrived, the process
    is found. *)
Definition attempt_alive (pid : Z) : attempt :=
  MkAttempt (fun _ => false) (Some pid) [] false false.

(** The process was started and exited during the interval, only the
    signals [sigs] arrived, and [os.FindProcess] reports an error. *)
Definition attempt_lost (pid : Z) (sigs : list os_Signal) : attempt :=
  MkAttempt (fun _ => false) (Some pid) sigs true true.

(** The process was started and exited during the interval, no signal
    arrived, and [os.FindProcess] reports no error: on Unix systems it
    succeeds for every pid, whether the process exists or not. *)
Definition attempt_dead_unix (pid : Z) : attempt :=
  MkAttempt (fun _ => false) (Some pid) [] false true.

(** [cmd.Start] fails. *)
Definition attempt_noexec : attempt :=
  MkAttempt (fun _ => false) None [] false false.

Definition config_ports : Config :=
  MkConfig [] "srv" "" 1000000000 "/tmp/pid" ["8080"; "127.0.0.1:9090"] []
    None None "/tmp/status".

Definition config_paths : Config :=
  MkConfig [] "srv" "" 1000000000 "/tmp/pid" ["8080"] ["/tmp/app.sock"]
    None None "/tmp/status".

Definition starter_of (c : Config) : Starter :=
  match NewStarter (Some c) with
  | Ok s => s
  | Err _ => MkStarter 0 None None "" "" "" [] [] [] 0 "" []
  end.

Definition exit_of (pid : Z) : event := WorkerExit (MkProcessState pid (Some 0)).

Definition HUP : os_Signal := SyscallSignal syscall.SIGHUP.
Definition TERM : os_Signal := SyscallSignal syscall.SIGTERM.
Definition INT : os_Signal := SyscallSignal syscall.SIGINT.
Definition QUIT : os_Signal := SyscallSignal syscall.SIGQUIT.

(** The [Starter] of [config_ports] once [Run] has opened its
    listeners. *)
Definition starter_bound : Starter :=
  set_listeners (starter_of config_ports)
    [Some (MkListener "tcp4" ":8080");
     Some (MkListener "tcp4" "127.0.0.1:9090")].

(** A running supervisor: worker 11 of generation 2 is current, no old
    worker. *)
Definition loop_fresh : loop_state :=
  MkLoop (set_generation starter_bound 2) ∅ (Some 11) ∅ None None.

(** Worker 12 of generation 3 is current, worker 11 of generation 2 is
    still draining. *)
Definition loop_draining : loop_state :=
  MkLoop (set_generation starter_bound 3) ∅ (Some 12) {[ 11 := 2 ]} None None.

(** ** Vocabulary of the statements *)

(** [s'] is [s] up to the generation counter. *)
Definition same_config (s s' : Starter) : Prop :=
  s' = set_generation s (generation s').

(** The pids that the supervisor tracks: the old workers and the current
    one. *)
Definition tracked (l : loop_state) : gset Z :=
  dom (ls_oldWorkers l) ∪
  match ls_p l with Some pid => {[ pid ]} | None => ∅ end.

(** An exit event for [pid] is among [evs]. *)
Definition exit_seen (evs : list event) (pid : Z) : Prop :=
  exists st, WorkerExit st ∈ evs /\ ps_Pid st = pid.

(** The signal that the deferred function sends after [sig] ended the
    loop. *)
Definition shutdown_signal (s : Starter) (sig : os_Signal) : option os_Signal :=
  if decide (sig = TERM) then signalOnTERM s else Some TERM.

(** The worker map of the deferred function, once the current worker is
    entered in it. *)
Definition demoted (l : loop_state) : gmap Z Z :=
  match ls_p l with
  | Some pid => <[pid := generation (ls_starter l)]> (ls_oldWorkers l)
  | None => ls_oldWorkers l
  end.

(** The value of [SERVER_STARTER_GENERATION] in the environment of each
    [cmd.Start()] of a trace, in order: what each spawned process, or
    failed spawn, was given as its generation. *)
Definition start_gen (a : action) : option string :=
  match a with
  | AStart _ _ _ _ environ _ => Some (Getenv environ "SERVER_STARTER_GENERATION")
  | _ => None
  end.

Definition start_gens (tr : list action) : list string := omap start_gen tr.

(** The decimal numbers [g+1], ..., [g+n]. *)
Definition counted (g : Z) (n : nat) : list string :=
  (fun k : nat => pretty (g + Z.of_nat k)) <$> seq 1 n.

(** The trace [tr] takes the counter from [g] to [g']: its spawns export
    the numbers in between, one each. *)
Definition advances (g : Z) (tr : list action) (g' : Z) : Prop :=
  exists n : nat, start_gens tr = counted g n /\ g' = g + Z.of_nat n.

(** [Run] has registered for its signals: the listeners are open and the
    counter has been reset. *)
Definition launched (tr : list action) : Prop :=
  exists sigs, ANotify sigs ∈ tr.

(** An action other than a call of [net.Listen]. *)
Definition not_listen (a : action) : Prop :=
  match a with
  | AListen _ _ _ => False
  | _ => True
  end.

(** ** Vocabulary of the further statements *)

(** The environment of a [cmd.Start()]. *)
Definition start_env (a : action) : option (gmap string string) :=
  match a with
  | AStart _ _ _ _ environ _ => Some environ
  | _ => None
  end.

(** The pid of a [cmd.Start()] that succeeded. *)
Definition started_pid (a : action) : option Z :=
  match a with
  | AStart _ _ _ _ _ (Some pid) => Some pid
  | _ => None
  end.

(** The pid of a reaper. *)
Definition reaped_pid (a : action) : option Z :=
  match a with
  | AReap pid => Some pid
  | _ => None
  end.

(** The signal of a resend. *)
Definition resent_sig (a : action) : option os_Signal :=
  match a with
  | AResend sig => Some sig
  | _ => None
  end.

(** A [cmd.Wait()] of an attempt given up. *)
Definition given_up_wait (a : action) : option unit :=
  match a with
  | AWait => Some ()
  | _ => None
  end.

(** A release of the extra files of an attempt given up. *)
Definition given_up_close (a : action) : option unit :=
  match a with
  | ACloseFiles _ => Some ()
  | _ => None
  end.

(** An attempt that [StartWorker] gives up: the start fails, or the
    process is not found after an interval without a signal other than
    HUP. *)
Definition given_up (a : attempt) : Prop :=
  start a = None \/ (find_err a = true /\ existsb interrupts (sigs a) = false).

(** The variables that [StartWorker] exports. *)
Definition handoff_key (k : string) : Prop :=
  k = "SERVER_STARTER_PORT" \/ k = "SERVER_STARTER_GENERATION".

(** The actions of [StartWorker]. *)
Definition launcher_action (a : action) : Prop :=
  match a with
  | AStart _ _ _ _ _ _ | AResend _ | AReap _ | AWait | ACloseFiles _ => True
  | _ => False
  end.

(** An action that gives up a resource of the supervisor: a file removed
    or a listener closed. *)
Definition releases (a : action) : Prop :=
  match a with
  | ARemove _ | AClose _ => True
  | _ => False
  end.

(** The signals read during the intervals of the attempts whose process
    was started. *)
Definition heard (ats : list attempt) : list os_Signal :=
  flat_map (fun a => if start a is Some _ then sigs a else []) ats.

(** The trace holds a successful [cmd.Start()] of the process [pid]. *)
Definition started_in (tr : list action) (pid : Z) : Prop :=
  exists a, a ∈ tr /\ started_pid a = Some pid.

(** What ends a run: [Teardown], deferred first and so run last, on every
    path that returns or panics; nothing while the run is blocked. *)
Definition run_end (r : run_result) : list action :=
  match run_out r with
  | RunBlocked => []
  | _ => Teardown (run_starter r)
  end.

(** What a [cmd.Start()] hands down to the process: the command line of
    the [Starter], one extra file per port, and the list of the pairs
    [spec=3+i] in [SERVER_STARTER_PORT]. *)
Definition hands_down (s : Starter) (a : action) : Prop :=
  match a with
  | AStart cmd cmd_args cmd_dir n environ _ =>
      cmd = command s /\ cmd_args = args s /\ cmd_dir = dir s /\
      n = length (ports s) /\
      Getenv environ "SERVER_STARTER_PORT" =
        String.concat ";" (imap port_pair (ports s))
  | _ => True
  end.

(** The environment of a [cmd.Start()] is [e] up to the two variables
    that [StartWorker] exports. *)
Definition inherits_env (e : gmap string string) (a : action) : Prop :=
  forall environ k,
    start_env a = Some environ -> ~ handoff_key k -> environ !! k = e !! k.

(** The trace holds a successful [cmd.Start()] of the process [pid] and
    the start of its reaper. *)
Definition supervised (tr : list action) (pid : Z) : Prop :=
  started_in tr pid /\ AReap pid ∈ tr.

(** The listener that a successful [net.Listen] returns. *)
Definition opened_listener (a : action) : option Listener :=
  match a with
  | AListen network address true => Some (MkListener network address)
  | _ => None
  end.

(** The listener that a [Close()] releases. *)
Definition closed_listener (a : action) : option Listener :=
  match a with
  | AClose l => Some l
  | _ => None
  end.

(** What a Unix system answers during an attempt: [File()] gives a
    descriptor for every listener and [os.FindProcess] reports no
    error. *)
Definition unix_attempt (a : attempt) : Prop :=
  (forall i, file_err a i = false) /\ find_err a = false.

(** A [Starter] whose ports are bound: one listener per port, none
    nil. *)
Definition bound (s : Starter) : Prop :=
  length (listeners s) = length (ports s) /\ None ∉ listeners s.

(** * Properties *)

(** ** The signal name table *)

Lemma niceNameToSigs_nil : niceNameToSigs pkg = ∅.
Proof. reflexivity. Qed.

Lemma signame_entries (sig : Z) (name : string) :
  (sig, name) ∈ sig_name_entries ->
  signame pkg (Some (SyscallSignal sig)) = name.
Proof.
  unfold sig_name_entries. intros H.
  repeat (apply elem_of_cons in H as [H | H];
          [ injection H as -> ->; vm_compute; reflexivity | ]).
  by apply elem_of_nil in H.
Qed.

(** The map that [init] fills, and then drops, does send TERM to
    [SIGTERM]. *)
Lemma invert_names_TERM :
  invert_names (niceSigNames pkg) !! "TERM" = Some syscall.SIGTERM.
Proof. vm_compute. reflexivity. Qed.

(** C7: the forward half of the table holds, [signame] returns the name
    of every signal listed in [init]; the backward half does not:
    [SigFromName] returns nil for every name, TERM included, because
    [init] fills a map of its own and leaves the package-level
    [niceNameToSigs] nil. *)
Theorem SigFromName_returns_nil :
  SigFromName pkg "TERM" = None /\
  (forall n : string, SigFromName pkg n = None) /\
  (forall (sig : Z) (name : string),
      (sig, name) ∈ sig_name_entries ->
      signame pkg (Some (SyscallSignal sig)) = name /\
      SigFromName pkg name = None).
Proof.
  assert (Hnil : forall n : string, SigFromName pkg n = None).
  { intros n. unfold SigFromName. rewrite niceNameToSigs_nil.
    by rewrite lookup_empty. }
  split; [apply Hnil | split; [exact Hnil |]].
  intros sig name Hin. split; [by apply signame_entries | apply Hnil].
Qed.

(** ** [NewStarter] *)

Example NewStarter_examples :
  NewStarter None = Err "config argument must be non-nil" /\
  NewStarter (Some (MkConfig [] "" "" 0 "" ["8080"] [] None None "")) =
    Err "argument Command must be specified" /\
  NewStarter (Some (MkConfig ["-v"] "srv" "" 0 "" [] [] None (Some HUP) "")) =
    Ok (MkStarter 0 (Some TERM) (Some HUP) "" "" "" [] [] [] 0 "srv" ["-v"]).
Proof. repeat split. Qed.

(** C10: [NewStarter] fails exactly on a nil configuration and on an
    empty command; any other configuration, with or without ports and
    paths, gives a [Starter] that copies it, where a nil signal is
    replaced by [SIGTERM]. *)
Theorem NewStarter_spec (c : option Config) :
  ((exists msg, NewStarter c = Err msg) <->
   (c = None \/ exists c', c = Some c' /\ Command c' = "")) /\
  (forall c', c = Some c' -> Command c' <> "" ->
     exists s, NewStarter c = Ok s /\
       signalOnHUP s =
         Some (default (SyscallSignal syscall.SIGTERM) (SignalOnHUP c')) /\
       signalOnTERM s =
         Some (default (SyscallSignal syscall.SIGTERM) (SignalOnTERM c')) /\
       command s = Command c' /\ args s = Args c' /\ dir s = Dir c' /\
       interval s = Interval c' /\ pidFile s = PidFile c' /\
       statusFile s = StatusFile c' /\
       ports s = Ports c' /\ paths s = Paths c' /\
       listeners s = replicate (length (Ports c') + length (Paths c')) None /\
       generation s = 0).
Proof.
  split.
  - split.
    + intros [msg H]. destruct c as [c' |]; [right | by left].
      exists c'. split; [done |]. unfold NewStarter in H.
      by destruct (decide (Command c' = "")).
    + intros [-> | (c' & -> & Hc)]; simpl.
      * by eexists.
      * rewrite decide_True by done. by eexists.
  - intros c' -> Hc. unfold NewStarter. rewrite decide_False by done.
    eexists. split; [reflexivity |]. simpl.
    by destruct (SignalOnHUP c'), (SignalOnTERM c').
Qed.

(** ** [strconv] against the decimal printer

    [fmt.Sprintf("%d", n)] is [pretty n]; [strconv.ParseInt] reads back
    what it prints, and reads nothing that holds a colon. *)

Lemma pretty_N_char_digit (d : N) :
  (d < 10)%N -> Z.of_N (N_of_ascii (pretty_N_char d)) = 48 + Z.of_N d.
Proof.
  intros H.
  assert (d = 0 \/ d = 1 \/ d = 2 \/ d = 3 \/ d = 4 \/ d = 5 \/ d = 6 \/
          d = 7 \/ d = 8 \/ d = 9)%N as Hd by lia.
  repeat (destruct Hd as [-> | Hd]; [reflexivity |]). by subst d.
Qed.

Lemma ParseUint_loop_digit (d : N) (cs : list ascii) (n : Z) :
  (d < 10)%N -> 0 <= n -> n * 10 + Z.of_N d <= maxUint64 ->
  ParseUint_loop (pretty_N_char d :: cs) n =
  ParseUint_loop cs (n * 10 + Z.of_N d).
Proof.
  intros Hd Hn Hmax. simpl. rewrite (pretty_N_char_digit d Hd).
  unfold maxUint64 in *.
  replace ((48 <=? 48 + Z.of_N d) && (48 + Z.of_N d <=? 57)) with true
    by (symmetry; apply andb_true_iff; split; apply Z.leb_le; lia).
  replace ((2 ^ 64 - 1) / 10 + 1 <=? n) with false
    by (symmetry; apply Z.leb_gt; change ((2 ^ 64 - 1) / 10 + 1) with 1844674407370955162; lia).
  replace (2 ^ 64 - 1 <? n * 10 + (48 + Z.of_N d - 48)) with false
    by (symmetry; apply Z.ltb_ge; lia).
  f_equal. lia.
Qed.

(** The loop of [strconv.ParseUint] over the digits that the printer
    puts in front of [s]. *)
Lemma ParseUint_loop_pretty (x : N) :
  forall s : string, exists k : Z,
    0 <= k /\
    forall n : Z, 0 <= n -> n * 10 ^ k + Z.of_N x <= maxUint64 ->
      ParseUint_loop (list_ascii_of_string (pretty_N_go x s)) n =
      ParseUint_loop (list_ascii_of_string s) (n * 10 ^ k + Z.of_N x).
Proof.
  induction (N.lt_wf_0 x) as [x _ IH]; intros s.
  assert (x = 0 \/ 0 < x)%N as [-> | Hx] by lia.
  - exists 0. split; [done |]. intros n Hn _. rewrite pretty_N_go_0.
    f_equal. simpl. lia.
  - rewrite pretty_N_go_step by done.
    destruct (IH (x `div` 10)%N (N.div_lt x 10 Hx eq_refl)
                (String (pretty_N_char (x `mod` 10)) s)) as (k & Hk & Hrec).
    exists (k + 1). split; [lia |]. intros n Hn Hmax.
    assert (Hdm : Z.of_N x = 10 * Z.of_N (x `div` 10) + Z.of_N (x `mod` 10)).
    { rewrite (N.div_mod x 10) at 1 by done. lia. }
    assert (Hmod : (x `mod` 10 < 10)%N) by (by apply N.mod_lt).
    rewrite Z.pow_add_r, Z.pow_1_r in * by lia.
    assert (0 <= n * 10 ^ k)
      by (apply Z.mul_nonneg_nonneg; [done | by apply Z.pow_nonneg]).
    replace (n * (10 ^ k * 10)) with (n * 10 ^ k * 10) in * by ring.
    remember (n * 10 ^ k) as m eqn:Hm.
    remember (Z.of_N (x `div` 10)) as q eqn:Hq.
    remember (Z.of_N (x `mod` 10)) as r eqn:Hr.
    assert (0 <= q /\ 0 <= r) as [Hq0 Hr0]
      by (subst q r; split; apply N2Z.is_nonneg).
    assert (Hside : m + q <= maxUint64) by (clear - Hmax Hdm H Hq0 Hr0; lia).
    rewrite Hrec; [| done | by rewrite <- Hm]. rewrite <- Hm.
    simpl list_ascii_of_string.
    rewrite ParseUint_loop_digit; [| done | lia | rewrite <- Hr; clear - Hmax Hdm H Hq0 Hr0; lia].
    f_equal. rewrite <- Hr. clear - Hdm. lia.
Qed.

Lemma ParseUint_pretty_N (x : N) :
  (0 < x)%N -> Z.of_N x <= maxUint64 ->
  ParseUint (list_ascii_of_string (pretty_N_go x "")) = (Z.of_N x, None) /\
  exists c cs, list_ascii_of_string (pretty_N_go x "") = c :: cs /\
               c <> "-"%char /\ c <> "+"%char.
Proof.
  intros Hx Hmax.
  destruct (ParseUint_loop_pretty x "") as (k & Hk & Hrec).
  specialize (Hrec 0 ltac:(done) ltac:(by rewrite Z.mul_0_l, Z.add_0_l)).
  rewrite Z.mul_0_l, Z.add_0_l in Hrec. simpl in Hrec.
  destruct (list_ascii_of_string (pretty_N_go x "")) as [| c cs] eqn:Hcs.
  - simpl in Hrec. injection Hrec as Hrec. lia.
  - split; [done |]. exists c, cs. split; [done |].
    simpl in Hrec.
    destruct ((48 <=? Z.of_N (N_of_ascii c)) && (Z.of_N (N_of_ascii c) <=? 57))
      eqn:Hdig; [| done].
    split; intros ->; discriminate.
Qed.

(** A 64-bit integer written in decimal parses as itself. *)
Lemma ParseInt_pretty (d : Z) :
  - 2 ^ 63 <= d < 2 ^ 63 -> ParseInt (pretty d) = (d, None).
Proof.
  intros Hd. destruct d as [| p | p].
  - reflexivity.
  - change (pretty (Z.pos p)) with (pretty (N.pos p)).
    unfold pretty, pretty_N. rewrite decide_False by done.
    destruct (ParseUint_pretty_N (N.pos p)) as (Hparse & c & cs & Hcs & Hm & Hp);
      [done | unfold maxUint64; lia |].
    unfold ParseInt. rewrite Hcs.
    rewrite !bool_decide_eq_false_2 by done. simpl orb. cbv iota.
    rewrite <- Hcs, Hparse. simpl negb. cbv iota.
    destruct (2 ^ 63 <=? _) eqn:Hle; [apply Z.leb_le in Hle; lia | reflexivity].
  - change (pretty (Z.neg p)) with ("-" +:+ pretty (N.pos p)).
    unfold pretty, pretty_N. rewrite decide_False by done.
    destruct (ParseUint_pretty_N (N.pos p)) as (Hparse & _);
      [done | unfold maxUint64; lia |].
    unfold ParseInt. simpl list_ascii_of_string.
    change ("" +:+ pretty_N_go (N.pos p) "") with (pretty_N_go (N.pos p) "").
    cbv beta iota.
    rewrite (bool_decide_eq_true_2 ("-"%char = "-"%char)) by done.
    rewrite orb_true_r, Hparse. simpl negb. simpl andb.
    destruct (2 ^ 63 <? _) eqn:Hlt; [apply Z.ltb_lt in Hlt; lia | reflexivity].
Qed.

Lemma ParseUint_loop_range (cs : list ascii) :
  forall n v, ParseUint_loop cs n = (v, Some ErrRange) -> v = maxUint64.
Proof.
  induction cs as [| c cs IH]; intros n v; simpl; [done |].
  repeat case_match; try done; try (by intros [= <-]). apply IH.
Qed.

Lemma ParseUint_loop_digits (cs : list ascii) :
  forall n v, ParseUint_loop cs n = (v, None) ->
    forall c, c ∈ cs -> 48 <= Z.of_N (N_of_ascii c) <= 57.
Proof.
  induction cs as [| c cs IH]; intros n v H c' Hin.
  - by apply elem_of_nil in Hin.
  - simpl in H.
    destruct ((48 <=? Z.of_N (N_of_ascii c)) && (Z.of_N (N_of_ascii c) <=? 57))
      eqn:Hdig; [| done].
    apply elem_of_cons in Hin as [-> | Hin].
    + apply andb_true_iff in Hdig as [?%Z.leb_le ?%Z.leb_le]. lia.
    + repeat case_match; try done. by eapply IH.
Qed.

(** A string that [strconv.ParseInt] accepts is made of decimal digits
    after an optional sign. *)
Lemma ParseInt_digits (s : string) (v : Z) :
  ParseInt s = (v, None) ->
  exists c cs, list_ascii_of_string s = c :: cs /\
    (c = "-"%char \/ c = "+"%char \/ 48 <= Z.of_N (N_of_ascii c) <= 57) /\
    forall c', c' ∈ cs -> 48 <= Z.of_N (N_of_ascii c') <= 57.
Proof.
  unfold ParseInt. destruct (list_ascii_of_string s) as [| c cs]; [done |].
  intros H. exists c, cs. split; [done |].
  destruct (ParseUint _) as [un [[] |]] eqn:Hun; [done | |].
  - exfalso. assert (un = maxUint64) as ->.
    { unfold ParseUint in Hun.
      destruct (if bool_decide (c = "+"%char) || bool_decide (c = "-"%char)
                then cs else c :: cs); [done |].
      by eapply ParseUint_loop_range. }
    unfold maxUint64 in H.
    destruct (bool_decide (c = "-"%char)); simpl in H; done.
  - clear H. unfold ParseUint in Hun.
    destruct (bool_decide (c = "+"%char) || bool_decide (c = "-"%char)) eqn:Hsign.
    + split.
      * apply orb_true_iff in Hsign as [?%bool_decide_eq_true | ?%bool_decide_eq_true];
          auto.
      * destruct cs as [| c1 cs1]; [done |]. by eapply ParseUint_loop_digits.
    + pose proof (ParseUint_loop_digits _ _ _ Hun) as Hd. split.
      * right. right. apply Hd. by left.
      * intros c' Hc'. apply Hd. by right.
Qed.

(** A specifier that holds a colon is listened on as it is. *)
Lemma listen_address_colon (addr : string) :
  ":"%char ∈ list_ascii_of_string addr -> listen_address addr = addr.
Proof.
  intros Hin. unfold listen_address.
  destruct (ParseInt addr) as [v [err |]] eqn:H; [done |]. exfalso.
  destruct (ParseInt_digits _ _ H) as (c & cs & Hcs & Hc & Hall).
  rewrite Hcs in Hin. apply elem_of_cons in Hin as [<- | Hin].
  - destruct Hc as [Hc | [Hc | Hc]]; [done | done | simpl in Hc; lia].
  - apply Hall in Hin. simpl in Hin. lia.
Qed.

(** ** [getKillOldDelay] *)

Lemma wrap64_small (z : Z) : - 2 ^ 63 <= z < 2 ^ 63 -> wrap64 z = z.
Proof. intros H. unfold wrap64. rewrite Z.mod_small by lia. lia. Qed.

Lemma ParseInt_syntax_zero (v : string) :
  (ParseInt v).2 = Some ErrSyntax -> (ParseInt v).1 = 0.
Proof.
  unfold ParseInt. destruct (list_ascii_of_string v) as [| c cs]; [done |].
  destruct (ParseUint _) as [un [[] |]]; simpl;
    repeat case_match; simpl; congruence.
Qed.

Lemma Getenv_unset (e : gmap string string) (k : string) :
  e !! k = None -> Getenv e k = "".
Proof. intros H. unfold Getenv. by rewrite H. Qed.

(** The value that [getKillOldDelay] multiplies by a second. *)
Lemma getKillOldDelay_unfold (e : gmap string string) :
  getKillOldDelay e =
  wrap64
    ((if (ParseBool (Getenv e "ENABLE_AUTO_RESTART")).1 &&
          ((ParseInt (Getenv e "KILL_OLD_DELAY")).1 =? 0)
      then 5 else (ParseInt (Getenv e "KILL_OLD_DELAY")).1) * time_Second).
Proof. reflexivity. Qed.

Example getKillOldDelay_examples :
  getKillOldDelay (<["KILL_OLD_DELAY" := "3"]> ∅) = 3 * time_Second /\
  getKillOldDelay ∅ = 0 /\
  getKillOldDelay (<["KILL_OLD_DELAY" := "soon"]> ∅) = 0 /\
  getKillOldDelay (<["ENABLE_AUTO_RESTART" := "1"]> ∅) = 5 * time_Second /\
  getKillOldDelay
    (<["KILL_OLD_DELAY" := "7"]> (<["ENABLE_AUTO_RESTART" := "1"]> ∅))
  = 7 * time_Second.
Proof. repeat split; vm_compute; reflexivity. Qed.

(** C8, against the claim as stated: with [KILL_OLD_DELAY] set to 0 and
    auto restart on, the delay is 5 seconds although the variable is set
    and not positive; and a negative [KILL_OLD_DELAY] comes back as a
    negative duration, not as 0. *)
Lemma getKillOldDelay_not_zero :
  getKillOldDelay
    (<["KILL_OLD_DELAY" := "0"]> (<["ENABLE_AUTO_RESTART" := "true"]> ∅))
  = 5 * time_Second /\
  getKillOldDelay (<["KILL_OLD_DELAY" := "-3"]> ∅) = -3 * time_Second.
Proof. split; vm_compute; reflexivity. Qed.

(** C8: [getKillOldDelay] returns [KILL_OLD_DELAY] seconds when the
    variable parses as a non-zero integer whose nanosecond count fits 64
    bits (a positive one written in decimal in particular; a negative one
    comes back negative); when the variable is unset, is not a number or
    is zero, it returns 5 seconds if [ENABLE_AUTO_RESTART] parses as true
    and 0 otherwise. *)
Theorem getKillOldDelay_spec (e : gmap string string) :
  let v := Getenv e "KILL_OLD_DELAY" in
  let autoRestart := (ParseBool (Getenv e "ENABLE_AUTO_RESTART")).1 in
  (forall d : Z,
      ParseInt v = (d, None) -> d <> 0 ->
      - 9223372036 <= d <= 9223372036 ->
      getKillOldDelay e = d * time_Second) /\
  (forall d : Z,
      v = pretty d -> 0 < d <= 9223372036 ->
      getKillOldDelay e = d * time_Second) /\
  (e !! "KILL_OLD_DELAY" = None \/ (ParseInt v).2 = Some ErrSyntax \/
   ParseInt v = (0, None) ->
   getKillOldDelay e = if autoRestart then 5 * time_Second else 0).
Proof.
  intros v autoRestart.
  assert (Hint : forall d : Z,
    ParseInt v = (d, None) -> d <> 0 ->
    - 9223372036 <= d <= 9223372036 ->
    getKillOldDelay e = d * time_Second).
  { intros d Hd Hnz Hr. rewrite getKillOldDelay_unfold. fold v. rewrite Hd.
    simpl. replace (d =? 0) with false by (symmetry; by apply Z.eqb_neq).
    rewrite andb_false_r. apply wrap64_small. unfold time_Second. lia. }
  split; [exact Hint | split].
  - intros d Hv Hd. apply Hint; [| lia | lia].
    rewrite Hv. apply ParseInt_pretty. lia.
  - intros H. assert (Hz : (ParseInt v).1 = 0).
    { destruct H as [H | [H | H]].
      - subst v. by rewrite (Getenv_unset _ _ H).
      - by apply ParseInt_syntax_zero.
      - by rewrite H. }
    rewrite getKillOldDelay_unfold. fold v autoRestart. rewrite Hz.
    simpl. rewrite andb_true_r. destruct autoRestart; reflexivity.
Qed.

(** ** [Teardown] *)

Lemma set_generation_same (s : Starter) : set_generation s (generation s) = s.
Proof. by destruct s. Qed.

Lemma set_generation_twice (s : Starter) (g g' : Z) :
  set_generation (set_generation s g) g' = set_generation s g'.
Proof. reflexivity. Qed.

(** [StartWorker] changes the generation counter of the [Starter] and
    nothing else. *)
Lemma StartWorker_frame (ats : list attempt) :
  forall (s : Starter) (e : gmap string string),
    sw_starter (StartWorker s e ats) =
    set_generation s (generation (sw_starter (StartWorker s e ats))).
Proof.
  induction ats as [| a rest IH]; intros s e; simpl.
  - by rewrite set_generation_same.
  - destruct (inherit_files a s); simpl; [| by rewrite set_generation_same].
    destruct (start a) as [pid |]; simpl.
    + destruct (existsb interrupts (sigs a) || negb (find_err a)); simpl;
        [done |]. rewrite IH at 1. apply set_generation_twice.
    + rewrite IH at 1. apply set_generation_twice.
Qed.

Lemma same_config_refl (s : Starter) : same_config s s.
Proof. unfold same_config. by rewrite set_generation_same. Qed.

Lemma same_config_trans (s1 s2 s3 : Starter) :
  same_config s1 s2 -> same_config s2 s3 -> same_config s1 s3.
Proof. unfold same_config. intros H12 H23. rewrite H23 at 1. by rewrite H12. Qed.

Lemma same_config_files (s s' : Starter) :
  same_config s s' ->
  pidFile s' = pidFile s /\ statusFile s' = statusFile s /\
  listeners s' = listeners s /\ ports s' = ports s /\
  signalOnHUP s' = signalOnHUP s /\ signalOnTERM s' = signalOnTERM s.
Proof. intros ->. by repeat split. Qed.

Lemma assign_worker_starter (l : loop_state) (old : gmap Z Z) (r : sw_result) :
  ls_starter (assign_worker l old r).2 = sw_starter r.
Proof. unfold assign_worker. by destruct (sw_out r). Qed.

Lemma spawn_and_kill_frame (w : world) (l : loop_state) (ats : list attempt) :
  same_config (ls_starter l) (ls_starter (spawn_and_kill w l ats).1.1.2).
Proof.
  unfold spawn_and_kill. destruct (ls_p l) as [pid |]; simpl;
    [| apply same_config_refl].
  pose proof (assign_worker_starter l
    (<[pid := generation (ls_starter l)]> (ls_oldWorkers l))
    (StartWorker (ls_starter l) (ls_env l) ats)) as H.
  destruct (assign_worker _ _ _) as [o l']. simpl in H.
  assert (same_config (ls_starter l) (ls_starter l')) as Hs.
  { rewrite H. apply StartWorker_frame. }
  destruct o; simpl; try done. by case_decide.
Qed.

Lemma loop_step_frame (w : world) (l : loop_state) (ev : event)
    (ats : list attempt) :
  same_config (ls_starter l) (ls_starter (loop_step w l ev ats).1.1.2).
Proof.
  destruct ev as [st | sig]; simpl.
  - destruct (ls_p l) as [pid |]; simpl; [| apply same_config_refl].
    case_decide; simpl; [| apply same_config_refl].
    pose proof (assign_worker_starter l (ls_oldWorkers l)
      (StartWorker (ls_starter l) (ls_env l) ats)) as Hs.
    destruct (assign_worker _ _ _) as [o l']. simpl in *. rewrite Hs.
    apply StartWorker_frame.
  - repeat case_decide; simpl; try apply same_config_refl.
    apply (spawn_and_kill_frame w
      (with_signals l (Some sig) (signalOnHUP (ls_starter l))) ats).
Qed.

Lemma supervise_frame (w : world) (evs : list event) :
  forall (l : loop_state) (ats : list attempt),
    same_config (ls_starter l) (ls_starter (supervise w l evs ats).1.1.2).
Proof.
  induction evs as [| ev evs IH]; intros l ats; simpl;
    [apply same_config_refl |].
  pose proof (loop_step_frame w l ev ats) as H.
  destruct (loop_step w l ev ats) as [[[o l'] ats'] tr]. simpl in H.
  destruct o; simpl; try done.
  specialize (IH l' ats').
  destruct (supervise w l' evs ats') as [[[o' l''] rest] tr']. simpl in *.
  by eapply same_config_trans.
Qed.

Lemma run_loop_frame (w : world) (l : loop_state) (evs : list event)
    (ats : list attempt) :
  same_config (ls_starter l) (run_starter (run_loop w l evs ats)).
Proof.
  unfold run_loop. pose proof (supervise_frame w evs l ats) as H.
  destruct (supervise w l evs ats) as [[[o l1] rest] tr]. simpl in H.
  destruct o; simpl; try done; by case_decide.
Qed.

(** Whenever the loop of [Run] is left, [Teardown] ends the trace. *)
Lemma run_loop_teardown (w : world) (l : loop_state) (evs : list event)
    (ats : list attempt) :
  run_out (run_loop w l evs ats) <> RunBlocked ->
  exists pre,
    run_trace (run_loop w l evs ats) =
    pre ++ Teardown (run_starter (run_loop w l evs ats)).
Proof.
  unfold run_loop.
  destruct (supervise w l evs ats) as [[[o l1] rest] tr].
  destruct o; simpl; try done; case_decide; simpl; try done; intros _.
  - eexists. by rewrite app_assoc.
  - eexists. by rewrite app_assoc.
Qed.

(** Every path of [Run] that returns or panics ends with [Teardown] of
    the [Starter] as it is then, and that [Starter] still has the files
    of the one that [Run] was called on. *)
Lemma Run_teardown (s : Starter) (e : gmap string string) (w : world)
    (ats : list attempt) (evs : list event) :
  run_out (Run s e w ats evs) <> RunBlocked ->
  (exists pre,
      run_trace (Run s e w ats evs) =
      pre ++ Teardown (run_starter (Run s e w ats evs))) /\
  pidFile (run_starter (Run s e w ats evs)) = pidFile s /\
  statusFile (run_starter (Run s e w ats evs)) = statusFile s.
Proof.
  unfold Run. destruct (open_pid_file w s) as [[err |] tr0]; simpl.
  { intros _. split; [by eexists | done]. }
  destruct (open_ports w (ports s) 0 (listeners s)) as [[opened ls] tr1].
  destruct opened; simpl.
  - set (s2 := set_generation (set_listeners s ls) 0).
    set (e2 := setEnv w 0 _).
    pose proof (StartWorker_frame ats s2 e2) as Hf.
    destruct (sw_out (StartWorker s2 e2 ats)) eqn:Hout; simpl.
    + set (l0 := MkLoop _ _ _ _ _ _). intros Hnb.
      destruct (run_loop_teardown w l0 evs (sw_rest (StartWorker s2 e2 ats)) Hnb)
        as [pre Hpre].
      pose proof (run_loop_frame w l0 evs (sw_rest (StartWorker s2 e2 ats))) as Hl.
      split.
      * eexists. rewrite Hpre. by rewrite app_assoc.
      * unfold same_config in Hl. rewrite Hl. simpl. by rewrite Hf.
    + intros _. split.
      * eexists. rewrite !app_assoc. reflexivity.
      * by rewrite Hf.
    + done.
  - intros _. split; [| done]. eexists. by rewrite app_assoc.
  - intros _. split; [| done]. eexists. by rewrite app_assoc.
Qed.

Lemma elem_of_Teardown (s : Starter) (a : action) :
  a ∈ Teardown s <->
  (pidFile s <> "" /\ a = ARemove (pidFile s)) \/
  (exists l, Some l ∈ listeners s /\ a = AClose l).
Proof.
  unfold Teardown. rewrite elem_of_app.
  rewrite (list_elem_of_In (flat_map _ _) a), in_flat_map.
  split.
  - intros [H | (l & Hl & Ha)].
    + left. case_decide; [by apply elem_of_nil in H |].
      by apply list_elem_of_singleton in H.
    + right. destruct l as [l |]; simpl in Ha; [| done].
      destruct Ha as [<- | []]. exists l. by rewrite list_elem_of_In.
  - intros [[Hp ->] | (l & Hl & ->)].
    + left. rewrite decide_False by done. by apply list_elem_of_singleton.
    + right. exists (Some l). split; [by rewrite <- list_elem_of_In |].
      by left.
Qed.

(** C9, against the claim as stated: a whole run that ends on TERM
    removes the pid file and closes both listeners in its [Teardown], and
    never removes the configured status file. *)
Lemma Teardown_keeps_status_file :
  let r :=
    Run (starter_of config_ports) ∅ quiet_world [attempt_alive 11]
      [SignalEvent TERM; exit_of 11] in
  run_out r = RunReturn None /\
  statusFile (run_starter r) = "/tmp/status" /\
  Teardown (run_starter r) =
    [ARemove "/tmp/pid"; AClose (MkListener "tcp4" ":8080");
     AClose (MkListener "tcp4" "127.0.0.1:9090")] /\
  ARemove "/tmp/status" ∉ run_trace r.
Proof.
  vm_compute. repeat split.
  intros H. repeat (apply elem_of_cons in H as [H | H]; [discriminate |]).
  by apply elem_of_nil in H.
Qed.

Lemma close_listeners_omap (ls : list (option Listener)) :
  flat_map close_listener ls = AClose <$> omap id ls.
Proof.
  induction ls as [| [l |] ls IH]; simpl; [done | | done].
  by rewrite IH.
Qed.

(** C9: [Teardown] removes the pid file when one is configured and
    closes every listener that is not nil, each once and in order; it
    performs no other action, so the status file stays (only [Close]
    removes it); and every path of [Run] that returns or panics ends
    with it. *)
Theorem Teardown_spec (s : Starter) :
  (pidFile s <> "" -> ARemove (pidFile s) ∈ Teardown s) /\
  (forall l, Some l ∈ listeners s -> AClose l ∈ Teardown s) /\
  Teardown s =
    (if decide (pidFile s = "") then [] else [ARemove (pidFile s)]) ++
    (AClose <$> omap id (listeners s)) /\
  (forall path, ARemove path ∈ Teardown s -> path = pidFile s) /\
  (statusFile s <> "" -> ARemove (statusFile s) ∈ Close s) /\
  (forall e w ats evs,
      run_out (Run s e w ats evs) <> RunBlocked ->
      (exists pre,
          run_trace (Run s e w ats evs) =
          pre ++ Teardown (run_starter (Run s e w ats evs))) /\
      pidFile (run_starter (Run s e w ats evs)) = pidFile s /\
      statusFile (run_starter (Run s e w ats evs)) = statusFile s).
Proof.
  repeat split.
  - intros Hp. apply elem_of_Teardown. by left.
  - intros l Hl. apply elem_of_Teardown. right. by exists l.
  - unfold Teardown. by rewrite close_listeners_omap.
  - intros path [[_ H] | (l & _ & H)]%elem_of_Teardown; congruence.
  - intros Hs. unfold Close. apply elem_of_app. left.
    rewrite decide_False by done. by apply list_elem_of_singleton.
  - by apply Run_teardown.
  - by apply Run_teardown.
  - by apply Run_teardown.
Qed.

(** ** Shutdown on TERM, INT and QUIT *)

Lemma signal_workers_elem (w : world) (m : gmap Z Z) (sig : option os_Signal)
    (a : action) :
  a ∈ signal_workers w m sig <->
  exists pid, pid ∈ dom m /\ findprocess_err w pid = false /\ a = ASignal pid sig.
Proof.
  unfold signal_workers. rewrite list_elem_of_In, in_flat_map. split.
  - intros ([pid g] & Hin & Ha). simpl in Ha.
    apply list_elem_of_In, elem_of_map_to_list in Hin.
    destruct (findprocess_err w pid) eqn:Hf; [done |].
    destruct Ha as [<- | []]. exists pid. split; [| done].
    apply elem_of_dom. by exists g.
  - intros (pid & [g Hg]%elem_of_dom & Hf & ->). exists (pid, g). split.
    + by apply list_elem_of_In, elem_of_map_to_list.
    + simpl. rewrite Hf. by left.
Qed.

Lemma drain_done (old : gmap Z Z) (evs : list event) :
  size old = 0%nat -> drain old evs = (old, evs).
Proof. intros H. destruct evs; simpl; by rewrite decide_True. Qed.

(** The loop of the deferred function ends only once every tracked pid
    has had its exit event. *)
Lemma drain_empty_exited (evs : list event) :
  forall old : gmap Z Z,
    size (drain old evs).1 = 0%nat ->
    forall pid, pid ∈ dom old -> exit_seen evs pid.
Proof.
  induction evs as [| ev evs IH]; intros old Hd pid Hpid.
  - assert (Hs : size old = 0%nat).
    { simpl in Hd. by case_decide. }
    apply map_size_empty_inv in Hs. subst old. set_solver.
  - simpl in Hd. case_decide as Hs.
    { apply map_size_empty_inv in Hs. subst old. set_solver. }
    destruct ev as [st | sig].
    + destruct (decide (ps_Pid st = pid)) as [Heq | Hne].
      * exists st. split; [by left | done].
      * destruct (IH _ Hd pid) as (st' & Hin & Hp).
        { rewrite dom_delete_L. set_solver. }
        exists st'. split; [by right | done].
    + destruct (IH _ Hd pid Hpid) as (st' & Hin & Hp).
      exists st'. split; [by right | done].
Qed.

(** And it does end when they all have. *)
Lemma drain_exited_empty (evs : list event) :
  forall old : gmap Z Z,
    (forall pid, pid ∈ dom old -> exit_seen evs pid) ->
    (drain old evs).1 = ∅.
Proof.
  induction evs as [| ev evs IH]; intros old Hall.
  - assert (old = ∅) as ->.
    { apply map_eq. intros pid. rewrite lookup_empty.
      destruct (old !! pid) eqn:Hp; [| done].
      destruct (Hall pid) as (st & Hin & _).
      - apply elem_of_dom. by eexists.
      - by apply elem_of_nil in Hin. }
    done.
  - simpl. case_decide as Hs.
    { by apply map_size_empty_inv in Hs. }
    destruct ev as [st | sig]; apply IH; intros pid Hpid.
    + rewrite dom_delete_L in Hpid.
      apply elem_of_difference in Hpid as [Hpid Hne].
      destruct (Hall pid Hpid) as (st' & Hin & Hp).
      exists st'. split; [| done].
      apply elem_of_cons in Hin as [Heq | Hin]; [| done].
      injection Heq as ->. set_solver.
    + destruct (Hall pid Hpid) as (st' & Hin & Hp).
      exists st'. split; [| done].
      by apply elem_of_cons in Hin as [Heq | Hin].
Qed.

Lemma dom_demoted (l : loop_state) : dom (demoted l) = tracked l.
Proof.
  unfold demoted, tracked. destruct (ls_p l) as [pid |].
  - rewrite dom_insert_L. apply (comm_L (∪)).
  - by rewrite (right_id_L ∅ (∪)).
Qed.

(** Once the pid file is written, the ports are open and the first
    [StartWorker] has returned, [Run] is its loop, entered with the
    process returned as current worker and no old worker. *)
Lemma Run_enters_loop (s : Starter) (e : gmap string string) (w : world)
    (ats : list attempt) (evs : list event) (tr0 tr1 : list action)
    (ls : list (option Listener)) (p : option Z) :
  open_pid_file w s = (None, tr0) ->
  open_ports w (ports s) 0 (listeners s) = (Opened, ls, tr1) ->
  let s2 := set_generation (set_listeners s ls) 0 in
  let e2 := setEnv w 0 (Setenv "SERVER_STARTER_GENERATION" "0" e) in
  let r := StartWorker s2 e2 ats in
  sw_out r = SwReturn p ->
  Run s e w ats evs =
  run_after
    (tr0 ++ tr1 ++
     ANotify [syscall.SIGHUP; syscall.SIGINT; syscall.SIGTERM; syscall.SIGQUIT]
       :: sw_trace r)
    (run_loop w
       (MkLoop (sw_starter r) (setEnv w 1 (sw_env r)) p ∅ None None)
       evs (sw_rest r)).
Proof.
  intros H0 H1 s2 e2 r Hout. unfold Run. rewrite H0, H1.
  change (sw_out (StartWorker (set_generation (set_listeners s ls) 0)
            (setEnv w 0
               (Setenv "SERVER_STARTER_GENERATION"
                  (pretty (generation (set_generation (set_listeners s ls) 0)))
                  e)) ats)) with (sw_out r).
  by rewrite Hout.
Qed.

(** A pass of the loop that goes on is followed by the run from the
    state it leaves: what holds of [run_loop] from any state holds at any
    moment of a run. *)
Lemma run_loop_continue (w : world) (l l' : loop_state) (ev : event)
    (evs : list event) (ats ats' : list attempt) (tr : list action) :
  loop_step w l ev ats = (Continue, l', ats', tr) ->
  run_loop w l (ev :: evs) ats = run_after tr (run_loop w l' evs ats').
Proof.
  intros H. unfold run_loop. simpl. rewrite H.
  destruct (supervise w l' evs ats') as [[[o l1] rest] tr1].
  destruct o; simpl; try done;
    destruct (shutdown_workers w l1 rest) as [l2 tr2];
    case_decide; unfold run_after; simpl; by rewrite ?app_assoc.
Qed.

(** [run_loop] on a signal other than HUP. *)
Lemma run_loop_terminal (w : world) (l : loop_state) (sig : os_Signal)
    (rest : list event) (ats : list attempt) :
  sig <> HUP ->
  run_loop w l (SignalEvent sig :: rest) ats =
  let left := (drain (demoted l) rest).1 in
  let sent := signal_workers w (demoted l) (shutdown_signal (ls_starter l) sig) in
  if decide (size left = 0%nat) then
    MkRun (RunReturn None) (ls_starter l) (ls_env l) left
      (sent ++ Teardown (ls_starter l))
  else MkRun RunBlocked (ls_starter l) (ls_env l) left sent.
Proof.
  intros Hsig. unfold run_loop, shutdown_signal, HUP, TERM. simpl.
  rewrite decide_False by done.
  destruct (decide (sig = SyscallSignal syscall.SIGTERM)); reflexivity.
Qed.

(** C4: when the loop of [Run] reads TERM, INT or QUIT, it sends the
    signal of the shutdown (the configured one for TERM, [SIGTERM] for INT
    and QUIT) to the current worker and to every old worker that
    [os.FindProcess] finds, and to nothing else; it then returns nil, and
    it does so exactly when an exit event has come for every tracked pid:
    otherwise it stays blocked.  The worker map is empty when it
    returns. *)
Theorem terminal_signal_drains (w : world) (l : loop_state) (sig : os_Signal)
    (rest : list event) (ats : list attempt) :
  sig ∈ [TERM; INT; QUIT] ->
  let r := run_loop w l (SignalEvent sig :: rest) ats in
  let tosend := shutdown_signal (ls_starter l) sig in
  (forall pid, pid ∈ tracked l -> findprocess_err w pid = false ->
     ASignal pid tosend ∈ run_trace r) /\
  (forall pid s, ASignal pid s ∈ run_trace r -> pid ∈ tracked l /\ s = tosend) /\
  (run_out r = RunReturn None \/ run_out r = RunBlocked) /\
  (run_out r = RunReturn None <-> forall pid, pid ∈ tracked l -> exit_seen rest pid) /\
  (run_out r = RunReturn None -> run_oldWorkers r = ∅) /\
  (run_out r = RunReturn None ->
     exists pre, run_trace r = pre ++ Teardown (ls_starter l)).
Proof.
  intros Hsig r tosend.
  assert (Hne : sig <> HUP).
  { intros ->. repeat (apply elem_of_cons in Hsig as [Hsig | Hsig];
      [discriminate |]). by apply elem_of_nil in Hsig. }
  subst r. rewrite (run_loop_terminal w l sig rest ats Hne). simpl. fold tosend.
  assert (Hiff : size (drain (demoted l) rest).1 = 0%nat <->
                 forall pid, pid ∈ tracked l -> exit_seen rest pid).
  { rewrite <- dom_demoted. split.
    - apply drain_empty_exited.
    - intros H. by rewrite (drain_exited_empty rest _ H). }
  assert (Hsent : forall pid s,
    ASignal pid s ∈ signal_workers w (demoted l) tosend ->
    pid ∈ tracked l /\ s = tosend).
  { intros pid s (pid' & Hd & _ & Heq)%signal_workers_elem.
    injection Heq as -> ->. by rewrite <- dom_demoted. }
  assert (Htd : forall pid s, ASignal pid s ∈ Teardown (ls_starter l) -> False).
  { intros pid s [[_ H] | (x & _ & H)]%elem_of_Teardown; discriminate. }
  destruct (decide (size (drain (demoted l) rest).1 = 0%nat)) as [Hd | Hd];
    simpl; (split; [| split; [| split; [| split; [| split]]]]).
  - intros pid Hpid Hfind. apply elem_of_app. left.
    apply signal_workers_elem. exists pid. by rewrite dom_demoted.
  - intros pid s [H | H]%elem_of_app; [by apply Hsent | by destruct (Htd pid s)].
  - by left.
  - split; [intros _; by apply Hiff | done].
  - intros _. by apply map_size_empty_inv in Hd.
  - intros _. by eexists.
  - intros pid Hpid Hfind.
    apply signal_workers_elem. exists pid. by rewrite dom_demoted.
  - apply Hsent.
  - by right.
  - split; [done |]. intros H. by apply Hiff in H.
  - done.
  - done.
Qed.

(** Worker 12 is current and worker 11 is draining when TERM arrives;
    both exit afterwards. *)
Lemma terminal_signal_drains_witness :
  let r := run_loop quiet_world loop_draining
             [SignalEvent TERM; exit_of 11; exit_of 12] [] in
  (forall pid, pid ∈ tracked loop_draining ->
     findprocess_err quiet_world pid = false ->
     ASignal pid (shutdown_signal (ls_starter loop_draining) TERM) ∈ run_trace r) /\
  (forall pid s, ASignal pid s ∈ run_trace r ->
     pid ∈ tracked loop_draining /\
     s = shutdown_signal (ls_starter loop_draining) TERM) /\
  (run_out r = RunReturn None \/ run_out r = RunBlocked) /\
  (run_out r = RunReturn None <->
   forall pid, pid ∈ tracked loop_draining -> exit_seen [exit_of 11; exit_of 12] pid) /\
  (run_out r = RunReturn None -> run_oldWorkers r = ∅) /\
  (run_out r = RunReturn None ->
     exists pre, run_trace r = pre ++ Teardown (ls_starter loop_draining)).
Proof.
  apply (terminal_signal_drains quiet_world loop_draining TERM
           [exit_of 11; exit_of 12] []).
  apply elem_of_cons. by left.
Defined.

(** ** The generation counter *)

Lemma counted_S (g : Z) (n : nat) :
  counted g (S n) = pretty (g + 1) :: counted (g + 1) n.
Proof.
  unfold counted. simpl. f_equal. rewrite <- fmap_S_seq, <- list_fmap_compose.
  apply list_fmap_ext. intros _ k _. simpl. f_equal. lia.
Qed.

Lemma counted_app (n m : nat) :
  forall g : Z, counted g n ++ counted (g + Z.of_nat n) m = counted g (n + m).
Proof.
  induction n as [| n IH]; intros g.
  - replace (g + Z.of_nat 0) with g by lia. reflexivity.
  - replace (S n + m)%nat with (S (n + m)) by lia.
    rewrite !counted_S, <- app_comm_cons, <- IH.
    by replace (g + Z.of_nat (S n)) with (g + 1 + Z.of_nat n) by lia.
Qed.

Lemma start_gens_app (tr1 tr2 : list action) :
  start_gens (tr1 ++ tr2) = start_gens tr1 ++ start_gens tr2.
Proof. apply omap_app. Qed.

Lemma start_gens_resend (sigs : list os_Signal) :
  start_gens (AResend <$> sigs) = [].
Proof. by induction sigs. Qed.

Lemma start_gens_signal_workers (w : world) (m : gmap Z Z)
    (sig : option os_Signal) :
  start_gens (signal_workers w m sig) = [].
Proof.
  unfold signal_workers. induction (map_to_list m) as [| [pid g] kvs IH];
    simpl; [done |].
  rewrite start_gens_app, IH. by destruct (findprocess_err w pid).
Qed.

Lemma start_gens_Teardown (s : Starter) : start_gens (Teardown s) = [].
Proof.
  unfold Teardown. rewrite start_gens_app. case_decide; simpl.
  - induction (listeners s) as [| [l |] ls IH]; simpl; done.
  - induction (listeners s) as [| [l |] ls IH]; simpl; done.
Qed.

Lemma start_gens_open_ports (w : world) (addrs : list string) :
  forall i ls, start_gens (open_ports w addrs i ls).2 = [].
Proof.
  induction addrs as [| addr addrs IH]; intros i ls; simpl; [done |].
  destruct (listen_err w "tcp4" (listen_address addr)); simpl; [done |].
  case_decide; simpl; [| done].
  specialize (IH (S i) (<[i := Some (MkListener "tcp4" (listen_address addr))]> ls)).
  by destruct (open_ports w addrs _ _) as [[o ls'] tr].
Qed.

Lemma start_gens_open_pid_file (w : world) (s : Starter) :
  start_gens (open_pid_file w s).2 = [].
Proof.
  unfold open_pid_file. case_decide; [done |].
  by destruct (openfile_err w).
Qed.

(** Each pass of the loop of [StartWorker] takes the next number:
    started from the counter [g], the passes export [g+1], [g+2], ...
    whether they succeed or not, and the counter ends as the last
    exported number. *)
Lemma StartWorker_gens (ats : list attempt) :
  forall (s : Starter) (e : gmap string string),
  exists n : nat,
    start_gens (sw_trace (StartWorker s e ats)) = counted (generation s) n /\
    generation (sw_starter (StartWorker s e ats)) = generation s + Z.of_nat n.
Proof.
  induction ats as [| a rest IH]; intros s e; simpl.
  - exists 0%nat. split; [done | lia].
  - destruct (inherit_files a s) as [ports_ |]; simpl;
      [| exists 0%nat; split; [done | lia]].
    set (s1 := set_generation s (generation s + 1)).
    set (e2 := Setenv "SERVER_STARTER_GENERATION" _ _).
    assert (Hg : Getenv e2 "SERVER_STARTER_GENERATION" = pretty (generation s + 1)).
    { unfold Getenv, e2, Setenv. by rewrite lookup_insert_eq. }
    destruct (IH s1 e2) as (n & Htr & Hgen). simpl in Htr, Hgen.
    destruct (start a) as [pid |]; simpl.
    + destruct (existsb interrupts (sigs a) || negb (find_err a)); simpl.
      * exists 1%nat. rewrite Hg, start_gens_app, start_gens_resend. simpl.
        split; [by rewrite counted_S | lia].
      * exists (S n). rewrite Hg, !start_gens_app, start_gens_resend. simpl.
        rewrite Htr, counted_S. split; [done | lia].
    + exists (S n). rewrite Hg, Htr, counted_S. split; [done | lia].
Qed.

Lemma advances_idle (g : Z) (tr : list action) :
  start_gens tr = [] -> advances g tr g.
Proof. intros H. exists 0%nat. split; [done | lia]. Qed.

Lemma advances_app (g g1 g2 : Z) (tr1 tr2 : list action) :
  advances g tr1 g1 -> advances g1 tr2 g2 -> advances g (tr1 ++ tr2) g2.
Proof.
  intros (n & H1 & ->) (m & H2 & ->). exists (n + m)%nat.
  rewrite start_gens_app, H1, H2, counted_app. split; [done | lia].
Qed.

Lemma StartWorker_advances (s : Starter) (e : gmap string string)
    (ats : list attempt) :
  advances (generation s) (sw_trace (StartWorker s e ats))
    (generation (sw_starter (StartWorker s e ats))).
Proof. apply StartWorker_gens. Qed.

Lemma spawn_and_kill_advances (w : world) (l : loop_state) (ats : list attempt) :
  advances (generation (ls_starter l)) (spawn_and_kill w l ats).2
    (generation (ls_starter (spawn_and_kill w l ats).1.1.2)).
Proof.
  unfold spawn_and_kill. destruct (ls_p l) as [pid |]; simpl;
    [| by apply advances_idle].
  pose proof (StartWorker_advances (ls_starter l) (ls_env l) ats) as Hsw.
  pose proof (assign_worker_starter l
    (<[pid := generation (ls_starter l)]> (ls_oldWorkers l))
    (StartWorker (ls_starter l) (ls_env l) ats)) as Hs.
  destruct (assign_worker _ _ _) as [o l']. simpl in Hs. rewrite <- Hs in Hsw.
  destruct o; simpl; try done. case_decide; simpl; [done |].
  eapply advances_app; [exact Hsw |]. apply advances_idle.
  rewrite start_gens_app, start_gens_signal_workers. by case_match.
Qed.

Lemma loop_step_advances (w : world) (l : loop_state) (ev : event)
    (ats : list attempt) :
  advances (generation (ls_starter l)) (loop_step w l ev ats).2
    (generation (ls_starter (loop_step w l ev ats).1.1.2)).
Proof.
  destruct ev as [st | sig]; simpl.
  - destruct (ls_p l) as [pid |]; simpl; [| by apply advances_idle].
    case_decide; simpl; [| by apply advances_idle].
    pose proof (StartWorker_advances (ls_starter l) (ls_env l) ats) as Hsw.
    pose proof (assign_worker_starter l (ls_oldWorkers l)
      (StartWorker (ls_starter l) (ls_env l) ats)) as Hs.
    destruct (assign_worker _ _ _) as [o l']. simpl in *. by rewrite Hs.
  - repeat case_decide; simpl; try by apply advances_idle.
    apply (spawn_and_kill_advances w
      (with_signals l (Some sig) (signalOnHUP (ls_starter l))) ats).
Qed.

Lemma supervise_advances (w : world) (evs : list event) :
  forall (l : loop_state) (ats : list attempt),
    advances (generation (ls_starter l)) (supervise w l evs ats).2
      (generation (ls_starter (supervise w l evs ats).1.1.2)).
Proof.
  induction evs as [| ev evs IH]; intros l ats; simpl;
    [by apply advances_idle |].
  pose proof (loop_step_advances w l ev ats) as H.
  destruct (loop_step w l ev ats) as [[[o l'] ats'] tr]. simpl in H.
  destruct o; simpl; try done.
  specialize (IH l' ats').
  destruct (supervise w l' evs ats') as [[[o' l''] rest] tr']. simpl in *.
  by eapply advances_app.
Qed.

Lemma run_loop_advances (w : world) (l : loop_state) (evs : list event)
    (ats : list attempt) :
  advances (generation (ls_starter l)) (run_trace (run_loop w l evs ats))
    (generation (run_starter (run_loop w l evs ats))).
Proof.
  unfold run_loop. pose proof (supervise_advances w evs l ats) as H.
  destruct (supervise w l evs ats) as [[[o l1] rest] tr]. simpl in H.
  destruct o; simpl; try done; case_decide; simpl;
    (eapply advances_app; [exact H |]); apply advances_idle;
    rewrite ?start_gens_app, ?start_gens_signal_workers, ?start_gens_Teardown;
    done.
Qed.

(** A run in which the first start fails, the second process is lost,
    the third one stays, a HUP replaces it with a fourth, and TERM ends
    the run. *)
Example run_generations :
  let r :=
    Run (starter_of config_ports) ∅ quiet_world
      [attempt_noexec; attempt_lost 10 []; attempt_alive 11; attempt_alive 12]
      [SignalEvent HUP; exit_of 11; SignalEvent TERM; exit_of 12] in
  run_out r = RunReturn None /\
  start_gens (run_trace r) = ["1"; "2"; "3"; "4"] /\
  generation (run_starter r) = 4.
Proof. vm_compute. repeat split. Qed.

(** C5: in any run, the spawn attempts, failed ones included, are given
    the generations 1, 2, 3, ... in order: each [cmd.Start()] happens
    under an environment whose [SERVER_STARTER_GENERATION] is the decimal
    of the counter just incremented; and the counter of the [Starter],
    reset to 0 at the launch, always equals the number of attempts made
    since. *)
Theorem generation_counts_attempts (s : Starter) (e : gmap string string)
    (w : world) (ats : list attempt) (evs : list event) :
  let r := Run s e w ats evs in
  exists n : nat,
    start_gens (run_trace r) =
      (fun k : nat => pretty (Z.of_nat k)) <$> seq 1 n /\
    (launched (run_trace r) -> generation (run_starter r) = Z.of_nat n).
Proof.
  assert (Hc : forall n, counted 0 n = (fun k : nat => pretty (Z.of_nat k)) <$> seq 1 n).
  { intros n. unfold counted. apply list_fmap_ext. intros _ k _. by rewrite Z.add_0_l. }
  assert (Hno : forall tr : list action,
    (forall a, a ∈ tr -> forall sigs, a <> ANotify sigs) -> ~ launched tr).
  { intros tr H [sigs Hin]. by eapply H. }
  simpl. unfold Run.
  pose proof (start_gens_open_pid_file w s) as H0.
  destruct (open_pid_file w s) as [[err |] tr0] eqn:Hpf; simpl in *.
  { exists 0%nat. rewrite start_gens_app, H0, start_gens_Teardown.
    split; [done |]. intros [sigs Hin]. exfalso.
    apply elem_of_app in Hin as [Hin | Hin].
    - unfold open_pid_file in Hpf. case_decide; [done |].
      destruct (openfile_err w); [| done]. injection Hpf as _ <-.
      by apply list_elem_of_singleton in Hin.
    - by apply elem_of_Teardown in Hin as [[_ ?] | (? & _ & ?)]. }
  pose proof (start_gens_open_ports w (ports s) 0 (listeners s)) as H1.
  destruct (open_ports w (ports s) 0 (listeners s)) as [[opened ls] tr1] eqn:Hop.
  simpl in H1.
  assert (Hearly : forall s', exists n : nat,
    start_gens (tr0 ++ tr1 ++ Teardown s') = counted 0 n).
  { intros s'. exists 0%nat.
    by rewrite !start_gens_app, H0, H1, start_gens_Teardown. }
  assert (Hquiet : forall s', ~ launched (tr0 ++ tr1 ++ Teardown s')).
  { intros s' [sigs Hin]. rewrite !elem_of_app in Hin.
    destruct Hin as [Hin | [Hin | Hin]].
    - unfold open_pid_file in Hpf. case_decide.
      + injection Hpf as <-. by apply elem_of_nil in Hin.
      + destruct (openfile_err w); [done |]. injection Hpf as <-.
        repeat (apply elem_of_cons in Hin as [Hin | Hin]; [done |]).
        by apply elem_of_nil in Hin.
    - clear Hearly H1. revert Hin Hop. generalize 0%nat (listeners s) opened ls tr1.
      induction (ports s) as [| addr addrs IH]; intros i ls0 o ls1 tr Hin Hop;
        simpl in Hop.
      + injection Hop as _ _ <-. by apply elem_of_nil in Hin.
      + destruct (listen_err w "tcp4" (listen_address addr)).
        * injection Hop as _ _ <-. by apply list_elem_of_singleton in Hin.
        * case_decide.
          -- destruct (open_ports w addrs (S i) _) as [[o' ls'] tr'] eqn:Hrec.
             injection Hop as _ _ <-.
             apply elem_of_cons in Hin as [Hin | Hin]; [done |].
             by eapply IH.
          -- injection Hop as _ _ <-. by apply list_elem_of_singleton in Hin.
    - by apply elem_of_Teardown in Hin as [[_ ?] | (? & _ & ?)]. }
  destruct opened; simpl.
  - set (s2 := set_generation (set_listeners s ls) 0).
    set (e2 := setEnv w 0 _).
    pose proof (StartWorker_advances s2 e2 ats) as Hsw. simpl in Hsw.
    assert (Hpre : advances 0 (tr0 ++ tr1 ++
               ANotify [syscall.SIGHUP; syscall.SIGINT; syscall.SIGTERM;
                        syscall.SIGQUIT] :: sw_trace (StartWorker s2 e2 ats))
               (generation (sw_starter (StartWorker s2 e2 ats)))).
    { destruct Hsw as (n & Hn & Hg). exists n.
      rewrite !start_gens_app, H0, H1. simpl. by rewrite Hn. }
    destruct (sw_out (StartWorker s2 e2 ats)); simpl.
    + set (l0 := MkLoop _ _ _ _ _ _).
      pose proof (run_loop_advances w l0 evs (sw_rest (StartWorker s2 e2 ats))) as Hl.
      simpl in Hl.
      destruct (advances_app _ _ _ _ _ Hpre Hl) as (n & Hn & Hg).
      exists n. rewrite <- Hc. split; [done |]. intros _. lia.
    + destruct Hpre as (n & Hn & Hg). exists n.
      rewrite <- Hc, start_gens_app, start_gens_Teardown, app_nil_r.
      split; [done |]. intros _. lia.
    + destruct Hpre as (n & Hn & Hg). exists n. rewrite <- Hc.
      split; [done |]. intros _. lia.
  - destruct (Hearly (set_listeners s ls)) as [n Hn]. exists n.
    rewrite <- Hc. split; [done |]. intros Hl. by destruct (Hquiet _ Hl).
  - destruct (Hearly (set_listeners s ls)) as [n Hn]. exists n.
    rewrite <- Hc. split; [done |]. intros Hl. by destruct (Hquiet _ Hl).
Qed.

(** ** HUP *)

(** C1, against the claim as stated: with an old worker still draining,
    a HUP starts nothing; the current worker and the old-worker map are
    what they were. *)
Lemma HUP_while_draining_spawns_nothing :
  loop_step quiet_world loop_draining (SignalEvent HUP) [attempt_alive 13] =
  (Continue, with_signals loop_draining (Some HUP) (Some TERM),
   [attempt_alive 13], []) /\
  ls_p (with_signals loop_draining (Some HUP) (Some TERM)) = Some 12 /\
  ls_oldWorkers (with_signals loop_draining (Some HUP) (Some TERM)) = {[ 11 := 2 ]}.
Proof. repeat split. Qed.

Lemma size_zero_empty (m : gmap Z Z) : size m = 0%nat <-> m = ∅.
Proof. apply map_size_empty_iff. Qed.

(** A call of [StartWorker] that returns has started the process it
    returns and a reaper for it. *)
Lemma StartWorker_return_started (ats : list attempt) :
  forall (s : Starter) (e : gmap string string) (p : option Z),
    sw_out (StartWorker s e ats) = SwReturn p ->
    exists pid environ,
      AStart (command s) (args s) (dir s) (length (ports s)) environ (Some pid)
        ∈ sw_trace (StartWorker s e ats) /\
      AReap pid ∈ sw_trace (StartWorker s e ats) /\
      (p = Some pid \/ p = None).
Proof.
  induction ats as [| a rest IH]; intros s e p; simpl; [done |].
  destruct (inherit_files a s) as [ports_ |]; simpl; [| done].
  set (s1 := set_generation s (generation s + 1)).
  set (e2 := Setenv "SERVER_STARTER_GENERATION" _ _).
  destruct (start a) as [pid |]; simpl.
  - destruct (existsb interrupts (sigs a) || negb (find_err a)); simpl.
    + intros [= <-]. exists pid, e2. split; [by left |]. split.
      * right. apply elem_of_app. right. by left.
      * destruct (find_err a); [by right | by left].
    + intros H. destruct (IH s1 e2 p H) as (pid' & env' & H1 & H2 & H3).
      exists pid', env'. simpl in H1.
      split; [| split; [| done]]; right; apply elem_of_app; by right.
  - intros H. destruct (IH s1 e2 p H) as (pid' & env' & H1 & H2 & H3).
    exists pid', env'. simpl in H1.
    split; [| split; [| done]]; by do 3 right.
Qed.

(** C1: a HUP read while no old worker is tracked enters the current
    worker in the old-worker map under the generation counter as it is,
    calls [StartWorker], and makes the process it returns the current
    worker; a HUP read while an old worker is still tracked starts
    nothing and leaves the current worker and the map as they are. *)
Theorem HUP_replaces_worker_when_idle (w : world) (l : loop_state)
    (ats : list attempt) :
  let r := StartWorker (ls_starter l) (ls_env l) ats in
  let step := loop_step w l (SignalEvent HUP) ats in
  (ls_oldWorkers l = ∅ ->
   forall pid p', ls_p l = Some pid -> sw_out r = SwReturn p' ->
     step.1.1.1 = Continue /\
     ls_p step.1.1.2 = p' /\
     ls_oldWorkers step.1.1.2 = {[ pid := generation (ls_starter l) ]} /\
     ls_starter step.1.1.2 = sw_starter r /\
     step.1.2 = sw_rest r /\
     (exists post, step.2 = sw_trace r ++ post) /\
     (exists pid' environ,
         AStart (command (ls_starter l)) (args (ls_starter l))
           (dir (ls_starter l)) (length (ports (ls_starter l))) environ
           (Some pid') ∈ step.2 /\
         AReap pid' ∈ step.2 /\ (p' = Some pid' \/ p' = None))) /\
  (ls_oldWorkers l <> ∅ ->
   step =
   (Continue, with_signals l (Some HUP) (signalOnHUP (ls_starter l)), ats, [])).
Proof.
  intros r step. split.
  - intros Hold pid p' Hp Hout.
    assert (Hstep : step =
      (Continue,
       with_worker (with_signals l (Some HUP) (signalOnHUP (ls_starter l))) r p'
         {[ pid := generation (ls_starter l) ]},
       sw_rest r,
       sw_trace r ++
       (if 0 <? getKillOldDelay (sw_env r)
        then [ASleep (getKillOldDelay (sw_env r))] else []) ++
       signal_workers w {[ pid := generation (ls_starter l) ]}
         (signalOnHUP (sw_starter r)))).
    { subst step. unfold loop_step, HUP. rewrite decide_True by done.
      simpl. rewrite Hold, map_size_empty. simpl.
      unfold spawn_and_kill. simpl. rewrite Hp, Hold.
      fold r. unfold assign_worker. rewrite Hout.
      rewrite insert_empty, decide_False; [done |].
      rewrite map_size_singleton. lia. }
    rewrite Hstep. simpl. repeat split; try done.
    + by eexists.
    + destruct (StartWorker_return_started ats _ _ _ Hout)
        as (pid' & env' & H1 & H2 & H3).
      exists pid', env'. fold r in H1, H2.
      split; [| split; [| done]]; apply elem_of_app; by left.
  - intros Hold. subst step. unfold loop_step, HUP.
    rewrite decide_True by done. simpl.
    rewrite bool_decide_eq_false_2; [done |].
    by rewrite size_zero_empty.
Qed.

(** Worker 11 of generation 2 is alone when HUP arrives and the next
    process, 12, starts well. *)
Lemma HUP_replaces_worker_when_idle_witness :
  let step :=
    loop_step quiet_world loop_fresh (SignalEvent HUP) [attempt_alive 12] in
  step.1.1.1 = Continue /\
  ls_p step.1.1.2 = Some 12 /\
  ls_oldWorkers step.1.1.2 = {[ 11 := 2 ]}.
Proof.
  destruct (HUP_replaces_worker_when_idle quiet_world loop_fresh
              [attempt_alive 12]) as [H _].
  assert (Hout : sw_out (StartWorker (ls_starter loop_fresh)
                           (ls_env loop_fresh) [attempt_alive 12]) =
                 SwReturn (Some 12)) by (vm_compute; reflexivity).
  assert (Hold : ls_oldWorkers loop_fresh = ∅) by reflexivity.
  assert (Hp : ls_p loop_fresh = Some 11) by reflexivity.
  destruct (H Hold 11 (Some 12) Hp Hout) as (H1 & H2 & H3 & _).
  exact (conj H1 (conj H2 H3)).
Defined.

(** ** The liveness test of [StartWorker] *)

(** A process that was started and that [os.FindProcess] finds is
    accepted at once, whatever became of it during the interval. *)
Lemma StartWorker_accepts_found (s : Starter) (e : gmap string string)
    (a : attempt) (rest : list attempt) (pid : Z) (ports_ : list string) :
  inherit_files a s = Some ports_ ->
  start a = Some pid ->
  find_err a = false ->
  let s1 := set_generation s (generation s + 1) in
  let r := StartWorker s e (a :: rest) in
  sw_out r = SwReturn (Some pid) /\ sw_starter r = s1 /\ sw_rest r = rest /\
  AReap pid ∈ sw_trace r /\ AWait ∉ sw_trace r.
Proof.
  intros Hf Hs He. simpl. rewrite Hf, Hs, He, orb_true_r. simpl.
  repeat split.
  - right. apply elem_of_app. right. by left.
  - intros [H | [H | H]%elem_of_app]%elem_of_cons.
    + discriminate.
    + by apply list_elem_of_fmap in H as (sig & ? & _).
    + by apply list_elem_of_singleton in H.
Qed.

(** A process that was started, that [os.FindProcess] does not find, and
    whose interval saw no signal other than HUP is given up: the pass
    resends the signals, waits for the process, closes the files it had
    prepared, and the loop goes on from the counter it has incremented. *)
Lemma StartWorker_retries_when_lost (s : Starter) (e : gmap string string)
    (a : attempt) (rest : list attempt) (pid : Z) (ports_ : list string) :
  inherit_files a s = Some ports_ ->
  start a = Some pid ->
  find_err a = true ->
  existsb interrupts (sigs a) = false ->
  let s1 := set_generation s (generation s + 1) in
  let e2 :=
    Setenv "SERVER_STARTER_GENERATION" (pretty (generation s + 1))
      (Setenv "SERVER_STARTER_PORT" (String.concat ";" ports_) e) in
  StartWorker s e (a :: rest) =
  sw_after
    (AStart (command s) (args s) (dir s) (length (ports s)) e2 (Some pid)
       :: (AResend <$> sigs a) ++ [AWait; ACloseFiles (length (ports s))])
    (StartWorker s1 e2 rest).
Proof. intros Hf Hs He Hg. simpl. by rewrite Hf, Hs, He, Hg. Qed.

(** C2, on the code: a worker that exits during the interval while no
    signal arrives is returned by [StartWorker] all the same when
    [os.FindProcess] reports no error, which is what it does for any pid
    on a Unix system: one pass, one generation, a reaper for the dead
    process, no wait, no retry, and the next answer of the system left
    unused. *)
Lemma StartWorker_returns_exited_process :
  let a := attempt_dead_unix 4242 in
  let r := StartWorker (set_generation starter_bound 0) ∅ [a; attempt_alive 4243] in
  exited a = true /\ sigs a = [] /\ find_err a = false /\
  sw_out r = SwReturn (Some 4242) /\
  generation (sw_starter r) = 1 /\
  sw_rest r = [attempt_alive 4243] /\
  (exists environ,
     sw_trace r = [AStart "srv" [] "" 2 environ (Some 4242); AReap 4242]).
Proof. repeat split. by eexists. Qed.

(** ** Listeners and descriptors *)

(** C3, on the code: with one port and one path configured, [Run] calls
    [net.Listen] once, for the port; the slot of the path in the listener
    slice stays nil, nothing is bound for it, and the first
    [StartWorker] panics on that nil entry. *)
Lemma Run_opens_no_path_listener :
  let s := starter_of config_paths in
  let r := Run s ∅ quiet_world [attempt_alive 11] [] in
  ports s = ["8080"] /\ paths s = ["/tmp/app.sock"] /\
  listeners (run_starter r) = [Some (MkListener "tcp4" ":8080"); None] /\
  run_trace r =
    [AOpenPidFile "/tmp/pid" true; AWritePid "/tmp/pid";
     AListen "tcp4" ":8080" true;
     ANotify [syscall.SIGHUP; syscall.SIGINT; syscall.SIGTERM; syscall.SIGQUIT];
     ARemove "/tmp/pid"; AClose (MkListener "tcp4" ":8080")] /\
  run_out r = RunPanic.
Proof. vm_compute. repeat split. Qed.

(** C6, on the code: with a path configured, no pass of [StartWorker]
    gets as far as setting [SERVER_STARTER_PORT]: the loop over the
    listeners panics first, so no pair is ever exported for the path, nor
    for the port. *)
Lemma StartWorker_panics_on_path :
  let s :=
    set_listeners (starter_of config_paths)
      [Some (MkListener "tcp4" ":8080"); None] in
  let r := StartWorker s ∅ [attempt_alive 11] in
  paths s = ["/tmp/app.sock"] /\
  sw_out r = SwPanic /\ sw_trace r = [] /\
  sw_env r !! "SERVER_STARTER_PORT" = None /\
  generation (sw_starter r) = generation s.
Proof. repeat split. Qed.

(** *** What does hold for ports *)

(** A specifier that [strconv.ParseInt] accepts is listened on as a colon
    and the number, on all interfaces; any other is passed to
    [net.Listen] unchanged. *)
Lemma listen_address_spec (addr : string) :
  (forall port, ParseInt addr = (port, None) ->
     listen_address addr = ":" +:+ pretty port) /\
  ((ParseInt addr).2 <> None -> listen_address addr = addr) /\
  (forall port : Z, - 2 ^ 63 <= port < 2 ^ 63 ->
     listen_address (pretty port) = ":" +:+ pretty port) /\
  (":"%char ∈ list_ascii_of_string addr -> listen_address addr = addr) /\
  listen_address "8080" = ":8080" /\
  listen_address "127.0.0.1:9090" = "127.0.0.1:9090".
Proof.
  repeat split.
  - unfold listen_address. by intros port ->.
  - unfold listen_address. by destruct (ParseInt addr) as [port [err |]].
  - intros port Hport. unfold listen_address. by rewrite ParseInt_pretty.
  - apply listen_address_colon.
Qed.

(** When every listen succeeds and the slice has room, the loop of [Run]
    stores one TCP listener per port specifier, in order, from index [i]
    on, and performs exactly these listens. *)
Lemma open_ports_all (w : world) (addrs : list string) :
  forall (i : nat) (ls : list (option Listener)),
    (forall addr, addr ∈ addrs ->
       listen_err w "tcp4" (listen_address addr) = None) ->
    (i + length addrs <= length ls)%nat ->
    open_ports w addrs i ls =
    (Opened,
     take i ls ++
     ((fun addr => Some (MkListener "tcp4" (listen_address addr))) <$> addrs) ++
     drop (i + length addrs) ls,
     (fun addr => AListen "tcp4" (listen_address addr) true) <$> addrs).
Proof.
  induction addrs as [| addr addrs IH]; intros i ls Hok Hlen; simpl in *.
  - by rewrite Nat.add_0_r, take_drop.
  - rewrite (Hok addr) by (by left). rewrite decide_True by lia.
    rewrite IH; [| intros a' Ha'; apply Hok; by right
                 | rewrite length_insert; lia].
    f_equal. f_equal.
    rewrite (take_S_r _ i (Some (MkListener "tcp4" (listen_address addr))))
      by (apply list_lookup_insert_eq; lia).
    rewrite take_insert_ge by lia.
    rewrite drop_insert_lt by lia.
    rewrite <- app_assoc. simpl.
    by replace (i + S (length addrs))%nat with (S (i + length addrs)) by lia.
Qed.

(** A pass of [StartWorker] over as many listeners as there are ports
    gets through only with the pairs [spec=3+i] of the ports, in order. *)
Lemma inherit_from_pairs (a : attempt) (sp : list string)
    (ls : list (option Listener)) :
  forall (i : nat) (acc r : list string),
    length acc = length sp ->
    (i + length ls = length sp)%nat ->
    inherit_from a sp ls i acc = Some r ->
    r = take i acc ++ imap (fun j => port_pair (i + j)) (drop i sp).
Proof.
  induction ls as [| [l |] ls IH]; intros i acc r Hacc Hlen H; simpl in *.
  - injection H as <-. rewrite drop_ge, take_ge by lia. by rewrite app_nil_r.
  - destruct (file_err a i); [done |].
    destruct (sp !! i) as [spec |] eqn:Hspec; [| done].
    apply IH in H; [| by rewrite length_insert | lia].
    rewrite (take_S_r _ i (port_pair i spec)) in H
      by (apply list_lookup_insert_eq; lia).
    rewrite take_insert_ge in H by lia.
    rewrite (drop_S _ _ _ Hspec), imap_cons, Nat.add_0_r.
    rewrite H, <- app_assoc. simpl. do 2 f_equal.
    apply imap_ext. intros j x _. simpl. f_equal. lia.
  - done.
Qed.

Lemma inherit_files_pairs (a : attempt) (s : Starter) (r : list string) :
  length (listeners s) = length (ports s) ->
  inherit_files a s = Some r ->
  r = imap port_pair (ports s).
Proof.
  intros Hlen H. unfold inherit_files in H.
  apply inherit_from_pairs in H; [| by rewrite length_replicate | done].
  by rewrite H.
Qed.

(** With as many listeners as ports, every [cmd.Start()] of
    [StartWorker] happens under a [SERVER_STARTER_PORT] that joins the
    pairs [spec=3+i] of the port specifiers, in order, with semicolons. *)
Lemma StartWorker_exports_ports (ats : list attempt) :
  forall (s : Starter) (e : gmap string string),
    length (listeners s) = length (ports s) ->
    forall cmd cmd_args cmd_dir n environ pid,
      AStart cmd cmd_args cmd_dir n environ pid ∈ sw_trace (StartWorker s e ats) ->
      Getenv environ "SERVER_STARTER_PORT" =
      String.concat ";" (imap port_pair (ports s)).
Proof.
  induction ats as [| a rest IH]; intros s e Hlen cmd cmd_args cmd_dir n environ pid;
    simpl.
  - intros H. by apply elem_of_nil in H.
  - destruct (inherit_files a s) as [ports_ |] eqn:Hf; simpl;
      [| intros H; by apply elem_of_nil in H].
    apply inherit_files_pairs in Hf; [| done]. subst ports_.
    set (s1 := set_generation s (generation s + 1)).
    set (e2 := Setenv "SERVER_STARTER_GENERATION" _ _).
    assert (He2 : Getenv e2 "SERVER_STARTER_PORT" =
                  String.concat ";" (imap port_pair (ports s))).
    { unfold Getenv, e2, Setenv. rewrite lookup_insert_ne by done.
      by rewrite lookup_insert_eq. }
    assert (Hrec : AStart cmd cmd_args cmd_dir n environ pid
                     ∈ sw_trace (StartWorker s1 e2 rest) ->
                   Getenv environ "SERVER_STARTER_PORT" =
                   String.concat ";" (imap port_pair (ports s))).
    { apply (IH s1 e2 Hlen). }
    destruct (start a) as [pid' |]; simpl.
    + destruct (existsb interrupts (sigs a) || negb (find_err a)); simpl.
      * intros [H | [H | H]%elem_of_app]%elem_of_cons.
        -- by injection H as -> -> -> -> -> ->.
        -- by apply list_elem_of_fmap in H as (sig & ? & _).
        -- by apply list_elem_of_singleton in H.
      * intros [H | [[H | H]%elem_of_app | H]%elem_of_app]%elem_of_cons.
        -- by injection H as -> -> -> -> -> ->.
        -- by apply list_elem_of_fmap in H as (sig & ? & _).
        -- repeat (apply elem_of_cons in H as [H | H]; [done |]).
           by apply elem_of_nil in H.
        -- by apply Hrec.
    + intros [H | H]%elem_of_cons; [by injection H as -> -> -> -> -> -> |].
      repeat (apply elem_of_cons in H as [H | H]; [done |]).
      by apply Hrec.
Qed.

(** *** No listen outside the loop over the ports *)

Lemma StartWorker_no_listen (ats : list attempt) :
  forall (s : Starter) (e : gmap string string),
    Forall not_listen (sw_trace (StartWorker s e ats)).
Proof.
  induction ats as [| a rest IH]; intros s e; simpl; [done |].
  destruct (inherit_files a s); simpl; [| done].
  assert (Hre : Forall not_listen (AResend <$> sigs a)).
  { apply Forall_fmap, Forall_true. by intros sig. }
  destruct (start a) as [pid |]; simpl.
  - destruct (existsb interrupts (sigs a) || negb (find_err a)); simpl.
    + apply Forall_cons. split; [done |]. apply Forall_app. split; [done |].
      by repeat constructor.
    + apply Forall_cons. split; [done |]. apply Forall_app. split.
      * apply Forall_app. split; [done | by repeat constructor].
      * apply IH.
  - repeat (apply Forall_cons; split; [done |]). apply IH.
Qed.

Lemma signal_workers_no_listen (w : world) (m : gmap Z Z)
    (sig : option os_Signal) :
  Forall not_listen (signal_workers w m sig).
Proof.
  apply Forall_forall. intros a (pid & _ & _ & ->)%signal_workers_elem. done.
Qed.

Lemma Teardown_no_listen (s : Starter) : Forall not_listen (Teardown s).
Proof.
  apply Forall_forall.
  by intros a [[_ ->] | (l & _ & ->)]%elem_of_Teardown.
Qed.

Lemma loop_step_no_listen (w : world) (l : loop_state) (ev : event)
    (ats : list attempt) :
  Forall not_listen (loop_step w l ev ats).2.
Proof.
  destruct ev as [st | sig]; simpl.
  - destruct (ls_p l) as [pid |]; simpl; [| done].
    case_decide; simpl; [| done].
    destruct (assign_worker _ _ _) as [o l']. simpl.
    apply StartWorker_no_listen.
  - repeat case_decide; simpl; try done.
    unfold spawn_and_kill. simpl. destruct (ls_p l) as [pid |]; simpl; [| done].
    destruct (assign_worker _ _ _) as [o l'].
    pose proof (StartWorker_no_listen ats (ls_starter l) (ls_env l)) as Hsw.
    destruct o; simpl; try done. case_decide; simpl; [done |].
    apply Forall_app. split; [done |]. apply Forall_app. split.
    + case_match; by repeat constructor.
    + apply signal_workers_no_listen.
Qed.

Lemma supervise_no_listen (w : world) (evs : list event) :
  forall (l : loop_state) (ats : list attempt),
    Forall not_listen (supervise w l evs ats).2.
Proof.
  induction evs as [| ev evs IH]; intros l ats; simpl; [done |].
  pose proof (loop_step_no_listen w l ev ats) as H.
  destruct (loop_step w l ev ats) as [[[o l'] ats'] tr]. simpl in H.
  destruct o; simpl; try done.
  specialize (IH l' ats').
  destruct (supervise w l' evs ats') as [[[o' l''] rest] tr']. simpl in *.
  apply Forall_app. by split.
Qed.

Lemma run_loop_no_listen (w : world) (l : loop_state) (evs : list event)
    (ats : list attempt) :
  Forall not_listen (run_trace (run_loop w l evs ats)).
Proof.
  unfold run_loop. pose proof (supervise_no_listen w evs l ats) as H.
  destruct (supervise w l evs ats) as [[[o l1] rest] tr]. simpl in H.
  pose proof Teardown_no_listen as Htd.
  pose proof signal_workers_no_listen as Hsig.
  destruct o; cbn -[Teardown]; try done; case_decide; cbn -[Teardown];
    (apply Forall_app; split; [done |]); try apply Hsig;
    (apply Forall_app; split; [apply Hsig | apply Htd]).
Qed.

Lemma open_ports_listens (w : world) (addrs : list string) :
  forall (i : nat) (ls : list (option Listener)) (a : action),
    a ∈ (open_ports w addrs i ls).2 ->
    exists addr ok,
      addr ∈ addrs /\ a = AListen "tcp4" (listen_address addr) ok.
Proof.
  induction addrs as [| addr addrs IH]; intros i ls a; simpl.
  - intros H. by apply elem_of_nil in H.
  - destruct (listen_err w "tcp4" (listen_address addr)); simpl.
    + intros ->%list_elem_of_singleton. exists addr, false. split; [by left | done].
    + destruct (decide (i < length ls)%nat) as [Hi | Hi]; simpl.
      * specialize (IH (S i)
          (<[i := Some (MkListener "tcp4" (listen_address addr))]> ls) a).
        destruct (open_ports w addrs _ _) as [[o ls'] tr]. simpl in *.
        intros [-> | H]%elem_of_cons.
        -- exists addr, true. split; [by left | done].
        -- destruct (IH H) as (addr' & ok & Hin & ->).
           exists addr', ok. split; [by right | done].
      * intros ->%list_elem_of_singleton. exists addr, true.
        split; [by left | done].
Qed.

(** Every call of [net.Listen] in a run of [Run] is a tcp4 listen for one
    of the port specifiers: no run listens for a path. *)
Lemma Run_listens_for_ports_only (s : Starter) (e : gmap string string)
    (w : world) (ats : list attempt) (evs : list event)
    (network address : string) (ok : bool) :
  AListen network address ok ∈ run_trace (Run s e w ats evs) ->
  network = "tcp4" /\
  exists addr, addr ∈ ports s /\ address = listen_address addr.
Proof.
  assert (Hno : forall tr, Forall not_listen tr ->
                  AListen network address ok ∈ tr -> False).
  { intros tr Hf Hin. by apply (proj1 (Forall_forall _ _) Hf) in Hin. }
  assert (Hpid : Forall not_listen (open_pid_file w s).2).
  { unfold open_pid_file. case_decide; [done |].
    destruct (openfile_err w); by repeat constructor. }
  pose proof (open_ports_listens w (ports s) 0 (listeners s)
                (AListen network address ok)) as Hports.
  assert (Hyes : AListen network address ok
                   ∈ (open_ports w (ports s) 0 (listeners s)).2 ->
                 network = "tcp4" /\
                 exists addr, addr ∈ ports s /\ address = listen_address addr).
  { intros H. destruct (Hports H) as (addr & ok' & Hin & Heq).
    injection Heq as -> -> _. split; [done |]. by exists addr. }
  clear Hports. unfold Run.
  destruct (open_pid_file w s) as [[err |] tr0]; simpl in *.
  { intros [H | H]%elem_of_app; exfalso;
      (eapply Hno; [| exact H]); auto using Teardown_no_listen. }
  destruct (open_ports w (ports s) 0 (listeners s)) as [[opened ls] tr1].
  simpl in Hyes.
  destruct opened; simpl.
  - set (s2 := set_generation (set_listeners s ls) 0).
    set (e2 := setEnv w 0 _).
    pose proof (StartWorker_no_listen ats s2 e2) as Hsw.
    destruct (sw_out (StartWorker s2 e2 ats)); simpl.
    + set (l0 := MkLoop _ _ _ _ _ _).
      pose proof (run_loop_no_listen w l0 evs (sw_rest (StartWorker s2 e2 ats))).
      rewrite !elem_of_app, elem_of_cons.
      intros [[H' | [H' | [H' | H']]] | H']; try done; try (by apply Hyes); exfalso;
        (eapply Hno; [| exact H']); auto.
    + rewrite !elem_of_app, elem_of_cons.
      intros [[H' | [H' | [H' | H']]] | H']; try done; try (by apply Hyes); exfalso;
        (eapply Hno; [| exact H']); auto using Teardown_no_listen.
    + rewrite !elem_of_app, elem_of_cons.
      intros [H' | [H' | [H' | H']]]; try done; try (by apply Hyes); exfalso;
        (eapply Hno; [| exact H']); auto.
  - rewrite !elem_of_app. intros [H' | [H' | H']]; try done; try (by apply Hyes); exfalso;
      (eapply Hno; [| exact H']); auto using Teardown_no_listen.
  - rewrite !elem_of_app. intros [H' | [H' | H']]; try done; try (by apply Hyes); exfalso;
      (eapply Hno; [| exact H']); auto using Teardown_no_listen.
Qed.

(** *** With a path configured, no worker is ever started *)

Lemma inherit_from_nil_listener (a : attempt) (sp : list string)
    (ls : list (option Listener)) :
  None ∈ ls ->
  forall (i : nat) (acc : list string), inherit_from a sp ls i acc = None.
Proof.
  induction ls as [| [l |] ls IH]; intros Hin i acc; simpl.
  - by apply elem_of_nil in Hin.
  - destruct (file_err a i); [done |]. destruct (sp !! i); [| done].
    apply IH. by apply elem_of_cons in Hin as [|].
  - done.
Qed.

Lemma StartWorker_nil_listener (s : Starter) (e : gmap string string)
    (ats : list attempt) :
  None ∈ listeners s ->
  sw_trace (StartWorker s e ats) = [] /\
  (sw_out (StartWorker s e ats) = SwPanic \/
   sw_out (StartWorker s e ats) = SwRetrying).
Proof.
  intros Hin. destruct ats as [| a rest]; simpl; [by auto |].
  unfold inherit_files. rewrite inherit_from_nil_listener by done. by auto.
Qed.

(** The loop of [Run] over the ports leaves the slots past the ports as
    they were. *)
Lemma open_ports_keeps (w : world) (addrs : list string) :
  forall (i j : nat) (ls : list (option Listener)),
    (i + length addrs <= j)%nat ->
    (open_ports w addrs i ls).1.2 !! j = ls !! j.
Proof.
  induction addrs as [| addr addrs IH]; intros i j ls Hj; simpl in *; [done |].
  destruct (listen_err w "tcp4" (listen_address addr)); simpl; [done |].
  destruct (decide (i < length ls)%nat) as [Hi | Hi]; simpl; [| done].
  specialize (IH (S i) j
    (<[i := Some (MkListener "tcp4" (listen_address addr))]> ls)).
  destruct (open_ports w addrs _ _) as [[o ls'] tr]. simpl in *.
  rewrite IH by lia. apply list_lookup_insert_ne. lia.
Qed.

(** A [Starter] made by [NewStarter] from a configuration with a path
    never starts a process, whatever the system answers: [Run] ends on an
    error of the pid file or of a listen, or on the panic of its first
    [StartWorker], and never returns nil. *)
Lemma Run_with_path_never_spawns (c : Config) (s : Starter)
    (e : gmap string string) (w : world) (ats : list attempt)
    (evs : list event) :
  NewStarter (Some c) = Ok s ->
  Paths c <> [] ->
  start_gens (run_trace (Run s e w ats evs)) = [] /\
  run_out (Run s e w ats evs) <> RunReturn None.
Proof.
  intros Hnew Hpaths.
  assert (Hls : listeners s = replicate (length (ports s) + length (paths s)) None
                /\ paths s <> []).
  { unfold NewStarter in Hnew. case_decide; [done |]. by injection Hnew as <-. }
  destruct Hls as [Hls Hp]. unfold Run.
  pose proof (start_gens_open_pid_file w s) as H0.
  destruct (open_pid_file w s) as [[err |] tr0]; simpl in *.
  { by rewrite start_gens_app, H0, start_gens_Teardown. }
  pose proof (start_gens_open_ports w (ports s) 0 (listeners s)) as H1.
  pose proof (open_ports_keeps w (ports s) 0 (length (ports s)) (listeners s)
                ltac:(lia)) as Hkeep.
  destruct (open_ports w (ports s) 0 (listeners s)) as [[opened ls] tr1].
  simpl in H1, Hkeep.
  assert (Hnil : None ∈ ls).
  { apply list_elem_of_lookup. exists (length (ports s)). rewrite Hkeep, Hls.
    apply lookup_replicate. split; [done |].
    destruct (paths s); [done | simpl; lia]. }
  destruct opened; simpl.
  - set (s2 := set_generation (set_listeners s ls) 0).
    set (e2 := setEnv w 0 _).
    destruct (StartWorker_nil_listener s2 e2 ats Hnil) as [Htr [Hout | Hout]];
      rewrite Hout; simpl; rewrite ?start_gens_app, H0, H1, Htr; simpl;
      by rewrite ?start_gens_Teardown.
  - by rewrite !start_gens_app, H0, H1, start_gens_Teardown.
  - by rewrite !start_gens_app, H0, H1, start_gens_Teardown.
Qed.

(** * Further properties *)

(** ** The signal names, both ways *)

(** What the loop of [init] stores under a name is a signal of that
    name. *)
Lemma invert_names_sound (names : gmap Z string) :
  forall name sig,
    invert_names names !! name = Some sig -> names !! sig = Some name.
Proof.
  unfold invert_names.
  apply (map_fold_weak_ind
    (fun (r : gmap string Z) (m : gmap Z string) =>
       forall name sig, r !! name = Some sig -> m !! sig = Some name)).
  - intros name sig H. by rewrite lookup_empty in H.
  - intros i x m r Hi IH name sig H.
    destruct (decide (x = name)) as [-> | Hne].
    + rewrite lookup_insert_eq in H. injection H as <-.
      by rewrite lookup_insert_eq.
    + rewrite lookup_insert_ne in H by done. pose proof (IH _ _ H) as Hm.
      rewrite lookup_insert_ne; [done |]. intros ->. congruence.
Qed.

(** Every name of the table gets an entry. *)
Lemma invert_names_total (names : gmap Z string) :
  forall name sig,
    names !! sig = Some name -> is_Some (invert_names names !! name).
Proof.
  unfold invert_names.
  apply (map_fold_weak_ind
    (fun (r : gmap string Z) (m : gmap Z string) =>
       forall name sig, m !! sig = Some name -> is_Some (r !! name))).
  - intros name sig H. by rewrite lookup_empty in H.
  - intros i x m r Hi IH name sig H.
    destruct (decide (x = name)) as [-> | Hne].
    + rewrite lookup_insert_eq. by eexists.
    + rewrite lookup_insert_ne by done.
      destruct (decide (i = sig)) as [-> | Hsig].
      * rewrite lookup_insert_eq in H. congruence.
      * rewrite lookup_insert_ne in H by done. by eapply IH.
Qed.

(** A table whose names are pairwise distinct, as a list without
    duplicates. *)
Lemma distinct_names (names : gmap Z string) :
  NoDup (map_to_list names).*2 ->
  forall s1 s2 name,
    names !! s1 = Some name -> names !! s2 = Some name -> s1 = s2.
Proof.
  intros Hnd s1 s2 name H1 H2.
  apply elem_of_map_to_list in H1, H2.
  apply list_elem_of_lookup in H1 as [i1 Hi1], H2 as [i2 Hi2].
  assert (i1 = i2) as ->.
  { eapply (NoDup_lookup _ i1 i2 name Hnd);
      rewrite list_lookup_fmap; [by rewrite Hi1 | by rewrite Hi2]. }
  congruence.
Qed.

(** X1: the loop of [init] inverts a table of signal names whenever no
    two signals share a name: the map it fills sends a name to a signal
    exactly when the table sends that signal to that name. *)
Theorem invert_names_inverse (names : gmap Z string) :
  (forall s1 s2 name,
      names !! s1 = Some name -> names !! s2 = Some name -> s1 = s2) ->
  forall sig name,
    invert_names names !! name = Some sig <-> names !! sig = Some name.
Proof.
  intros Hinj sig name. split; [apply invert_names_sound |].
  intros H. destruct (invert_names_total names name sig H) as [sig' Hsig'].
  rewrite Hsig'. f_equal.
  apply (Hinj sig' sig name); [by apply invert_names_sound | done].
Qed.

Lemma table_names_distinct : NoDup (map_to_list (niceSigNames pkg)).*2.
Proof.
  apply (bool_decide_unpack (NoDup (map_to_list (niceSigNames pkg)).*2)).
  vm_compute. exact I.
Qed.

(** The table of [init] itself has distinct names; so USR2, for one, is
    sent back to its signal. *)
Lemma invert_names_inverse_witness :
  invert_names (niceSigNames pkg) !! "USR2" = Some syscall.SIGUSR2 <->
  niceSigNames pkg !! syscall.SIGUSR2 = Some "USR2".
Proof.
  exact (invert_names_inverse (niceSigNames pkg)
           (distinct_names (niceSigNames pkg) table_names_distinct)
           syscall.SIGUSR2 "USR2").
Defined.

Lemma table_names_proper :
  map_Forall (fun (_ : Z) (name : string) => name <> "" /\ name <> "UNKNOWN")
    (niceSigNames pkg).
Proof.
  apply (bool_decide_unpack
    (map_Forall (fun (_ : Z) (name : string) => name <> "" /\ name <> "UNKNOWN")
       (niceSigNames pkg))).
  vm_compute. exact I.
Qed.

(** X2: [signame] answers UNKNOWN for nil and for a signal that is no
    [syscall.Signal], and for nothing else; for a [syscall.Signal] it
    answers the empty string exactly when the signal is not in the table
    of [init]; and two signals get the same name only if they are the
    same signal or both missing from the table. *)
Theorem signame_cases :
  signame pkg None = "UNKNOWN" /\
  (forall name, signame pkg (Some (ForeignSignal name)) = "UNKNOWN") /\
  (forall n, signame pkg (Some (SyscallSignal n)) <> "UNKNOWN") /\
  (forall n,
      signame pkg (Some (SyscallSignal n)) = "" <->
      niceSigNames pkg !! n = None) /\
  (forall n m,
      niceSigNames pkg !! n <> None ->
      signame pkg (Some (SyscallSignal n)) = signame pkg (Some (SyscallSignal m)) ->
      n = m).
Proof.
  assert (Hname : forall n name, niceSigNames pkg !! n = Some name ->
                    name <> "" /\ name <> "UNKNOWN").
  { intros n name H. exact (table_names_proper n name H). }
  assert (Hempty : forall n,
    signame pkg (Some (SyscallSignal n)) = "" <-> niceSigNames pkg !! n = None).
  { intros n. unfold signame.
    destruct (niceSigNames pkg !! n) as [name |] eqn:Hn; simpl; [| done].
    destruct (Hname n name Hn) as [Hne _]. split; [done | discriminate]. }
  repeat split.
  - intros n. unfold signame.
    destruct (niceSigNames pkg !! n) as [name |] eqn:Hn; simpl; [| done].
    by destruct (Hname n name Hn).
  - apply Hempty.
  - apply Hempty.
  - intros n m Hn Heq. unfold signame in Heq.
    destruct (niceSigNames pkg !! n) as [x |] eqn:Hx; [| done].
    destruct (niceSigNames pkg !! m) as [y |] eqn:Hy; simpl in Heq.
    + subst y.
      exact (distinct_names (niceSigNames pkg) table_names_distinct n m x Hx Hy).
    + by destruct (Hname n x Hx).
Qed.

(** ** [Close] *)

(** X3: [Close] removes the status file and then the pid file, each
    only when it is configured, and does nothing else: it closes no
    listener, so that the listeners are released by [Teardown] alone and
    the status file by [Close] alone. *)
Theorem Close_spec (s : Starter) :
  (forall a, a ∈ Close s <->
     (statusFile s <> "" /\ a = ARemove (statusFile s)) \/
     (pidFile s <> "" /\ a = ARemove (pidFile s))) /\
  (statusFile s <> "" -> pidFile s <> "" ->
   Close s = [ARemove (statusFile s); ARemove (pidFile s)]) /\
  (forall l, Some l ∈ listeners s ->
     (AClose l ∉ Close s) /\ (AClose l ∈ Teardown s)) /\
  (statusFile s <> "" -> statusFile s <> pidFile s ->
   (ARemove (statusFile s) ∈ Close s) /\
   (ARemove (statusFile s) ∉ Teardown s)).
Proof.
  assert (Hin : forall a, a ∈ Close s <->
     (statusFile s <> "" /\ a = ARemove (statusFile s)) \/
     (pidFile s <> "" /\ a = ARemove (pidFile s))).
  { intros a. unfold Close. rewrite elem_of_app.
    destruct (decide (statusFile s = "")) as [Hs | Hs],
             (decide (pidFile s = "")) as [Hp | Hp];
      rewrite ?list_elem_of_singleton, ?elem_of_nil; naive_solver. }
  split; [exact Hin |]. split; [| split].
  - intros Hs Hp. unfold Close. by rewrite !decide_False by done.
  - intros l Hl. split.
    + intros [[_ H] | [_ H]]%Hin; discriminate.
    + apply elem_of_Teardown. right. by exists l.
  - intros Hs Hne. split.
    + apply Hin. by left.
    + intros [[_ H] | (l & _ & H)]%elem_of_Teardown; congruence.
Qed.

(** ** The passes of [StartWorker] *)

Lemma StartWorker_launcher_actions (ats : list attempt) :
  forall (s : Starter) (e : gmap string string),
    Forall launcher_action (sw_trace (StartWorker s e ats)).
Proof.
  induction ats as [| a rest IH]; intros s e; simpl; [done |].
  destruct (inherit_files a s); simpl; [| done].
  assert (Hre : Forall launcher_action (AResend <$> sigs a)).
  { apply Forall_fmap, Forall_true. by intros sig. }
  destruct (start a) as [pid |]; simpl.
  - destruct (existsb interrupts (sigs a) || negb (find_err a)); simpl.
    + apply Forall_cons. split; [done |]. apply Forall_app. split; [done |].
      by repeat constructor.
    + apply Forall_cons. split; [done |]. apply Forall_app. split.
      * apply Forall_app. split; [done | by repeat constructor].
      * apply IH.
  - repeat (apply Forall_cons; split; [done |]). apply IH.
Qed.

Lemma omap_resend (sigs : list os_Signal) :
  omap resent_sig (AResend <$> sigs) = sigs /\
  omap start_env (AResend <$> sigs) = [] /\
  omap started_pid (AResend <$> sigs) = [] /\
  omap reaped_pid (AResend <$> sigs) = [] /\
  omap given_up_wait (AResend <$> sigs) = [] /\
  omap given_up_close (AResend <$> sigs) = [].
Proof.
  repeat split; induction sigs as [| sig sigs IH]; try done.
  rewrite fmap_cons. simpl. f_equal. exact IH.
Qed.

(** X4: in any call of [StartWorker], every [cmd.Start()] is either
    given up, and then followed by one [cmd.Wait()] and one release of
    its extra files, or it is the last one, whose process gets the one
    reaper of the call and is the process returned; a call that panics or
    is still retrying has started no reaper. *)
Theorem StartWorker_accounts (ats : list attempt) (s : Starter)
    (e : gmap string string) :
  let r := StartWorker s e ats in
  let tr := sw_trace r in
  length (omap start_env tr) =
    (length (omap given_up_wait tr) + length (omap reaped_pid tr))%nat /\
  length (omap given_up_close tr) = length (omap given_up_wait tr) /\
  (forall p, sw_out r = SwReturn p ->
     exists pid,
       omap reaped_pid tr = [pid] /\
       last (omap started_pid tr) = Some pid /\
       (p = Some pid \/ p = None)) /\
  ((forall p, sw_out r <> SwReturn p) -> omap reaped_pid tr = []).
Proof.
  revert s e. induction ats as [| a rest IH]; intros s e; simpl.
  - split; [done |]. split; [done |]. split; [| done]. intros p H. discriminate.
  - destruct (inherit_files a s) as [ports_ |]; simpl.
    2: { split; [done |]. split; [done |]. split; [| done].
         intros p H. discriminate. }
    set (s1 := set_generation s (generation s + 1)).
    set (e2 := Setenv "SERVER_STARTER_GENERATION" _ _).
    destruct (IH s1 e2) as (IH1 & IH2 & IH3 & IH4). clear IH.
    cbv zeta in IH1, IH2, IH3, IH4.
    destruct (omap_resend (sigs a)) as (R1 & R2 & R3 & R4 & R5 & R6).
    destruct (start a) as [pid |]; simpl.
    + destruct (existsb interrupts (sigs a) || negb (find_err a)); simpl.
      * rewrite !omap_app, R2, R3, R4, R5, R6. simpl.
        split; [done |]. split; [done |]. split.
        -- intros p [= <-]. exists pid. split; [done |]. split; [done |].
           destruct (find_err a); [by right | by left].
        -- intros H. by destruct (H _ eq_refl).
      * rewrite !omap_app, R2, R3, R4, R5, R6. simpl.
        split; [f_equal; exact IH1 |]. split; [f_equal; exact IH2 |].
        split; [| exact IH4].
        intros p Hp. destruct (IH3 p Hp) as (pid' & H1 & H2 & H3).
        exists pid'. split; [exact H1 |]. split; [| exact H3].
        destruct (omap started_pid
                    (sw_trace (StartWorker s1 e2 rest))) eqn:Hst; [done |].
        by rewrite last_cons, H2.
    + split; [f_equal; exact IH1 |]. split; [f_equal; exact IH2 |].
        split; [| exact IH4].
      intros p Hp. destruct (IH3 p Hp) as (pid' & H1 & H2 & H3).
      exists pid'. split; [exact H1 |]. split; [exact H2 | exact H3].
Qed.

Lemma heard_app (ats1 ats2 : list attempt) :
  heard (ats1 ++ ats2) = heard ats1 ++ heard ats2.
Proof. unfold heard. apply flat_map_app. Qed.


Lemma inherit_files_generation (a : attempt) (s : Starter) (g : Z) :
  inherit_files a (set_generation s g) = inherit_files a s.
Proof. done. Qed.

(** X6: the retry loop of [StartWorker] has no ceiling: as long as every
    attempt is given up (the start fails, or the process is not found and
    no signal other than HUP came), the call has not returned after any
    number of attempts; it has used up every answer, advanced the
    generation counter once per attempt, made one [cmd.Start()] per
    attempt, and started no reaper. *)
Theorem StartWorker_never_gives_up (ats : list attempt) (s : Starter)
    (e : gmap string string) :
  Forall (fun a => given_up a /\ is_Some (inherit_files a s)) ats ->
  sw_out (StartWorker s e ats) = SwRetrying /\
  sw_rest (StartWorker s e ats) = [] /\
  generation (sw_starter (StartWorker s e ats)) =
    generation s + Z.of_nat (length ats) /\
  length (omap start_env (sw_trace (StartWorker s e ats))) = length ats /\
  omap reaped_pid (sw_trace (StartWorker s e ats)) = [].
Proof.
  revert s e. induction ats as [| a rest IH]; intros s e Hall.
  - simpl. repeat split. lia.
  - apply Forall_cons in Hall as [[Hg [ports_ Hf]] Hall].
    cbn [StartWorker]. rewrite Hf. cbv zeta.
    set (s1 := set_generation s (generation s + 1)).
    set (e2 := Setenv "SERVER_STARTER_GENERATION" _ _).
    assert (Hall' : Forall (fun a => given_up a /\ is_Some (inherit_files a s1)) rest).
    { eapply Forall_impl; [exact Hall |]. intros a' [H1 H2]. split; [done |].
      unfold s1. by rewrite inherit_files_generation. }
    destruct (IH s1 e2 Hall') as (IH1 & IH2 & IH3 & IH4 & IH5). clear IH.
    destruct (omap_resend (sigs a)) as (R1 & R2 & R3 & R4 & R5 & R6).
    destruct Hg as [Hst | [Hfind Hsig]].
    + rewrite Hst. simpl. split; [done |]. split; [done |].
      split; [rewrite IH3; simpl; lia |]. split; [f_equal; exact IH4 | exact IH5].
    + destruct (start a) as [pid |]; simpl.
      * rewrite Hsig, Hfind. simpl. split; [done |]. split; [done |].
        split; [rewrite IH3; simpl; lia |].
        rewrite !omap_app, R2, R4. simpl.
        split; [f_equal; exact IH4 | exact IH5].
      * split; [done |]. split; [done |].
        split; [rewrite IH3; simpl; lia |]. split; [f_equal; exact IH4 | exact IH5].
Qed.

Lemma StartWorker_never_gives_up_witness :
  sw_out (StartWorker starter_bound ∅ [attempt_noexec; attempt_lost 5 [HUP]]) =
    SwRetrying /\
  generation (sw_starter
    (StartWorker starter_bound ∅ [attempt_noexec; attempt_lost 5 [HUP]])) = 2.
Proof.
  assert (H : Forall (fun a => given_up a /\ is_Some (inherit_files a starter_bound))
            [attempt_noexec; attempt_lost 5 [HUP]]).
  { apply Forall_cons. split.
    - split; [by left | vm_compute; by eexists].
    - apply Forall_cons. split; [| done].
      split; [right; by split | vm_compute; by eexists]. }
  destruct (StartWorker_never_gives_up _ starter_bound ∅ H) as (H1 & _ & H3 & _).
  split; [exact H1 | exact H3].
Defined.

(** ** Worker exits *)

Lemma with_oldWorkers_same (l : loop_state) :
  with_oldWorkers l (ls_oldWorkers l) = l.
Proof. by destruct l. Qed.

(** X7: what the loop of [Run] does on an exit event depends on the pid
    of the state alone, never on the exit status.  The exit of a process
    that is not tracked changes nothing; the exit of an old worker removes
    it from the tracked set and does nothing else; the exit of the current
    worker calls [StartWorker] and does nothing else: the old-worker map
    is untouched, no signal is sent, and the process returned becomes the
    current worker. *)
Theorem worker_exit_step (w : world) (l : loop_state) (st : processState)
    (ats : list attempt) (pid : Z) :
  ls_p l = Some pid ->
  let step := loop_step w l (WorkerExit st) ats in
  (forall sys,
     loop_step w l (WorkerExit (MkProcessState (ps_Pid st) sys)) ats = step) /\
  (ps_Pid st ∉ tracked l -> step = (Continue, l, ats, [])) /\
  (ps_Pid st <> pid ->
   step.1.1.1 = Continue /\ step.2 = [] /\ step.1.2 = ats /\
   ls_p step.1.1.2 = Some pid /\
   ls_starter step.1.1.2 = ls_starter l /\
   tracked step.1.1.2 = tracked l ∖ {[ ps_Pid st ]}) /\
  (ps_Pid st = pid ->
   let r := StartWorker (ls_starter l) (ls_env l) ats in
   step.2 = sw_trace r /\ step.1.2 = sw_rest r /\
   ls_oldWorkers step.1.1.2 = ls_oldWorkers l /\
   Forall launcher_action step.2 /\
   (forall p', sw_out r = SwReturn p' ->
      step.1.1.1 = Continue /\ ls_p step.1.1.2 = p')).
Proof.
  intros Hp step. subst step. unfold loop_step. rewrite Hp.
  split; [done |]. split; [| split].
  - intros Hnot. unfold tracked in Hnot. rewrite Hp in Hnot.
    apply not_elem_of_union in Hnot as [Hold Hcur].
    rewrite decide_False by set_solver.
    rewrite delete_id by (by apply not_elem_of_dom).
    by rewrite with_oldWorkers_same.
  - intros Hne. rewrite decide_False by done. simpl.
    repeat split; try done.
    unfold tracked. simpl. rewrite Hp, dom_delete_L. set_solver.
  - intros Heq. rewrite decide_True by done. cbv zeta.
    unfold assign_worker.
    pose proof (StartWorker_launcher_actions ats (ls_starter l) (ls_env l)) as Hl.
    destruct (sw_out (StartWorker (ls_starter l) (ls_env l) ats)) eqn:Hout;
      simpl; (split; [done |]); (split; [done |]); (split; [done |]);
      (split; [exact Hl |]); intros p' Hp'; [| done | done].
    by injection Hp' as <-.
Qed.

Lemma worker_exit_step_witness :
  (loop_step quiet_world loop_draining (exit_of 11) []).2 = [] /\
  tracked (loop_step quiet_world loop_draining (exit_of 11) []).1.1.2 =
    tracked loop_draining ∖ {[ 11 ]}.
Proof.
  destruct (worker_exit_step quiet_world loop_draining
              (MkProcessState 11 (Some 0)) [] 12 eq_refl) as (_ & _ & H & _).
  assert (Hne : ps_Pid (MkProcessState 11 (Some 0)) <> 12) by (simpl; lia).
  destruct (H Hne) as (_ & H2 & _ & _ & _ & H6).
  exact (conj H2 H6).
Defined.

(** ** The environment across [StartWorker] *)

Lemma Setenv_handoff (k v : string) (e : gmap string string) (k' : string) :
  handoff_key k -> ~ handoff_key k' -> Setenv k v e !! k' = e !! k'.
Proof.
  intros Hk Hk'. unfold Setenv. apply lookup_insert_ne. by intros ->.
Qed.

(** [StartWorker] writes two variables only: any other variable has, in
    the environment of every [cmd.Start()] and in the one left at the end,
    the value it had at the call. *)
Lemma StartWorker_env_keeps (ats : list attempt) :
  forall (s : Starter) (e : gmap string string) (k : string),
    ~ handoff_key k ->
    sw_env (StartWorker s e ats) !! k = e !! k /\
    Forall (fun a => forall environ, start_env a = Some environ ->
                       environ !! k = e !! k)
      (sw_trace (StartWorker s e ats)).
Proof.
  induction ats as [| a rest IH]; intros s e k Hk; simpl; [done |].
  destruct (inherit_files a s) as [ports_ |]; simpl; [| done].
  set (s1 := set_generation s (generation s + 1)).
  set (e2 := Setenv "SERVER_STARTER_GENERATION" _ _).
  assert (He2 : e2 !! k = e !! k).
  { unfold e2. rewrite !Setenv_handoff; try done; [by left | by right]. }
  destruct (IH s1 e2 k Hk) as [IH1 IH2]. clear IH.
  assert (IH2' : Forall (fun a => forall environ, start_env a = Some environ ->
                       environ !! k = e !! k) (sw_trace (StartWorker s1 e2 rest))).
  { eapply Forall_impl; [exact IH2 |]. intros x Hx environ Henv.
    rewrite <- He2. by apply Hx. }
  assert (Hre : Forall (fun a => forall environ, start_env a = Some environ ->
                       environ !! k = e !! k) (AResend <$> sigs a)).
  { apply Forall_fmap, Forall_true. by intros sig environ. }
  destruct (start a) as [pid |]; simpl.
  - destruct (existsb interrupts (sigs a) || negb (find_err a)); simpl.
    + split; [done |]. apply Forall_cons. split; [by intros environ [= <-] |].
      apply Forall_app. split; [done |]. by repeat constructor.
    + split; [by rewrite IH1 |].
      apply Forall_cons. split; [by intros environ [= <-] |].
      apply Forall_app. split; [| done].
      apply Forall_app. split; [done | by repeat constructor].
  - split; [by rewrite IH1 |].
    apply Forall_cons. split; [by intros environ [= <-] |].
    by repeat (apply Forall_cons; split; [done |]).
Qed.

Lemma getKillOldDelay_handoff (e e' : gmap string string) :
  (forall k, ~ handoff_key k -> e' !! k = e !! k) ->
  getKillOldDelay e' = getKillOldDelay e.
Proof.
  intros H. unfold getKillOldDelay, Getenv.
  rewrite !H; [done | |]; intros [Hk | Hk]; discriminate.
Qed.

Lemma insert_size_pos (m : gmap Z Z) (pid g : Z) : size (<[pid := g]> m) <> 0%nat.
Proof.
  intros H. apply map_size_empty_iff in H. by apply insert_non_empty in H.
Qed.

(** X8: a HUP read with no old worker tracked.  Once [StartWorker] has
    returned, the loop sleeps for the delay of [getKillOldDelay] when it
    is positive (the delay is that of the environment before the call,
    [StartWorker] writing two other variables only), and then sends the
    signal configured for HUP to the worker it has replaced, if
    [os.FindProcess] finds it: the branch for an empty map is never
    taken, the replaced worker having just been entered.  When
    [StartWorker] does not return, nothing is sent, and the worker stays
    current and entered in the map. *)
Theorem HUP_signals_old_worker (w : world) (l : loop_state)
    (ats : list attempt) (pid : Z) :
  ls_p l = Some pid ->
  ls_oldWorkers l = ∅ ->
  let r := StartWorker (ls_starter l) (ls_env l) ats in
  let step := loop_step w l (SignalEvent HUP) ats in
  let d := getKillOldDelay (ls_env l) in
  ((exists p', sw_out r = SwReturn p') ->
   step.2 =
   sw_trace r ++
   (if 0 <? d then [ASleep d] else []) ++
   (if findprocess_err w pid then []
    else [ASignal pid (signalOnHUP (ls_starter l))])) /\
  ((forall p', sw_out r <> SwReturn p') ->
   step.2 = sw_trace r /\ step.1.1.1 <> Continue /\
   ls_p step.1.1.2 = Some pid /\
   ls_oldWorkers step.1.1.2 = {[ pid := generation (ls_starter l) ]}).
Proof.
  intros Hp Hold r step d.
  assert (Hstep : step =
    spawn_and_kill w (with_signals l (Some HUP) (signalOnHUP (ls_starter l))) ats).
  { subst step. unfold loop_step, HUP. rewrite decide_True by done.
    simpl. by rewrite Hold, map_size_empty. }
  rewrite Hstep. unfold spawn_and_kill. simpl. rewrite Hp, Hold. fold r.
  rewrite insert_empty. unfold assign_worker. split.
  - intros [p' Hout]. rewrite Hout. simpl.
    rewrite decide_False by (rewrite map_size_singleton; lia). simpl.
    f_equal. f_equal.
    + rewrite (getKillOldDelay_handoff (ls_env l) (sw_env r)); [done |].
      intros k Hk. by apply StartWorker_env_keeps.
    + unfold signal_workers. rewrite map_to_list_singleton. simpl.
      rewrite app_nil_r. unfold r. rewrite StartWorker_frame. done.
  - intros Hno. destruct (sw_out r) as [p' | |] eqn:Hout; simpl.
    + by destruct (Hno p').
    + done.
    + done.
Qed.

Lemma HUP_signals_old_worker_witness :
  (loop_step quiet_world loop_fresh (SignalEvent HUP) [attempt_alive 12]).2 =
  sw_trace (StartWorker (ls_starter loop_fresh) ∅ [attempt_alive 12]) ++
  [ASignal 11 (Some TERM)].
Proof.
  destruct (HUP_signals_old_worker quiet_world loop_fresh [attempt_alive 12] 11
              eq_refl eq_refl) as [H _].
  apply H. by exists (Some 12).
Defined.

(** ** Invariants of a run

    A property of the [Starter] and of the environment that every call
    of [StartWorker] keeps, and a property of actions that holds of what
    [StartWorker] does under it, hold all along the loop of [Run]. *)

Lemma signal_workers_loop (w : world) (m : gmap Z Z) (sig : option os_Signal)
    (P : action -> Prop) :
  (forall pid, P (ASignal pid sig)) -> Forall P (signal_workers w m sig).
Proof.
  intros H. apply Forall_forall.
  intros a (pid & _ & _ & ->)%signal_workers_elem. apply H.
Qed.

Section Invariant.
Variable w : world.
Variable Inv : Starter -> gmap string string -> Prop.
Variable P : action -> Prop.
Hypothesis Inv_StartWorker :
  forall s e ats,
    Inv s e ->
    Inv (sw_starter (StartWorker s e ats)) (sw_env (StartWorker s e ats)) /\
    Forall P (sw_trace (StartWorker s e ats)).
Hypothesis P_other : forall a, ~ launcher_action a -> ~ releases a -> P a.

Lemma assign_worker_inv (l : loop_state) (old : gmap Z Z) (r : sw_result) :
  ls_starter (assign_worker l old r).2 = sw_starter r /\
  ls_env (assign_worker l old r).2 = sw_env r.
Proof. unfold assign_worker. by destruct (sw_out r). Qed.

Lemma loop_step_inv (l : loop_state) (ev : event) (ats : list attempt) :
  Inv (ls_starter l) (ls_env l) ->
  Inv (ls_starter (loop_step w l ev ats).1.1.2)
      (ls_env (loop_step w l ev ats).1.1.2) /\
  Forall P (loop_step w l ev ats).2.
Proof.
  intros HI.
  destruct (Inv_StartWorker (ls_starter l) (ls_env l) ats HI) as [HI' HP].
  destruct ev as [st | sig]; simpl.
  - destruct (ls_p l) as [pid |]; simpl; [| done].
    case_decide; simpl; [| done].
    destruct (assign_worker_inv l (ls_oldWorkers l)
                (StartWorker (ls_starter l) (ls_env l) ats)) as [H1 H2].
    destruct (assign_worker _ _ _) as [o l']. simpl in *.
    by rewrite H1, H2.
  - repeat case_decide; simpl; try done.
    unfold spawn_and_kill. simpl. destruct (ls_p l) as [pid |]; simpl; [| done].
    set (l1 := with_signals l _ _).
    set (old := <[pid := _]> _).
    destruct (assign_worker_inv l1 old
                (StartWorker (ls_starter l) (ls_env l) ats)) as [H1 H2].
    destruct (assign_worker _ _ _) as [o l']. simpl in *.
    rewrite <- H1, <- H2 in HI'.
    destruct o; simpl; try done. case_decide; simpl; [done |].
    split; [done |].
    apply Forall_app. split; [done |]. apply Forall_app. split.
    + case_match; [| done]. apply Forall_cons. split; [| done].
      apply P_other; simpl; tauto.
    + apply signal_workers_loop. intros pid'. apply P_other; simpl; tauto.
Qed.

Lemma supervise_inv (evs : list event) :
  forall (l : loop_state) (ats : list attempt),
    Inv (ls_starter l) (ls_env l) ->
    Inv (ls_starter (supervise w l evs ats).1.1.2)
        (ls_env (supervise w l evs ats).1.1.2) /\
    Forall P (supervise w l evs ats).2.
Proof.
  induction evs as [| ev evs IH]; intros l ats HI; simpl; [done |].
  pose proof (loop_step_inv l ev ats HI) as H.
  destruct (loop_step w l ev ats) as [[[o l'] ats'] tr]. simpl in H.
  destruct H as [HI' HP].
  destruct o; simpl; try done.
  specialize (IH l' ats' HI').
  destruct (supervise w l' evs ats') as [[[o' l''] rest] tr']. simpl in *.
  destruct IH as [IH1 IH2]. split; [done |]. apply Forall_app. by split.
Qed.

(** The trace of [run_loop] is what the loop and the deferred function
    do, all of it under the invariant, followed by [Teardown] unless the
    run is blocked. *)
Lemma run_loop_inv (l : loop_state) (evs : list event) (ats : list attempt) :
  Inv (ls_starter l) (ls_env l) ->
  exists pre,
    run_trace (run_loop w l evs ats) =
      pre ++ run_end (run_loop w l evs ats) /\
    Forall P pre /\
    Inv (run_starter (run_loop w l evs ats)) (run_env (run_loop w l evs ats)).
Proof.
  intros HI. unfold run_loop.
  pose proof (supervise_inv evs l ats HI) as H.
  destruct (supervise w l evs ats) as [[[o l1] rest] tr]. simpl in H.
  destruct H as [HI1 HP].
  assert (Hsig : Forall P (signal_workers w
            match ls_p l1 with
            | Some pid => <[pid := generation (ls_starter l1)]> (ls_oldWorkers l1)
            | None => ls_oldWorkers l1
            end (ls_sigToSend l1))).
  { apply signal_workers_loop. intros pid'. apply P_other; simpl; tauto. }
  unfold run_end.
  destruct o; cbn -[Teardown].
  - exists tr. by rewrite app_nil_r.
  - case_decide; cbn -[Teardown].
    + eexists. rewrite app_assoc. split; [reflexivity |].
      split; [| done]. apply Forall_app. by split.
    + eexists. rewrite app_nil_r. split; [reflexivity |].
      split; [| done]. apply Forall_app. by split.
  - case_decide; cbn -[Teardown].
    + eexists. rewrite app_assoc. split; [reflexivity |].
      split; [| done]. apply Forall_app. by split.
    + eexists. rewrite app_nil_r. split; [reflexivity |].
      split; [| done]. apply Forall_app. by split.
  - exists tr. by rewrite app_nil_r.
Qed.

Lemma open_pid_file_other (s : Starter) : Forall P (open_pid_file w s).2.
Proof.
  unfold open_pid_file. case_decide; [done |].
  destruct (openfile_err w); simpl;
    repeat (apply Forall_cons; split; [apply P_other; simpl; tauto |]); done.
Qed.

Lemma open_ports_other (addrs : list string) (i : nat)
    (ls : list (option Listener)) :
  Forall P (open_ports w addrs i ls).2.
Proof.
  apply Forall_forall. intros a (addr & ok & _ & ->)%open_ports_listens.
  apply P_other; simpl; tauto.
Qed.

(** The same for [Run], from the [Starter] and the environment with
    which the first worker is launched. *)
Lemma Run_inv (s : Starter) (e : gmap string string) (ats : list attempt)
    (evs : list event) :
  (forall ls tr1,
     open_ports w (ports s) 0 (listeners s) = (Opened, ls, tr1) ->
     Inv (set_generation (set_listeners s ls) 0)
         (setEnv w 0 (Setenv "SERVER_STARTER_GENERATION" "0" e))) ->
  (forall s' e', Inv s' e' -> Inv s' (setEnv w 1 e')) ->
  exists pre,
    run_trace (Run s e w ats evs) = pre ++ run_end (Run s e w ats evs) /\
    Forall P pre.
Proof.
  intros Hstart Hreload. unfold Run.
  pose proof (open_pid_file_other s) as H0.
  destruct (open_pid_file w s) as [[err |] tr0]; simpl in H0.
  { by exists tr0. }
  pose proof (open_ports_other (ports s) 0 (listeners s)) as H1.
  specialize (Hstart (open_ports w (ports s) 0 (listeners s)).1.2
                     (open_ports w (ports s) 0 (listeners s)).2).
  destruct (open_ports w (ports s) 0 (listeners s)) as [[opened ls] tr1].
  simpl in H1, Hstart.
  destruct opened; cbn -[Teardown].
  - specialize (Hstart eq_refl).
    set (s2 := set_generation (set_listeners s ls) 0) in *.
    set (e2 := setEnv w 0 _) in *.
    destruct (Inv_StartWorker s2 e2 ats Hstart) as [HI HP].
    assert (Hpre : Forall P (tr0 ++ tr1 ++
      ANotify [syscall.SIGHUP; syscall.SIGINT; syscall.SIGTERM; syscall.SIGQUIT]
        :: sw_trace (StartWorker s2 e2 ats))).
    { apply Forall_app. split; [done |]. apply Forall_app. split; [done |].
      apply Forall_cons. split; [apply P_other; simpl; tauto | done]. }
    destruct (sw_out (StartWorker s2 e2 ats)) eqn:Hout; cbn -[Teardown].
    + set (l0 := MkLoop _ _ _ _ _ _).
      destruct (run_loop_inv l0 evs (sw_rest (StartWorker s2 e2 ats)))
        as (pre & Heq & Hpre' & _).
      { simpl. by apply Hreload. }
      eexists. split.
      * rewrite Heq. unfold run_end. simpl. rewrite app_assoc. reflexivity.
      * apply Forall_app. by split.
    + eexists. split; [reflexivity | done].
    + eexists. rewrite app_nil_r. split; [reflexivity | done].
  - exists (tr0 ++ tr1). rewrite <- app_assoc. split; [done |].
    apply Forall_app. by split.
  - exists (tr0 ++ tr1). rewrite <- app_assoc. split; [done |].
    apply Forall_app. by split.
Qed.

End Invariant.

(** ** Resources are held until the end *)

Lemma launcher_keeps (a : action) : launcher_action a -> ~ releases a.
Proof. destruct a; simpl; tauto. Qed.

(** X9: [Run] gives nothing up before its end: every trace of [Run] is
    a part without any removal of a file or close of a listener, followed
    by [Teardown] on the paths that return or panic and by nothing while
    the run is blocked; so a listener of the final [Starter] is closed
    exactly when the run is not blocked. *)
Theorem Run_holds_resources (s : Starter) (e : gmap string string)
    (w : world) (ats : list attempt) (evs : list event) :
  exists pre,
    run_trace (Run s e w ats evs) = pre ++ run_end (Run s e w ats evs) /\
    Forall (fun a => ~ releases a) pre /\
    (forall l, Some l ∈ listeners (run_starter (Run s e w ats evs)) ->
       (AClose l ∈ run_trace (Run s e w ats evs)) <->
       run_out (Run s e w ats evs) <> RunBlocked).
Proof.
  destruct (Run_inv w (fun _ _ => True) (fun a => ~ releases a)) with
    (s := s) (e := e) (ats := ats) (evs := evs) as (pre & Heq & Hpre); try done.
  - intros s' e' ats' _. split; [done |].
    eapply Forall_impl; [apply StartWorker_launcher_actions |].
    apply launcher_keeps.
  - exists pre. split; [exact Heq |]. split; [exact Hpre |].
    intros l Hl. rewrite Heq, elem_of_app. unfold run_end. split.
    + intros [H | H].
      * by apply (proj1 (Forall_forall _ _) Hpre) in H.
      * intros Hb. rewrite Hb in H. by apply elem_of_nil in H.
    + intros Hb. right.
      assert (Hin : AClose l ∈ Teardown (run_starter (Run s e w ats evs))).
      { apply elem_of_Teardown. right. by exists l. }
      by destruct (run_out (Run s e w ats evs)).
Qed.

(** ** What every worker inherits *)

Lemma StartWorker_hands_down (ats : list attempt) :
  forall (s : Starter) (e : gmap string string),
    length (listeners s) = length (ports s) ->
    Forall (hands_down s) (sw_trace (StartWorker s e ats)).
Proof.
  intros s e Hlen. apply Forall_forall. intros a Ha.
  destruct a; try done. simpl.
  pose proof (StartWorker_exports_ports ats s e Hlen _ _ _ _ _ _ Ha) as Hport.
  revert s e Hlen Ha Hport.
  induction ats as [| a rest IH]; intros s e Hlen; simpl.
  - intros H. by apply elem_of_nil in H.
  - destruct (inherit_files a s) as [ports_ |]; simpl;
      [| intros H; by apply elem_of_nil in H].
    set (s1 := set_generation s (generation s + 1)).
    set (e2 := Setenv "SERVER_STARTER_GENERATION" _ _).
    specialize (IH s1 e2 Hlen).
    assert (Hre : forall x, x ∈ AResend <$> sigs a ->
              x <> AStart cmd cmd_args cmd_dir extra_files environ pid).
    { intros x (sig & -> & _)%list_elem_of_fmap. done. }
    destruct (start a) as [pid' |]; simpl.
    + destruct (existsb interrupts (sigs a) || negb (find_err a)); simpl.
      * rewrite elem_of_cons, elem_of_app, list_elem_of_singleton.
        intros [[= -> -> -> -> -> ->] | [H | H]] Hport; [done | | done].
        by destruct (Hre _ H).
      * rewrite elem_of_cons, !elem_of_app.
        intros [[= -> -> -> -> -> ->] | [[H | H] | H]] Hport; [done | | |].
        -- by destruct (Hre _ H).
        -- apply elem_of_cons in H as [H | H]; [done |].
           by apply list_elem_of_singleton in H.
        -- by apply IH.
    + rewrite !elem_of_cons.
      intros [[= -> -> -> -> -> ->] | [H | [H | H]]] Hport; try done.
      by apply IH.
Qed.

Lemma open_ports_length (w : world) (addrs : list string) :
  forall (i : nat) (ls : list (option Listener)),
    length (open_ports w addrs i ls).1.2 = length ls.
Proof.
  induction addrs as [| addr addrs IH]; intros i ls; simpl; [done |].
  destruct (listen_err w "tcp4" (listen_address addr)); simpl; [done |].
  case_decide; simpl; [| done].
  specialize (IH (S i) (<[i := Some (MkListener "tcp4" (listen_address addr))]> ls)).
  destruct (open_ports w addrs _ _) as [[o ls'] tr]. simpl in *.
  by rewrite IH, length_insert.
Qed.

Lemma Teardown_starts_nothing (s : Starter) (P : action -> Prop) :
  (forall a, releases a -> P a) -> Forall P (Teardown s).
Proof.
  intros H. apply Forall_forall.
  intros a [[_ ->] | (l & _ & ->)]%elem_of_Teardown; by apply H.
Qed.

Lemma run_end_starts_nothing (r : run_result) (P : action -> Prop) :
  (forall a, releases a -> P a) -> Forall P (run_end r).
Proof.
  intros H. unfold run_end.
  destruct (run_out r); try done; by apply Teardown_starts_nothing.
Qed.

(** X10: with as many listeners as ports, every [cmd.Start()] of a run,
    for the first worker, after an exit or after a HUP, runs the command,
    the arguments and the directory of the [Starter] with one extra file
    per port and with [SERVER_STARTER_PORT] set to the pairs [spec=3+i]
    of the port specifiers, joined by semicolons. *)
Theorem Run_hands_down_ports (s : Starter) (e : gmap string string)
    (w : world) (ats : list attempt) (evs : list event) :
  length (listeners s) = length (ports s) ->
  Forall (hands_down s) (run_trace (Run s e w ats evs)).
Proof.
  intros Hlen.
  destruct (Run_inv w
    (fun s' _ => exists ls g, s' = set_generation (set_listeners s ls) g /\
                              length ls = length (ports s))
    (hands_down s)) with (s := s) (e := e) (ats := ats) (evs := evs)
    as (pre & Heq & Hpre).
  - intros s' e' ats' (ls & g & -> & Hls). split.
    + exists ls, (generation (sw_starter
        (StartWorker (set_generation (set_listeners s ls) g) e' ats'))).
      split; [| done]. rewrite StartWorker_frame at 1.
      apply set_generation_twice.
    + apply (StartWorker_hands_down ats' (set_generation (set_listeners s ls) g) e').
      done.
  - intros a H1 H2. by destruct a.
  - intros ls tr1 Hopen. exists ls, 0. split; [done |].
    pose proof (open_ports_length w (ports s) 0 (listeners s)) as H.
    rewrite Hopen in H. simpl in H. by rewrite H.
  - done.
  - rewrite Heq. apply Forall_app. split; [done |].
    apply run_end_starts_nothing. by intros [].
Qed.

Lemma Run_hands_down_ports_witness :
  Forall (hands_down (starter_of config_ports))
    (run_trace (Run (starter_of config_ports) ∅ quiet_world
                  [attempt_noexec; attempt_alive 11]
                  [SignalEvent TERM; exit_of 11])).
Proof. apply Run_hands_down_ports. reflexivity. Defined.

(** ** The environment of the workers *)

Lemma setEnv_off (w : world) (call : nat) (e : gmap string string) :
  Getenv e "ENVDIR" = "" -> setEnv w call e = e.
Proof. intros H. unfold setEnv. by rewrite decide_True. Qed.

Lemma not_handoff_ENVDIR : ~ handoff_key "ENVDIR".
Proof. intros [H | H]; discriminate. Qed.

(** X11: when [ENVDIR] is unset or empty, [setEnv] reloads nothing, and
    every process of a run is started under the environment that [Run]
    was called with, but for the two variables that [StartWorker]
    exports. *)
Theorem Run_env_frame (s : Starter) (e : gmap string string)
    (w : world) (ats : list attempt) (evs : list event) :
  Getenv e "ENVDIR" = "" ->
  Forall (inherits_env e) (run_trace (Run s e w ats evs)).
Proof.
  intros Hdir.
  set (Inv := fun (_ : Starter) (e' : gmap string string) =>
                forall k, ~ handoff_key k -> e' !! k = e !! k).
  assert (Hoff : forall call s' e', Inv s' e' -> setEnv w call e' = e').
  { intros call s' e' HI. apply setEnv_off. unfold Getenv.
    by rewrite (HI "ENVDIR" not_handoff_ENVDIR). }
  destruct (Run_inv w Inv (inherits_env e)) with
    (s := s) (e := e) (ats := ats) (evs := evs) as (pre & Heq & Hpre).
  - intros s' e' ats' HI. split.
    + intros k Hk. rewrite <- (HI k Hk). by apply StartWorker_env_keeps.
    + apply Forall_forall. intros a Ha environ k Henv Hk.
      destruct (StartWorker_env_keeps ats' s' e' k Hk) as [_ Hall].
      rewrite <- (HI k Hk).
      by apply (proj1 (Forall_forall _ _) Hall a Ha).
  - intros a H1 H2 environ k Henv. by destruct a.
  - intros ls tr1 _.
    assert (HI : Inv s (Setenv "SERVER_STARTER_GENERATION" "0" e)).
    { intros k Hk. apply Setenv_handoff; [by right | done]. }
    by rewrite (Hoff 0%nat s _ HI).
  - intros s' e' HI. by rewrite (Hoff 1%nat s' e' HI).
  - rewrite Heq. apply Forall_app. split; [done |].
    apply run_end_starts_nothing. intros a Ha environ k Henv. by destruct a.
Qed.

Lemma Run_env_frame_witness :
  Forall (inherits_env {[ "HOME" := "/root" ]})
    (run_trace (Run (starter_of config_ports) {[ "HOME" := "/root" ]}
                  quiet_world [attempt_alive 11]
                  [SignalEvent HUP; SignalEvent TERM])).
Proof. apply Run_env_frame. reflexivity. Defined.

(** ** The environment is reloaded twice *)

Lemma supervise_reload (w : world) (reload : nat -> gmap string string)
    (evs : list event) :
  forall (l : loop_state) (ats : list attempt),
    supervise (MkWorld (openfile_err w) (listen_err w) reload (findprocess_err w))
      l evs ats =
    supervise w l evs ats.
Proof.
  induction evs as [| ev evs IH]; intros l ats; simpl; [done |].
  change (loop_step (MkWorld (openfile_err w) (listen_err w) reload
                       (findprocess_err w)) l ev ats)
    with (loop_step w l ev ats).
  destruct (loop_step w l ev ats) as [[[o l'] ats'] tr].
  destruct o; try done. by rewrite IH.
Qed.

Lemma open_ports_reload (w : world) (reload : nat -> gmap string string)
    (addrs : list string) :
  forall (i : nat) (ls : list (option Listener)),
    open_ports (MkWorld (openfile_err w) (listen_err w) reload (findprocess_err w))
      addrs i ls =
    open_ports w addrs i ls.
Proof.
  induction addrs as [| addr addrs IH]; intros i ls; simpl; [done |].
  destruct (listen_err w "tcp4" (listen_address addr)); [done |].
  case_decide; [| done]. by rewrite IH.
Qed.

Lemma run_loop_reload (w : world) (reload : nat -> gmap string string)
    (l : loop_state) (evs : list event) (ats : list attempt) :
  run_loop (MkWorld (openfile_err w) (listen_err w) reload (findprocess_err w))
    l evs ats =
  run_loop w l evs ats.
Proof. unfold run_loop. by rewrite supervise_reload. Qed.

(** X12: [Run] calls [setEnv] twice, before the first worker and on
    entering the loop, and never again: a run depends on what [reloadEnv]
    returns at these two calls only, so no HUP and no worker exit makes it
    read the environment directory anew. *)
Theorem Run_reloads_twice (s : Starter) (e : gmap string string)
    (w : world) (ats : list attempt) (evs : list event)
    (reload : nat -> gmap string string) :
  reload 0%nat = reloadEnv w 0%nat ->
  reload 1%nat = reloadEnv w 1%nat ->
  Run s e (MkWorld (openfile_err w) (listen_err w) reload (findprocess_err w))
    ats evs =
  Run s e w ats evs.
Proof.
  intros H0 H1.
  set (w' := MkWorld (openfile_err w) (listen_err w) reload (findprocess_err w)).
  assert (Hset0 : forall e', setEnv w' 0 e' = setEnv w 0 e').
  { intros e'. unfold setEnv. simpl. by rewrite H0. }
  assert (Hset1 : forall e', setEnv w' 1 e' = setEnv w 1 e').
  { intros e'. unfold setEnv. simpl. by rewrite H1. }
  unfold Run.
  change (open_pid_file w' s) with (open_pid_file w s).
  destruct (open_pid_file w s) as [[err |] tr0]; [done |].
  unfold w' at 1. rewrite open_ports_reload.
  destruct (open_ports w (ports s) 0 (listeners s)) as [[opened ls] tr1].
  destruct opened; try done.
  rewrite !Hset0, !Hset1.
  destruct (sw_out _); [| done | done].
  unfold w'. by rewrite run_loop_reload.
Qed.

Lemma Run_reloads_twice_witness :
  Run (starter_of config_ports) {[ "ENVDIR" := "/etc/env" ]}
    (MkWorld None (fun _ _ => None)
       (fun n => if (n <? 2)%nat then ∅ else {[ "KILL_OLD_DELAY" := "9" ]})
       (fun _ => false))
    [attempt_alive 11; attempt_alive 12]
    [SignalEvent HUP; SignalEvent TERM] =
  Run (starter_of config_ports) {[ "ENVDIR" := "/etc/env" ]} quiet_world
    [attempt_alive 11; attempt_alive 12]
    [SignalEvent HUP; SignalEvent TERM].
Proof.
  exact (Run_reloads_twice (starter_of config_ports) {[ "ENVDIR" := "/etc/env" ]}
           quiet_world [attempt_alive 11; attempt_alive 12]
           [SignalEvent HUP; SignalEvent TERM]
           (fun n => if (n <? 2)%nat then ∅ else {[ "KILL_OLD_DELAY" := "9" ]})
           eq_refl eq_refl).
Defined.

(** ** Signals go to the workers of the run *)

Lemma supervised_app_l (tr tr' : list action) (pid : Z) :
  supervised tr pid -> supervised (tr ++ tr') pid.
Proof.
  intros [(a & Ha & Hpid) Hr]. split.
  - exists a. split; [| done]. apply elem_of_app. by left.
  - apply elem_of_app. by left.
Qed.

Lemma supervised_app_r (tr tr' : list action) (pid : Z) :
  supervised tr' pid -> supervised (tr ++ tr') pid.
Proof.
  intros [(a & Ha & Hpid) Hr]. split.
  - exists a. split; [| done]. apply elem_of_app. by right.
  - apply elem_of_app. by right.
Qed.

Lemma StartWorker_return_supervised (ats : list attempt) (s : Starter)
    (e : gmap string string) (pid : Z) :
  sw_out (StartWorker s e ats) = SwReturn (Some pid) ->
  supervised (sw_trace (StartWorker s e ats)) pid.
Proof.
  intros H.
  destruct (StartWorker_return_started ats s e _ H)
    as (pid' & environ & H1 & H2 & [[= ->] | H3]); [| done].
  split; [| done]. eexists. split; [exact H1 | done].
Qed.

Lemma assign_worker_tracked (l : loop_state) (old : gmap Z Z)
    (ats : list attempt) (K : Z -> Prop) :
  let r := StartWorker (ls_starter l) (ls_env l) ats in
  (forall pid, pid ∈ dom old -> K pid) ->
  (forall pid, ls_p l = Some pid -> K pid) ->
  forall pid, pid ∈ tracked (assign_worker l old r).2 ->
    K pid \/ supervised (sw_trace r) pid.
Proof.
  intros r Hold Hp pid. unfold assign_worker, tracked.
  destruct (sw_out r) as [p' | |] eqn:Hout; simpl.
  - intros [H | H]%elem_of_union; [left; by apply Hold |].
    destruct p' as [pid' |]; [| set_solver].
    apply elem_of_singleton in H as ->. right.
    by apply StartWorker_return_supervised.
  - intros [H | H]%elem_of_union; [left; by apply Hold |].
    destruct (ls_p l) as [pid' |]; [| set_solver].
    apply elem_of_singleton in H as ->. left. by apply Hp.
  - intros [H | H]%elem_of_union; [left; by apply Hold |].
    destruct (ls_p l) as [pid' |]; [| set_solver].
    apply elem_of_singleton in H as ->. left. by apply Hp.
Qed.

Lemma loop_step_signals (w : world) (l : loop_state) (ev : event)
    (ats : list attempt) (K : Z -> Prop) :
  (forall pid, pid ∈ tracked l -> K pid) ->
  (forall pid sig, ASignal pid sig ∈ (loop_step w l ev ats).2 -> K pid) /\
  (forall pid, pid ∈ tracked (loop_step w l ev ats).1.1.2 ->
     K pid \/ supervised (loop_step w l ev ats).2 pid).
Proof.
  intros HK.
  assert (Hold : forall pid, pid ∈ dom (ls_oldWorkers l) -> K pid).
  { intros pid H. apply HK. unfold tracked. set_solver. }
  assert (Hp : forall pid, ls_p l = Some pid -> K pid).
  { intros pid H. apply HK. unfold tracked. rewrite H. set_solver. }
  assert (Hnosig : forall pid sig,
            ASignal pid sig ∉ sw_trace (StartWorker (ls_starter l) (ls_env l) ats)).
  { intros pid sig H.
    by apply (proj1 (Forall_forall _ _)
                (StartWorker_launcher_actions ats (ls_starter l) (ls_env l))) in H. }
  destruct ev as [st | sig]; simpl.
  - destruct (ls_p l) as [pid |] eqn:Hpid; simpl.
    2: { split; [intros pid sig H; by apply elem_of_nil in H |].
         intros pid H. left. by apply HK. }
    case_decide; simpl.
    + pose proof (assign_worker_tracked l (ls_oldWorkers l) ats K Hold) as Ht.
      rewrite Hpid in Ht. specialize (Ht Hp).
      destruct (assign_worker _ _ _) as [o l']. simpl in *.
      split; [| exact Ht]. intros pid' sig H'. by destruct (Hnosig pid' sig).
    + split; [intros pid' sig H'; by apply elem_of_nil in H' |].
      intros pid' H'. left. apply HK. unfold tracked in *. simpl in H'.
      rewrite Hpid in *. rewrite dom_delete_L in H'. set_solver.
  - assert (Hsame : forall received tosend pid,
              pid ∈ tracked (with_signals l received tosend) -> K pid).
    { intros received tosend pid H. by apply HK. }
    repeat case_decide; simpl;
      try (split; [intros pid' sig' H'; by apply elem_of_nil in H' |];
           intros pid' H'; left; by eapply Hsame).
    unfold spawn_and_kill. simpl.
    destruct (ls_p l) as [pid |] eqn:Hpid; simpl.
    2: { split; [intros pid sig' H'; by apply elem_of_nil in H' |].
         intros pid H'. left. apply HK. unfold tracked in *. simpl in H'.
         by rewrite Hpid in *. }
    set (l1 := with_signals l _ _).
    set (old := <[pid := _]> _).
    assert (Hold' : forall pid', pid' ∈ dom old -> K pid').
    { intros pid' H'. unfold old in H'. rewrite dom_insert_L in H'.
      apply elem_of_union in H' as [->%elem_of_singleton | H'];
        [by apply Hp | by apply Hold]. }
    pose proof (assign_worker_tracked l1 old ats K Hold') as Ht.
    simpl in Ht. rewrite Hpid in Ht. specialize (Ht Hp).
    destruct (assign_worker l1 old _) as [o l'] eqn:Has. simpl in *.
    assert (Hdefault :
      (forall pid' sig',
         ASignal pid' sig' ∈ sw_trace (StartWorker (ls_starter l) (ls_env l) ats) ->
         K pid') /\
      (forall pid', pid' ∈ tracked l' ->
         K pid' \/
         supervised (sw_trace (StartWorker (ls_starter l) (ls_env l) ats)) pid')).
    { split; [| exact Ht]. intros pid' sig' H'. by destruct (Hnosig pid' sig'). }
    destruct o; simpl; try exact Hdefault.
    case_decide; simpl; [exact Hdefault |].
    split.
    + intros pid' sig'. rewrite !elem_of_app.
      intros [H' | [H' | H']].
      * by destruct (Hnosig pid' sig').
      * case_match; [| by apply elem_of_nil in H'].
        by apply list_elem_of_singleton in H'.
      * apply signal_workers_elem in H' as (pid'' & Hin & _ & [= -> _]).
        by apply Hold'.
    + intros pid' H'. destruct (Ht pid' H') as [HK' | Hs]; [by left |].
      right. by apply supervised_app_l.
Qed.

Lemma supervise_signals (w : world) (evs : list event) :
  forall (l : loop_state) (ats : list attempt) (K : Z -> Prop),
    (forall pid, pid ∈ tracked l -> K pid) ->
    (forall pid sig, ASignal pid sig ∈ (supervise w l evs ats).2 ->
       K pid \/ supervised (supervise w l evs ats).2 pid) /\
    (forall pid, pid ∈ tracked (supervise w l evs ats).1.1.2 ->
       K pid \/ supervised (supervise w l evs ats).2 pid).
Proof.
  induction evs as [| ev evs IH]; intros l ats K HK; simpl.
  { split; [intros pid sig H; by apply elem_of_nil in H |].
    intros pid H. left. by apply HK. }
  pose proof (loop_step_signals w l ev ats K HK) as [H1 H2].
  destruct (loop_step w l ev ats) as [[[o l'] ats'] tr]. simpl in H1, H2.
  assert (Hstop :
    (forall pid sig, ASignal pid sig ∈ tr -> K pid \/ supervised tr pid) /\
    (forall pid, pid ∈ tracked l' -> K pid \/ supervised tr pid)).
  { split; [| exact H2]. intros pid sig H. left. by eapply H1. }
  destruct o; simpl; try exact Hstop.
  specialize (IH l' ats' (fun pid => K pid \/ supervised tr pid) H2).
  destruct (supervise w l' evs ats') as [[[o' l''] rest] tr']. simpl in *.
  destruct IH as [IH1 IH2]. split.
  - intros pid sig [H | H]%elem_of_app.
    + left. by eapply H1.
    + destruct (IH1 pid sig H) as [[HK' | Hs] | Hs]; [by left | |].
      * right. by apply supervised_app_l.
      * right. by apply supervised_app_r.
  - intros pid H. destruct (IH2 pid H) as [[HK' | Hs] | Hs]; [by left | |].
    + right. by apply supervised_app_l.
    + right. by apply supervised_app_r.
Qed.

Lemma run_loop_signals (w : world) (l : loop_state) (evs : list event)
    (ats : list attempt) (K : Z -> Prop) :
  (forall pid, pid ∈ tracked l -> K pid) ->
  forall pid sig,
    ASignal pid sig ∈ run_trace (run_loop w l evs ats) ->
    K pid \/ supervised (run_trace (run_loop w l evs ats)) pid.
Proof.
  intros HK pid sig. unfold run_loop.
  pose proof (supervise_signals w evs l ats K HK) as [H1 H2].
  destruct (supervise w l evs ats) as [[[o l1] rest] tr]. simpl in H1, H2.
  assert (Hshut : ASignal pid sig ∈ signal_workers w (demoted l1) (ls_sigToSend l1) ->
                  K pid \/ supervised tr pid).
  { intros (pid' & Hin & _ & [= -> _])%signal_workers_elem.
    apply H2. by rewrite <- dom_demoted. }
  assert (Htd : forall s', ASignal pid sig ∉ Teardown s').
  { intros s' [[_ H] | (l' & _ & H)]%elem_of_Teardown; discriminate. }
  assert (Hl : forall tr', K pid \/ supervised tr pid ->
                 K pid \/ supervised (tr ++ tr') pid).
  { intros tr' [H | H]; [by left | right; by apply supervised_app_l]. }
  unfold shutdown_workers. fold (demoted l1).
  destruct o; cbn -[Teardown]; try apply H1;
    destruct (decide _) as [Hd | Hd]; cbn -[Teardown]; rewrite ?elem_of_app;
    intros Hin; apply Hl; destruct Hin as [Hin | Hin]; try (by eapply H1);
    try (by apply Hshut); destruct Hin as [Hin | Hin]; try (by apply Hshut);
    by destruct (Htd _ Hin).
Qed.

(** X13: [Run] signals its own workers only: every pid that a run sends
    a signal to, in the loop or in the deferred function, is the pid of a
    process that a [cmd.Start()] of the run has started and for which the
    run has started a reaper. *)
Theorem Run_signals_own_workers (s : Starter) (e : gmap string string)
    (w : world) (ats : list attempt) (evs : list event)
    (pid : Z) (sig : option os_Signal) :
  ASignal pid sig ∈ run_trace (Run s e w ats evs) ->
  supervised (run_trace (Run s e w ats evs)) pid.
Proof.
  assert (Htd : forall s', ASignal pid sig ∉ Teardown s').
  { intros s' [[_ H] | (l' & _ & H)]%elem_of_Teardown; discriminate. }
  assert (H0 : ASignal pid sig ∉ (open_pid_file w s).2).
  { unfold open_pid_file. case_decide; [by apply not_elem_of_nil |].
    destruct (openfile_err w); simpl; set_solver. }
  assert (H1 : ASignal pid sig ∉ (open_ports w (ports s) 0 (listeners s)).2).
  { by intros (addr & ok & _ & H)%open_ports_listens. }
  unfold Run.
  destruct (open_pid_file w s) as [[err |] tr0]; simpl in H0.
  { simpl. rewrite elem_of_app. intros [H | H]; [done | by destruct (Htd s)]. }
  destruct (open_ports w (ports s) 0 (listeners s)) as [[opened ls] tr1].
  simpl in H1.
  destruct opened; cbn -[Teardown].
  - set (s2 := set_generation (set_listeners s ls) 0).
    set (e2 := setEnv w 0 _).
    assert (Hsw : ASignal pid sig ∉ sw_trace (StartWorker s2 e2 ats)).
    { intros H.
      by apply (proj1 (Forall_forall _ _)
                  (StartWorker_launcher_actions ats s2 e2)) in H. }
    set (pre := tr0 ++ tr1 ++ _ :: sw_trace (StartWorker s2 e2 ats)).
    assert (Hpre : ASignal pid sig ∉ pre).
    { unfold pre. rewrite !elem_of_app, elem_of_cons. intros [H | [H | [H | H]]]; done. }
    destruct (sw_out (StartWorker s2 e2 ats)) as [p | |] eqn:Hout;
      cbn -[Teardown].
    + set (l0 := MkLoop _ _ _ _ _ _).
      rewrite elem_of_app. intros [H | H]; [done |].
      assert (HK : forall pid', pid' ∈ tracked l0 -> supervised pre pid').
      { intros pid'. unfold tracked, l0. simpl. rewrite dom_empty_L.
        destruct p as [pid0 |]; [| set_solver].
        intros Hin. assert (pid' = pid0) as -> by set_solver.
        unfold pre. do 2 apply supervised_app_r.
        apply (supervised_app_r [_]).
        by apply StartWorker_return_supervised. }
      destruct (run_loop_signals w l0 evs (sw_rest (StartWorker s2 e2 ats))
                  (supervised pre) HK pid sig H) as [Hs | Hs];
        [by apply supervised_app_l | by apply supervised_app_r].
    + rewrite elem_of_app. intros [H | H]; [done | by destruct (Htd _ H)].
    + done.
  - rewrite !elem_of_app. intros [H | [H | H]]; [done | done |].
    by destruct (Htd _ H).
  - rewrite !elem_of_app. intros [H | [H | H]]; [done | done |].
    by destruct (Htd _ H).
Qed.

Lemma Run_signals_own_workers_witness :
  supervised
    (run_trace (Run (starter_of config_ports) ∅ quiet_world [attempt_alive 11]
                  [SignalEvent TERM; exit_of 11])) 11.
Proof.
  apply (Run_signals_own_workers _ _ _ _ _ 11 (Some TERM)).
  apply list_elem_of_In. vm_compute.
  repeat (first [left; reflexivity | right]).
Defined.

(** ** Failures before the first worker *)

Lemma run_loop_no_error (w : world) (l : loop_state) (evs : list event)
    (ats : list attempt) (err : string) :
  run_out (run_loop w l evs ats) <> RunReturn (Some err).
Proof.
  unfold run_loop. destruct (supervise w l evs ats) as [[[o l1] rest] tr].
  destruct o; simpl; try done; by case_decide.
Qed.

Lemma open_ports_failed (w : world) (addrs : list string) (err : string) :
  forall (i : nat) (ls : list (option Listener)),
    (open_ports w addrs i ls).1.1 = OpenFailed err ->
    exists addr,
      addr ∈ addrs /\ listen_err w "tcp4" (listen_address addr) = Some err /\
      last (open_ports w addrs i ls).2 =
        Some (AListen "tcp4" (listen_address addr) false).
Proof.
  induction addrs as [| addr addrs IH]; intros i ls; simpl; [done |].
  destruct (listen_err w "tcp4" (listen_address addr)) as [err' |] eqn:Herr; simpl.
  - intros [= ->]. exists addr. split; [by left | done].
  - case_decide; simpl; [| done].
    specialize (IH (S i) (<[i := Some (MkListener "tcp4" (listen_address addr))]> ls)).
    destruct (open_ports w addrs _ _) as [[o ls'] tr]. simpl in *.
    intros Ho. destruct (IH Ho) as (addr' & Hin & Herr' & Hlast).
    exists addr'. split; [by right |]. split; [done |].
    destruct tr; [done |]. by rewrite last_cons, Hlast.
Qed.

Lemma not_launched_open_pid_file (w : world) (s : Starter) (sigs : list Z) :
  ANotify sigs ∉ (open_pid_file w s).2.
Proof.
  unfold open_pid_file. case_decide; [by apply not_elem_of_nil |].
  destruct (openfile_err w); simpl; set_solver.
Qed.

Lemma not_launched_open_ports (w : world) (addrs : list string) (i : nat)
    (ls : list (option Listener)) (sigs : list Z) :
  ANotify sigs ∉ (open_ports w addrs i ls).2.
Proof. by intros (addr & ok & _ & H)%open_ports_listens. Qed.

Lemma not_launched_Teardown (s : Starter) (sigs : list Z) :
  ANotify sigs ∉ Teardown s.
Proof. intros [[_ H] | (l' & _ & H)]%elem_of_Teardown; discriminate. Qed.

(** X14: [Run] returns an error only from the pid file or from a
    listen.  Either [os.OpenFile] failed on the pid file, and then the run
    is that call followed by [Teardown], which removes the pid file that
    could not be opened; or [net.Listen] failed for a port specifier.  In
    both cases the run has not registered for signals, has started no
    process, and leaves the environment as it was. *)
Theorem Run_startup_failure (s : Starter) (e : gmap string string)
    (w : world) (ats : list attempt) (evs : list event) (err : string) :
  run_out (Run s e w ats evs) = RunReturn (Some err) ->
  ((pidFile s <> "" /\ openfile_err w = Some err /\
    run_trace (Run s e w ats evs) =
      AOpenPidFile (pidFile s) false :: Teardown s /\
    ARemove (pidFile s) ∈ run_trace (Run s e w ats evs)) \/
   (exists addr,
      addr ∈ ports s /\ listen_err w "tcp4" (listen_address addr) = Some err /\
      AListen "tcp4" (listen_address addr) false
        ∈ run_trace (Run s e w ats evs))) /\
  ~ launched (run_trace (Run s e w ats evs)) /\
  start_gens (run_trace (Run s e w ats evs)) = [] /\
  run_env (Run s e w ats evs) = e.
Proof.
  unfold Run.
  pose proof (start_gens_open_pid_file w s) as G0.
  pose proof (not_launched_open_pid_file w s) as N0.
  assert (Hpid : forall err' tr0, open_pid_file w s = (Some err', tr0) ->
            pidFile s <> "" /\ openfile_err w = Some err' /\
            tr0 = [AOpenPidFile (pidFile s) false]).
  { intros err' tr0. unfold open_pid_file. case_decide; [done |].
    destruct (openfile_err w); [| done]. by intros [= -> <-]. }
  destruct (open_pid_file w s) as [[err0 |] tr0]; simpl in G0, N0.
  { destruct (Hpid err0 tr0 eq_refl) as (Hp & Herr & ->).
    cbn -[Teardown]. intros [= ->]. split; [| split; [| split]].
    - left. split; [done |]. split; [done |]. split; [done |].
      right. apply elem_of_Teardown. by left.
    - intros [sigs [H | H]%elem_of_cons]; [done |].
      by apply not_launched_Teardown in H.
    - change (start_gens (Teardown s) = []). apply start_gens_Teardown.
    - done. }
  clear Hpid.
  pose proof (start_gens_open_ports w (ports s) 0 (listeners s)) as G1.
  pose proof (not_launched_open_ports w (ports s) 0 (listeners s)) as N1.
  pose proof (open_ports_failed w (ports s) err 0 (listeners s)) as Hfail.
  destruct (open_ports w (ports s) 0 (listeners s)) as [[opened ls] tr1].
  simpl in G1, N1, Hfail.
  destruct opened; cbn -[Teardown].
  - destruct (sw_out _); cbn -[Teardown]; [| done | done].
    intros H. by apply run_loop_no_error in H.
  - intros [= ->]. destruct (Hfail eq_refl) as (addr & Hin & Herr & Hlast).
    split; [| split; [| split]].
    + right. exists addr. split; [done |]. split; [done |].
      apply elem_of_app. right. apply elem_of_app. left.
      destruct tr1 as [| a tr1] using rev_ind; [done |].
      rewrite last_snoc in Hlast. injection Hlast as ->.
      apply elem_of_app. right. by left.
    + intros [sigs [H | [H | H]%elem_of_app]%elem_of_app].
      * by apply N0 in H.
      * by apply N1 in H.
      * by apply not_launched_Teardown in H.
    + by rewrite !start_gens_app, G0, G1, start_gens_Teardown.
    + done.
  - done.
Qed.

Lemma Run_startup_failure_witness :
  run_trace (Run (starter_of config_ports) ∅
               (MkWorld (Some "EACCES") (fun _ _ => None) (fun _ => ∅)
                  (fun _ => false))
               [attempt_alive 11] []) =
  [AOpenPidFile "/tmp/pid" false; ARemove "/tmp/pid"].
Proof.
  destruct (Run_startup_failure (starter_of config_ports) ∅
              (MkWorld (Some "EACCES") (fun _ _ => None) (fun _ => ∅)
                 (fun _ => false))
              [attempt_alive 11] [] "EACCES" eq_refl)
    as [[(_ & _ & H & _) | (addr & _ & H & _)] _].
  - exact H.
  - discriminate H.
Defined.

(** ** Every listener opened is closed at the end *)

Lemma omap_none {A B : Type} (f : A -> option B) (P : A -> Prop) (l : list A) :
  (forall a, P a -> f a = None) -> Forall P l -> omap f l = [].
Proof.
  intros Hf. induction 1 as [| a l Ha Hl IH]; [done |].
  simpl. by rewrite (Hf a Ha).
Qed.

Lemma omap_skip {A B : Type} (f : A -> option B) (a : A) (l : list A) :
  f a = None -> omap f (a :: l) = omap f l.
Proof. intros H. simpl. by rewrite H. Qed.

Lemma omap_id_replicate_None {A : Type} (n : nat) :
  omap id (replicate n (@None A)) = [].
Proof. induction n; [done |]. simpl. done. Qed.

Lemma omap_id_Some {A : Type} (l : list A) : omap id (Some <$> l) = l.
Proof. induction l as [| a l IH]; [done |]. simpl. f_equal. exact IH. Qed.

Lemma omap_closed_Close (ls : list Listener) :
  omap closed_listener (AClose <$> ls) = ls.
Proof. induction ls as [| l ls IH]; [done |]. simpl. f_equal. exact IH. Qed.

Lemma closed_Teardown (s : Starter) :
  omap closed_listener (Teardown s) = omap id (listeners s).
Proof.
  unfold Teardown. rewrite close_listeners_omap, omap_app, omap_closed_Close.
  by case_decide.
Qed.

(** The loop of [Run] over the ports stores the listeners it has opened,
    in order, from index [i] on, and does not run out of the slice when
    the slice has room for every port. *)
Lemma open_ports_stores (w : world) (addrs : list string) :
  forall (i : nat) (ls : list (option Listener)),
    (i + length addrs <= length ls)%nat ->
    (open_ports w addrs i ls).1.1 <> OpenPanic /\
    (open_ports w addrs i ls).1.2 =
      take i ls ++
      (Some <$> omap opened_listener (open_ports w addrs i ls).2) ++
      drop (i + length (omap opened_listener (open_ports w addrs i ls).2)) ls.
Proof.
  induction addrs as [| addr addrs IH]; intros i ls Hlen; simpl in *.
  - split; [done |]. by rewrite Nat.add_0_r, take_drop.
  - destruct (listen_err w "tcp4" (listen_address addr)); simpl.
    + split; [done |]. by rewrite Nat.add_0_r, take_drop.
    + rewrite decide_True by lia.
      specialize (IH (S i)
        (<[i := Some (MkListener "tcp4" (listen_address addr))]> ls)).
      destruct (open_ports w addrs _ _) as [[o ls'] tr]. simpl in *.
      destruct IH as [IH1 IH2]; [rewrite length_insert; lia |].
      split; [done |]. rewrite IH2.
      rewrite (take_S_r _ i (Some (MkListener "tcp4" (listen_address addr))))
        by (apply list_lookup_insert_eq; lia).
      rewrite take_insert_ge by lia.
      rewrite drop_insert_lt by lia.
      rewrite <- app_assoc. simpl. by rewrite Nat.add_succ_r.
Qed.

Lemma open_ports_fresh (w : world) (addrs : list string) (n : nat) :
  (length addrs <= n)%nat ->
  (open_ports w addrs 0 (replicate n None)).1.1 <> OpenPanic /\
  omap id (open_ports w addrs 0 (replicate n None)).1.2 =
    omap opened_listener (open_ports w addrs 0 (replicate n None)).2.
Proof.
  intros Hn.
  destruct (open_ports_stores w addrs 0 (replicate n None)) as [H1 H2].
  { rewrite length_replicate. lia. }
  split; [done |]. rewrite H2. simpl.
  rewrite omap_app, omap_id_Some, drop_replicate, omap_id_replicate_None.
  by rewrite app_nil_r.
Qed.



Lemma opened_not_listen (a : action) : not_listen a -> opened_listener a = None.
Proof. by destruct a. Qed.

Lemma closed_keeps (a : action) : ~ releases a -> closed_listener a = None.
Proof. destruct a; simpl; tauto. Qed.

Lemma open_pid_file_quiet (w : world) (s : Starter) :
  omap opened_listener (open_pid_file w s).2 = [] /\
  omap closed_listener (open_pid_file w s).2 = [].
Proof.
  unfold open_pid_file. case_decide; [done |]. by destruct (openfile_err w).
Qed.

Lemma open_ports_closes_nothing (w : world) (addrs : list string) (i : nat)
    (ls : list (option Listener)) :
  omap closed_listener (open_ports w addrs i ls).2 = [].
Proof.
  apply (omap_none _ (fun a => ~ releases a)); [apply closed_keeps |].
  apply Forall_forall. intros a (addr & ok & _ & ->)%open_ports_listens.
  simpl. tauto.
Qed.

Lemma StartWorker_quiet (s : Starter) (e : gmap string string)
    (ats : list attempt) :
  omap opened_listener (sw_trace (StartWorker s e ats)) = [] /\
  omap closed_listener (sw_trace (StartWorker s e ats)) = [].
Proof.
  split.
  - apply (omap_none _ not_listen); [apply opened_not_listen |].
    apply StartWorker_no_listen.
  - apply (omap_none _ (fun a => ~ releases a)); [apply closed_keeps |].
    eapply Forall_impl; [apply StartWorker_launcher_actions |].
    apply launcher_keeps.
Qed.

Lemma run_loop_closes (w : world) (l : loop_state) (evs : list event)
    (ats : list attempt) :
  omap opened_listener (run_trace (run_loop w l evs ats)) = [] /\
  omap closed_listener (run_trace (run_loop w l evs ats)) =
    match run_out (run_loop w l evs ats) with
    | RunBlocked => []
    | _ => omap id (listeners (ls_starter l))
    end.
Proof.
  split.
  - apply (omap_none _ not_listen); [apply opened_not_listen |].
    apply run_loop_no_listen.
  - destruct (run_loop_inv w (fun _ _ => True) (fun a => ~ releases a))
      with (l := l) (evs := evs) (ats := ats) as (pre & Heq & Hpre & _);
      try done.
    { intros s' e' ats' _. split; [done |].
      eapply Forall_impl; [apply StartWorker_launcher_actions |].
      apply launcher_keeps. }
    rewrite Heq, omap_app.
    rewrite (omap_none _ (fun a => ~ releases a) pre closed_keeps Hpre).
    unfold run_end.
    pose proof (run_loop_frame w l evs ats) as Hf.
    assert (Hls : listeners (run_starter (run_loop w l evs ats)) =
                  listeners (ls_starter l)).
    { unfold same_config in Hf. by rewrite Hf. }
    destruct (run_out (run_loop w l evs ats)); simpl; try done;
      by rewrite closed_Teardown, Hls.
Qed.

(** X15: on a [Starter] made by [NewStarter], a run that returns or
    panics closes the listeners it has opened, each once and in the order
    of the listens, and no other; a blocked run has closed none. *)
Theorem Run_closes_what_it_opened (c : Config) (s : Starter)
    (e : gmap string string) (w : world) (ats : list attempt)
    (evs : list event) :
  NewStarter (Some c) = Ok s ->
  omap closed_listener (run_trace (Run s e w ats evs)) =
  match run_out (Run s e w ats evs) with
  | RunBlocked => []
  | _ => omap opened_listener (run_trace (Run s e w ats evs))
  end.
Proof.
  intros Hnew.
  assert (Hls : listeners s = replicate (length (ports s) + length (paths s)) None).
  { unfold NewStarter in Hnew. case_decide; [done |]. by injection Hnew as <-. }
  unfold Run.
  destruct (open_pid_file_quiet w s) as [O0 C0].
  destruct (open_pid_file w s) as [[err |] tr0]; simpl in O0, C0.
  { cbn -[Teardown omap]. rewrite !omap_app, O0, C0, closed_Teardown, Hls.
    rewrite omap_id_replicate_None.
    rewrite (omap_none _ not_listen _ opened_not_listen (Teardown_no_listen s)).
    done. }
  pose proof (open_ports_closes_nothing w (ports s) 0 (listeners s)) as C1.
  destruct (open_ports_fresh w (ports s) (length (ports s) + length (paths s)))
    as [Hnp O1]; [lia |].
  rewrite <- Hls in Hnp, O1.
  destruct (open_ports w (ports s) 0 (listeners s)) as [[opened ls] tr1].
  simpl in C1, Hnp, O1.
  destruct opened; cbn -[Teardown omap]; [| | done].
  - set (s2 := set_generation (set_listeners s ls) 0).
    set (e2 := setEnv w 0 _).
    destruct (StartWorker_quiet s2 e2 ats) as [O2 C2].
    pose proof (StartWorker_frame ats s2 e2) as Hf.
    assert (Hls2 : listeners (sw_starter (StartWorker s2 e2 ats)) = ls).
    { by rewrite Hf. }
    destruct (sw_out (StartWorker s2 e2 ats)); cbn -[Teardown omap].
    + set (l0 := MkLoop _ _ _ _ _ _).
      destruct (run_loop_closes w l0 evs (sw_rest (StartWorker s2 e2 ats)))
        as [O3 C3].
      rewrite !omap_app, !(omap_skip _ (ANotify _)) by done.
      rewrite ?omap_app, O0, C0, C1, O2, C2, O3, C3.
      cbn -[omap]. rewrite Hls2, !app_nil_r, O1.
      by destruct (run_out (run_loop w l0 evs _)).
    + rewrite !omap_app, !(omap_skip _ (ANotify _)) by done.
      rewrite ?omap_app, O0, C0, C1, O2, C2.
      rewrite closed_Teardown, Hls2, O1.
      rewrite (omap_none _ not_listen _ opened_not_listen (Teardown_no_listen _)).
      cbn -[omap]. by rewrite !app_nil_r.
    + rewrite !omap_app, !(omap_skip _ (ANotify _)) by done.
      by rewrite C0, C1, C2.
  - rewrite !omap_app, O0, C0, C1, closed_Teardown.
    rewrite (omap_none _ not_listen _ opened_not_listen (Teardown_no_listen _)).
    cbn -[omap]. by rewrite app_nil_r, O1.
Qed.

Lemma Run_closes_what_it_opened_witness :
  omap closed_listener
    (run_trace (Run (starter_of config_ports) ∅ quiet_world [attempt_alive 11]
                  [SignalEvent TERM; exit_of 11])) =
  omap opened_listener
    (run_trace (Run (starter_of config_ports) ∅ quiet_world [attempt_alive 11]
                  [SignalEvent TERM; exit_of 11])).
Proof.
  exact (Run_closes_what_it_opened config_ports (starter_of config_ports) ∅
           quiet_world [attempt_alive 11] [SignalEvent TERM; exit_of 11]
           eq_refl).
Defined.

(** ** One old worker at a time *)

Lemma assign_worker_old (l : loop_state) (old : gmap Z Z) (r : sw_result) :
  ls_oldWorkers (assign_worker l old r).2 = old.
Proof. unfold assign_worker. by destruct (sw_out r). Qed.

Lemma loop_step_one_old (w : world) (l : loop_state) (ev : event)
    (ats : list attempt) :
  (size (ls_oldWorkers l) <= 1)%nat ->
  (size (ls_oldWorkers (loop_step w l ev ats).1.1.2) <= 1)%nat.
Proof.
  intros Hsize. destruct ev as [st | sig]; simpl.
  - destruct (ls_p l) as [pid |]; simpl; [| done].
    case_decide; simpl.
    + pose proof (assign_worker_old l (ls_oldWorkers l)
        (StartWorker (ls_starter l) (ls_env l) ats)) as Ho.
      destruct (assign_worker _ _ _) as [o l']. simpl in *. by rewrite Ho.
    + rewrite map_size_delete.
      destruct (ls_oldWorkers l !! ps_Pid st); simpl; lia.
  - repeat case_decide; simpl; try done.
    match goal with
    | Hz : size (ls_oldWorkers _) = 0%nat |- _ =>
        apply map_size_empty_iff in Hz; simpl in Hz; rename Hz into Hempty
    end.
    unfold spawn_and_kill. simpl. destruct (ls_p l) as [pid |]; simpl; [| done].
    set (l1 := with_signals l _ _).
    set (old := <[pid := _]> _).
    pose proof (assign_worker_old l1 old
      (StartWorker (ls_starter l) (ls_env l) ats)) as Ho.
    assert (Hone : size old = 1%nat).
    { unfold old. rewrite Hempty, insert_empty. apply map_size_singleton. }
    destruct (assign_worker l1 old _) as [o l']. simpl in *.
    destruct o; simpl; try (rewrite Ho; lia).
    case_decide; simpl; rewrite Ho; lia.
Qed.

(** X16: the loop of [Run] keeps at most one old worker: from a state
    with at most one, it tracks at most one old worker, and so at most two
    processes, after any sequence of events. *)
Theorem one_old_worker_at_a_time (w : world) (evs : list event)
    (l : loop_state) (ats : list attempt) :
  (size (ls_oldWorkers l) <= 1)%nat ->
  (size (ls_oldWorkers (supervise w l evs ats).1.1.2) <= 1)%nat /\
  (size (tracked (supervise w l evs ats).1.1.2) <= 2)%nat.
Proof.
  intros Hsize.
  assert (H : (size (ls_oldWorkers (supervise w l evs ats).1.1.2) <= 1)%nat).
  { revert l ats Hsize. induction evs as [| ev evs IH]; intros l ats Hsize;
      simpl; [done |].
    pose proof (loop_step_one_old w l ev ats Hsize) as Hstep.
    destruct (loop_step w l ev ats) as [[[o l'] ats'] tr]. simpl in Hstep.
    destruct o; simpl; try done.
    specialize (IH l' ats' Hstep).
    by destruct (supervise w l' evs ats') as [[[o' l''] rest] tr']. }
  split; [exact H |].
  unfold tracked.
  rewrite size_union_alt, size_dom.
  assert ((size (match ls_p (supervise w l evs ats).1.1.2 with
                 | Some pid => {[pid]}
                 | None => ∅
                 end ∖ dom (ls_oldWorkers (supervise w l evs ats).1.1.2)
                 : gset Z) <= 1)%nat).
  { etransitivity; [apply subseteq_size, subseteq_difference_l; reflexivity |].
    destruct (ls_p _); [by rewrite size_singleton | rewrite size_empty; lia]. }
  lia.
Qed.

Lemma one_old_worker_at_a_time_witness :
  (size (ls_oldWorkers
     (supervise quiet_world loop_draining
        [SignalEvent HUP; SignalEvent HUP; exit_of 11; SignalEvent HUP]
        [attempt_alive 13; attempt_alive 14]).1.1.2) <= 1)%nat.
Proof.
  refine (proj1 (one_old_worker_at_a_time quiet_world
            [SignalEvent HUP; SignalEvent HUP; exit_of 11; SignalEvent HUP]
            loop_draining [attempt_alive 13; attempt_alive 14] _)).
  vm_compute. constructor.
Defined.

(** ** [Run] returns nil on a signal only *)

Lemma assign_worker_goes_on (l : loop_state) (old : gmap Z Z) (r : sw_result) :
  (assign_worker l old r).1 <> ReturnNil.
Proof. unfold assign_worker. by destruct (sw_out r). Qed.

Lemma loop_step_ReturnNil (w : world) (l : loop_state) (ev : event)
    (ats : list attempt) :
  (loop_step w l ev ats).1.1.1 = ReturnNil ->
  exists sig, ev = SignalEvent sig /\ sig <> HUP.
Proof.
  destruct ev as [st | sig]; simpl.
  - destruct (ls_p l) as [pid |]; simpl; [| done].
    case_decide; simpl; [| done].
    pose proof (assign_worker_goes_on l (ls_oldWorkers l)
      (StartWorker (ls_starter l) (ls_env l) ats)) as Hne.
    by destruct (assign_worker _ _ _) as [o l'].
  - destruct (decide (sig = SyscallSignal syscall.SIGHUP)) as [-> | Hne].
    + destruct (bool_decide _); simpl; [| done].
      unfold spawn_and_kill. simpl. destruct (ls_p l) as [pid |]; simpl; [| done].
      set (l1 := with_signals l _ _).
      set (old := <[pid := _]> _).
      pose proof (assign_worker_goes_on l1 old
        (StartWorker (ls_starter l) (ls_env l) ats)) as Hne.
      destruct (assign_worker l1 old _) as [o l']. simpl in *.
      destruct o; simpl; try done. by case_decide.
    + intros _. by exists sig.
Qed.

Lemma supervise_ReturnNil (w : world) (evs : list event) :
  forall (l : loop_state) (ats : list attempt),
    (supervise w l evs ats).1.1.1 = ReturnNil ->
    exists sig, SignalEvent sig ∈ evs /\ sig <> HUP.
Proof.
  induction evs as [| ev evs IH]; intros l ats; simpl; [done |].
  pose proof (loop_step_ReturnNil w l ev ats) as Hstep.
  destruct (loop_step w l ev ats) as [[[o l'] ats'] tr]. simpl in Hstep.
  destruct o; simpl; try done.
  - specialize (IH l' ats').
    destruct (supervise w l' evs ats') as [[[o' l''] rest] tr']. simpl in *.
    intros H. destruct (IH H) as (sig & Hin & Hne).
    exists sig. split; [by right | done].
  - intros _. destruct (Hstep eq_refl) as (sig & -> & Hne).
    exists sig. split; [by left | done].
Qed.

(** X17: [Run] returns nil only after a signal other than HUP was
    delivered, never because a worker exited; it has then registered for
    its signals, started a process with its reaper, and emptied the
    worker map. *)
Theorem Run_returns_nil_on_signal (s : Starter) (e : gmap string string)
    (w : world) (ats : list attempt) (evs : list event) :
  run_out (Run s e w ats evs) = RunReturn None ->
  (exists sig, SignalEvent sig ∈ evs /\ sig <> HUP) /\
  run_oldWorkers (Run s e w ats evs) = ∅ /\
  launched (run_trace (Run s e w ats evs)) /\
  (exists pid, supervised (run_trace (Run s e w ats evs)) pid).
Proof.
  unfold Run.
  destruct (open_pid_file w s) as [[err |] tr0]; [done |].
  destruct (open_ports w (ports s) 0 (listeners s)) as [[opened ls] tr1].
  destruct opened; [| done | done]. cbn -[Teardown].
  set (s2 := set_generation (set_listeners s ls) 0).
  set (e2 := setEnv w 0 _).
  pose proof (StartWorker_return_started ats s2 e2) as Hst.
  destruct (sw_out (StartWorker s2 e2 ats)) as [p | |]; [| done | done].
  cbn -[Teardown].
  set (l0 := MkLoop _ _ _ _ _ _).
  unfold run_loop.
  pose proof (supervise_ReturnNil w evs l0 (sw_rest (StartWorker s2 e2 ats)))
    as Hsup.
  destruct (supervise w l0 evs _) as [[[o l1] rest] tr]. simpl in Hsup.
  destruct o; cbn -[Teardown]; try done.
  - destruct (decide _) as [Hd | Hd]; cbn -[Teardown]; [| done].
    intros _. split; [by apply Hsup |]. split; [by apply map_size_empty_iff |].
    split.
    + eexists. apply elem_of_app. left.
      apply elem_of_app. right. apply elem_of_app. right. by left.
    + destruct (Hst p eq_refl) as (pid & environ & H1 & H2 & _).
      exists pid. apply supervised_app_l. do 2 apply supervised_app_r.
      apply (supervised_app_r [_]). split; [| done].
      eexists. split; [exact H1 | done].
  - by destruct (decide _).
Qed.

Lemma Run_returns_nil_on_signal_witness :
  run_oldWorkers
    (Run (starter_of config_ports) ∅ quiet_world [attempt_alive 11]
       [SignalEvent INT; exit_of 11]) = ∅.
Proof.
  exact (proj1 (proj2 (Run_returns_nil_on_signal (starter_of config_ports) ∅
           quiet_world [attempt_alive 11] [SignalEvent INT; exit_of 11]
           eq_refl))).
Defined.

(** ** No panic with ports only *)

Lemma inherit_from_ok (a : attempt) (sp : list string)
    (ls : list (option Listener)) :
  forall (i : nat) (acc : list string),
    (forall j, file_err a j = false) ->
    None ∉ ls ->
    (i + length ls <= length sp)%nat ->
    is_Some (inherit_from a sp ls i acc).
Proof.
  induction ls as [| [l |] ls IH]; intros i acc Hfile Hnone Hlen; simpl in *.
  - by eexists.
  - rewrite Hfile.
    destruct (lookup_lt_is_Some_2 sp i) as [spec Hspec]; [lia |].
    rewrite Hspec. apply IH; [done | | lia].
    intros H. apply Hnone. by right.
  - destruct Hnone. by left.
Qed.

Lemma bound_generation (s : Starter) (g : Z) : bound s -> bound (set_generation s g).
Proof. done. Qed.

Lemma StartWorker_unix (ats : list attempt) :
  forall (s : Starter) (e : gmap string string),
    Forall unix_attempt ats ->
    bound s ->
    sw_out (StartWorker s e ats) <> SwPanic /\
    (forall p, sw_out (StartWorker s e ats) = SwReturn p -> is_Some p) /\
    Forall unix_attempt (sw_rest (StartWorker s e ats)) /\
    bound (sw_starter (StartWorker s e ats)).
Proof.
  induction ats as [| a rest IH]; intros s e Hall Hb; simpl.
  - split; [done |]. split; [done |]. by split.
  - apply Forall_cons in Hall as [[Hfile Hfind] Hall].
    destruct (inherit_from_ok a (ports s) (listeners s) 0
                (replicate (length (ports s)) "") Hfile (proj2 Hb))
      as [ports_ Hports]; [destruct Hb; simpl; lia |].
    unfold inherit_files. rewrite Hports. simpl.
    set (s1 := set_generation s (generation s + 1)).
    set (e2 := Setenv "SERVER_STARTER_GENERATION" _ _).
    specialize (IH s1 e2 Hall (bound_generation s _ Hb)).
    destruct (start a) as [pid |]; simpl; [| exact IH].
    rewrite Hfind, orb_true_r. simpl.
    split; [done |]. split; [| by split].
    intros p [= <-]. by eexists.
Qed.

Lemma assign_worker_unix (l : loop_state) (old : gmap Z Z)
    (ats : list attempt) :
  Forall unix_attempt ats ->
  bound (ls_starter l) ->
  is_Some (ls_p l) ->
  let r := StartWorker (ls_starter l) (ls_env l) ats in
  (assign_worker l old r).1 <> Panicked /\
  (assign_worker l old r).1 <> ReturnNil /\
  is_Some (ls_p (assign_worker l old r).2) /\
  bound (ls_starter (assign_worker l old r).2) /\
  Forall unix_attempt (sw_rest r).
Proof.
  intros Hall Hb Hp r.
  destruct (StartWorker_unix ats (ls_starter l) (ls_env l) Hall Hb)
    as (H1 & H2 & H3 & H4).
  fold r in H1, H2, H3, H4. unfold assign_worker.
  destruct (sw_out r) as [p' | |] eqn:Hout; simpl; [| done |].
  - split; [done |]. split; [done |]. split; [by apply H2 |]. by split.
  - split; [done |]. split; [done |]. split; [done |]. by split.
Qed.

Lemma loop_step_unix (w : world) (l : loop_state) (ev : event)
    (ats : list attempt) :
  Forall unix_attempt ats ->
  bound (ls_starter l) ->
  is_Some (ls_p l) ->
  (loop_step w l ev ats).1.1.1 <> Panicked /\
  is_Some (ls_p (loop_step w l ev ats).1.1.2) /\
  bound (ls_starter (loop_step w l ev ats).1.1.2) /\
  Forall unix_attempt (loop_step w l ev ats).1.2.
Proof.
  intros Hall Hb Hp. destruct ev as [st | sig]; simpl.
  - destruct Hp as [pid Hp]. rewrite Hp. simpl.
    case_decide; simpl; [| split; [done |]; split; [by eexists |]; by split].
    pose proof (assign_worker_unix l (ls_oldWorkers l) ats Hall Hb
                  ltac:(by eexists)) as Ha.
    simpl in Ha. destruct (assign_worker _ _ _) as [o l']. simpl in *.
    by destruct Ha as (H1 & _ & H3 & H4 & H5).
  - destruct (decide (sig = SyscallSignal syscall.SIGHUP)) as [-> | Hne];
      [| by case_decide].
    destruct (bool_decide _); simpl; [| split; [done |]; by split].
    unfold spawn_and_kill. simpl.
    destruct Hp as [pid Hp]. rewrite Hp. simpl.
    set (l1 := with_signals l _ _).
    set (old := <[pid := _]> _).
    pose proof (assign_worker_unix l1 old ats Hall Hb
                  ltac:(by eexists)) as Ha.
    simpl in Ha. destruct (assign_worker l1 old _) as [o l']. simpl in *.
    destruct Ha as (H1 & _ & H3 & H4 & H5).
    destruct o; simpl; try done. by case_decide.
Qed.

Lemma supervise_unix (w : world) (evs : list event) :
  forall (l : loop_state) (ats : list attempt),
    Forall unix_attempt ats ->
    bound (ls_starter l) ->
    is_Some (ls_p l) ->
    (supervise w l evs ats).1.1.1 <> Panicked.
Proof.
  induction evs as [| ev evs IH]; intros l ats Hall Hb Hp; simpl; [done |].
  pose proof (loop_step_unix w l ev ats Hall Hb Hp) as Hstep.
  destruct (loop_step w l ev ats) as [[[o l'] ats'] tr]. simpl in Hstep.
  destruct Hstep as (H1 & H2 & H3 & H4).
  destruct o; simpl; try done.
  specialize (IH l' ats' H4 H3 H2).
  by destruct (supervise w l' evs ats') as [[[o' l''] rest] tr'].
Qed.

Lemma open_ports_Opened (w : world) (addrs : list string) :
  forall (i : nat) (ls : list (option Listener)),
    (open_ports w addrs i ls).1.1 = Opened ->
    forall addr, addr ∈ addrs ->
      listen_err w "tcp4" (listen_address addr) = None.
Proof.
  induction addrs as [| addr addrs IH]; intros i ls; simpl.
  - intros _ addr' H. by apply elem_of_nil in H.
  - destruct (listen_err w "tcp4" (listen_address addr)) eqn:Herr; simpl; [done |].
    case_decide; simpl; [| done].
    specialize (IH (S i) (<[i := Some (MkListener "tcp4" (listen_address addr))]> ls)).
    destruct (open_ports w addrs _ _) as [[o ls'] tr]. simpl in *.
    intros Ho addr' [-> | Hin]%elem_of_cons; [done | by apply IH].
Qed.

(** X18: [Run] does not panic on a [Starter] made by [NewStarter] from a
    configuration without paths when the system answers as a Unix system
    does ([File()] succeeds on every listener and [os.FindProcess]
    reports no error): it blocks or it returns. *)
Theorem Run_never_panics (c : Config) (s : Starter) (e : gmap string string)
    (w : world) (ats : list attempt) (evs : list event) :
  NewStarter (Some c) = Ok s ->
  Paths c = [] ->
  Forall unix_attempt ats ->
  run_out (Run s e w ats evs) = RunBlocked \/
  exists err, run_out (Run s e w ats evs) = RunReturn err.
Proof.
  intros Hnew Hpaths Hall.
  assert (Hls : length (listeners s) = length (ports s)).
  { unfold NewStarter in Hnew. case_decide; [done |]. injection Hnew as <-.
    simpl. rewrite length_replicate, Hpaths. simpl. lia. }
  unfold Run.
  destruct (open_pid_file w s) as [[err |] tr0]; simpl; [right; by eexists |].
  destruct (open_ports_stores w (ports s) 0 (listeners s)) as [Hnp _]; [lia |].
  pose proof (open_ports_Opened w (ports s) 0 (listeners s)) as Hok.
  pose proof (open_ports_all w (ports s) 0 (listeners s)) as Hopen.
  destruct (open_ports w (ports s) 0 (listeners s)) as [[opened ls] tr1].
  simpl in Hnp, Hok.
  destruct opened; cbn -[Teardown]; [| right; by eexists | done].
  specialize (Hopen (Hok eq_refl) ltac:(lia)).
  injection Hopen as -> _.
  set (s2 := set_generation (set_listeners s _) 0).
  set (e2 := setEnv w 0 _).
  assert (Hb : bound s2).
  { unfold bound, s2. simpl. rewrite drop_ge by lia. rewrite app_nil_r. split.
    - by rewrite length_fmap.
    - by intros (addr & ? & _)%list_elem_of_fmap. }
  destruct (StartWorker_unix ats s2 e2 Hall Hb) as (H1 & H2 & H3 & H4).
  destruct (sw_out (StartWorker s2 e2 ats)) as [p | |] eqn:Hout;
    cbn -[Teardown]; [| done | by left].
  set (l0 := MkLoop _ _ _ _ _ _).
  pose proof (supervise_unix w evs l0 (sw_rest (StartWorker s2 e2 ats))
                H3 H4 (H2 p eq_refl)) as Hsup.
  unfold run_loop.
  destruct (supervise w l0 evs _) as [[[o l1] rest] tr]. simpl in Hsup.
  destruct o; cbn -[Teardown]; try (by left).
  destruct (decide _); cbn -[Teardown]; [right; by eexists | by left].
Qed.

Lemma Run_never_panics_witness :
  run_out (Run (starter_of config_ports) ∅ quiet_world
             [attempt_noexec; attempt_alive 11; attempt_dead_unix 12]
             [exit_of 11; SignalEvent HUP]) = RunBlocked \/
  exists err,
    run_out (Run (starter_of config_ports) ∅ quiet_world
               [attempt_noexec; attempt_alive 11; attempt_dead_unix 12]
               [exit_of 11; SignalEvent HUP]) = RunReturn err.
Proof.
  apply (Run_never_panics config_ports); [reflexivity | reflexivity |].
  repeat (apply Forall_cons; split; [by split |]). by apply Forall_nil.
Defined.
